(** * amarvoice-ai: the audio utilities and the voice interface component

  A shallow embedding of [services/audioUtils.ts] and of the state
  handling of the [VoiceInterface] React component, with the properties
  the specification states about them.

  Conventions of the embedding.
  - A JavaScript string is the list of its UTF-16 code units, each a
    number of type [N]; [js "..."] writes an ASCII literal.
  - A [Uint8Array] is a window on an [ArrayBuffer]; it is kept as the
    bytes before the window, the bytes of the window and the bytes after
    it, so that [buffer], [byteOffset] and [byteLength] are the derived
    notions the source reads.
  - A JavaScript number is NaN, an infinity or a finite value, the
    finite values being exact rationals.  Samples go through operations
    that are exact in double precision, as each place says; the sums
    and differences of times and delays round, and [Double] gives them
    as the language does: to the nearest double, ties to even.
  - An exception is a value: a function that can throw returns a sum. *)

From Stdlib Require Import QArith Qminmax Lqa Qround Qabs Qpower.
From Stdlib Require PrimFloat SpecFloat FloatOps.
From stdpp Require Import base list strings gmap.
From Stdlib.Strings Require Import Ascii String Byte.

Local Open Scope N_scope.

(** ** JavaScript values *)
Module Js.

(** Strings as lists of code units. *)
Abbreviation jsstring := (list N).

Definition js (s : string) : jsstring :=
  map N_of_ascii (list_ascii_of_string s).

(** A string as a condition: true when it is not empty. *)
Definition truthy (s : jsstring) : bool :=
  match s with
  | [] => false
  | _ :: _ => true
  end.

Fixpoint jsstring_eqb (a b : jsstring) : bool :=
  match a, b with
  | [], [] => true
  | x :: a', y :: b' => (x =? y) && jsstring_eqb a' b'
  | _, _ => false
  end.

(** [line.startsWith(pre)]. *)
Fixpoint startsWith (line pre : jsstring) : bool :=
  match pre, line with
  | [], _ => true
  | p :: pre', c :: line' => (c =? p) && startsWith line' pre'
  | _ :: _, [] => false
  end.

(** [text.includes(pat)]. *)
Fixpoint includes (text pat : jsstring) : bool :=
  startsWith text pat
  || match text with
     | [] => false
     | _ :: rest => includes rest pat
     end.

(** White space and line terminators of ECMAScript, the code units that
    [String.prototype.trim] removes. *)
Definition is_white_space (c : N) : bool :=
  (c =? 9) || (c =? 10) || (c =? 11) || (c =? 12) || (c =? 13)
  || (c =? 32) || (c =? 160) || (c =? 5760)
  || ((8192 <=? c) && (c <=? 8202))
  || (c =? 8232) || (c =? 8233) || (c =? 8239) || (c =? 8287)
  || (c =? 12288) || (c =? 65279).

Fixpoint trimStart (s : jsstring) : jsstring :=
  match s with
  | [] => []
  | c :: r => if is_white_space c then trimStart r else s
  end.

Fixpoint trimEnd (s : jsstring) : jsstring :=
  match s with
  | [] => []
  | c :: r =>
      match trimEnd r with
      | [] => if is_white_space c then [] else [c]
      | r' => c :: r'
      end
  end.

Definition trim (s : jsstring) : jsstring := trimEnd (trimStart s).

(** [s.split('\n')]. *)
Fixpoint split_lines (s : jsstring) : list jsstring :=
  match s with
  | [] => [[]]
  | c :: r =>
      if c =? 10 then [] :: split_lines r
      else match split_lines r with
           | l :: ls => (c :: l) :: ls
           | [] => [[c]]
           end
  end.

(** A number: NaN, the two infinities, or a finite value.  Finite values
    are exact rationals; the two zeros are not distinguished (no modelled
    operation tells them apart). *)
Inductive number :=
| NaN
| PosInf
| NegInf
| Num (q : Q).

(** [Math.min] and [Math.max] of a finite constant and a number: NaN as
    soon as an argument is NaN. *)
Definition Math_min (c : Q) (x : number) : number :=
  match x with
  | NaN => NaN
  | PosInf => Num c
  | NegInf => NegInf
  | Num q => if Qle_bool c q then Num c else Num q
  end.

Definition Math_max (c : Q) (x : number) : number :=
  match x with
  | NaN => NaN
  | PosInf => PosInf
  | NegInf => Num c
  | Num q => if Qle_bool q c then Num c else Num q
  end.

(** [x < 0]: false when [x] is NaN. *)
Definition lt_zero (x : number) : bool :=
  match x with
  | NaN | PosInf => false
  | NegInf => true
  | Num q => negb (Qle_bool 0 q)
  end.

(** [x * c] and [x / c] for a positive finite constant [c]. *)
Definition mul_const (x : number) (c : Q) : number :=
  match x with
  | Num q => Num (q * c)
  | other => other
  end.

Definition div_const (x : number) (c : Q) : number :=
  match x with
  | Num q => Num (q / c)
  | other => other
  end.

(** Truncation toward zero of a rational. *)
Definition truncate (q : Q) : Z := Z.quot (Qnum q) (Zpos (Qden q)).

(** ECMAScript ToInt16, the conversion of a store into an [Int16Array]:
    NaN and the infinities give 0, a finite value is truncated and
    wrapped modulo 2^16 into the signed range. *)
Definition ToInt16 (x : number) : Z :=
  match x with
  | Num q =>
      let m := ((truncate q) mod 65536)%Z in
      if (32768 <=? m)%Z then (m - 65536)%Z else m
  | _ => 0%Z
  end.

(** ECMAScript ToUint8, the conversion of a store into a [Uint8Array],
    on a non-negative integer. *)
Definition ToUint8 (n : N) : byte :=
  match Byte.of_N (n mod 256) with
  | Some b => b
  | None => x00
  end.

Inductive Exception :=
| RangeError
| NotSupportedError
| InvalidCharacterError.

(** A [Uint8Array]: a window on an [ArrayBuffer]. *)
Record Uint8Array := {
  before : list byte;
  elements : list byte;
  after : list byte;
}.

Definition buffer (a : Uint8Array) : list byte :=
  before a ++ elements a ++ after a.
Definition byteOffset (a : Uint8Array) : nat := List.length (before a).
Definition byteLength (a : Uint8Array) : nat := List.length (elements a).

(** [new Uint8Array(len)]: a fresh zero-filled buffer, seen whole. *)
Definition new_Uint8Array (len : nat) : Uint8Array :=
  {| before := []; elements := replicate len x00; after := [] |}.

(** [new Uint8Array(buffer)]: the whole of an existing buffer. *)
Definition Uint8Array_of_buffer (buf : list byte) : Uint8Array :=
  {| before := []; elements := buf; after := [] |}.

(** [a[i]]: [None] is [undefined]. *)
Definition get (a : Uint8Array) (i : nat) : option byte := elements a !! i.

(** [a[i] = v]: a store outside the window is ignored. *)
Definition set (a : Uint8Array) (i : nat) (v : byte) : Uint8Array :=
  {| before := before a; elements := <[ i := v ]> (elements a);
     after := after a |}.

(** The 16-bit signed integer held by two bytes, least significant byte
    first (typed arrays use the byte order of the platform, little-endian
    on every platform browsers run on). *)
Definition int16_of_bytes (lo hi : byte) : Z :=
  let u := (Z.of_N (Byte.to_N lo) + 256 * Z.of_N (Byte.to_N hi))%Z in
  if (32768 <=? u)%Z then (u - 65536)%Z else u.

Fixpoint int16s_of_bytes (l : list byte) : list Z :=
  match l with
  | lo :: hi :: rest => int16_of_bytes lo hi :: int16s_of_bytes rest
  | _ => []
  end.

Definition bytes_of_int16 (z : Z) : list byte :=
  [ ToUint8 (Z.to_N (z mod 256)); ToUint8 (Z.to_N ((z / 256) mod 256)) ].

(** The bytes of the buffer of an [Int16Array]. *)
Definition buffer_of_int16s (l : list Z) : list byte :=
  List.concat (map bytes_of_int16 l).

(** [new Int16Array(buffer, byteOffset, length)]: a RangeError unless the
    offset is a multiple of the element size and the window fits in the
    buffer. *)
Definition new_Int16Array (buf : list byte) (offset len : nat)
  : Exception + list Z :=
  if negb (offset mod 2 =? 0)%nat then inl RangeError
  else if (List.length buf <? offset + 2 * len)%nat then inl RangeError
  else inr (int16s_of_bytes (take (2 * len) (drop offset buf))).

(** An [AudioBuffer]: its sample rate and one list of samples per
    channel. *)
Record AudioBuffer := {
  sampleRate : positive;
  channels : list (list number);
}.

Definition numberOfChannels (b : AudioBuffer) : nat :=
  List.length (channels b).
Definition length (b : AudioBuffer) : nat :=
  match channels b with
  | [] => 0%nat
  | c :: _ => List.length c
  end.
Definition duration (b : AudioBuffer) : Q :=
  inject_Z (Z.of_nat (length b)) / inject_Z (Zpos (sampleRate b)).

(** An [AudioContext], as far as [createBuffer] depends on it: the
    nominal ranges of the channel count and of the sample rate, which
    the implementation chooses. *)
Record AudioContext := {
  maxChannelCount : nat;
  minSampleRate : positive;
  maxSampleRate : positive;
}.

(** The least that Web Audio asks of an implementation: 32 channels and
    the rates from 8000 Hz to 96000 Hz. *)
Definition minimal_context : AudioContext :=
  {| maxChannelCount := 32; minSampleRate := 8000; maxSampleRate := 96000 |}.

(** [ctx.createBuffer(numberOfChannels, length, sampleRate)]: zero-filled
    channels; a NotSupportedError when an argument is zero or outside its
    nominal range. *)
Definition createBuffer (ctx : AudioContext) (nch len : nat)
    (rate : positive) : Exception + AudioBuffer :=
  if (nch =? 0)%nat || (maxChannelCount ctx <? nch)%nat || (len =? 0)%nat
     || (rate <? minSampleRate ctx)%positive
     || (maxSampleRate ctx <? rate)%positive
  then inl NotSupportedError
  else inr {| sampleRate := rate;
              channels := replicate nch (replicate len (Num 0)) |}.

End Js.

(** ** Base64, as [btoa] and [atob] implement it

  [btoa] and [atob] are browser built-ins (WHATWG HTML, "forgiving-base64
  encode" and "forgiving-base64 decode", RFC 4648 section 4).  They are
  not code of the repository; they are modelled from the standard because
  [encode] and [decode] are thin loops around them. *)
Module Base64.
Import Js.

Definition alphabet : jsstring :=
  js "ABCDEFGHIJKLMNOPQRSTUVWXYZabcdefghijklmnopqrstuvwxyz0123456789+/".

(** The code unit of [=]. *)
Definition pad : N := 61.

(** The character of a 6-bit value. *)
Definition sextet_char (n : N) : N := nth (N.to_nat n) alphabet 65.

Fixpoint index_of (c : N) (l : jsstring) : option N :=
  match l with
  | [] => None
  | x :: r => if c =? x then Some 0
              else option_map N.succ (index_of c r)
  end.

(** The 6-bit value of a character, [None] outside the alphabet. *)
Definition char_sextet (c : N) : option N := index_of c alphabet.

(** RFC 4648: each 24-bit group gives four characters; a final group of
    8 bits gives two characters and [==], one of 16 bits three
    characters and [=]. *)
Fixpoint encode_units (l : list N) : jsstring :=
  match l with
  | b0 :: b1 :: b2 :: rest =>
      sextet_char (b0 / 4)
      :: sextet_char ((b0 mod 4) * 16 + b1 / 16)
      :: sextet_char ((b1 mod 16) * 4 + b2 / 64)
      :: sextet_char (b2 mod 64)
      :: encode_units rest
  | [b0; b1] =>
      [ sextet_char (b0 / 4);
        sextet_char ((b0 mod 4) * 16 + b1 / 16);
        sextet_char ((b1 mod 16) * 4);
        pad ]
  | [b0] =>
      [ sextet_char (b0 / 4); sextet_char ((b0 mod 4) * 16); pad; pad ]
  | [] => []
  end.

(** The 6-bit values that [encode_units] writes and the padding that
    follows them, apart. *)
Fixpoint sextets (l : list N) : list N :=
  match l with
  | b0 :: b1 :: b2 :: rest =>
      (b0 / 4)
      :: ((b0 mod 4) * 16 + b1 / 16)
      :: ((b1 mod 16) * 4 + b2 / 64)
      :: (b2 mod 64)
      :: sextets rest
  | [b0; b1] => [ b0 / 4; (b0 mod 4) * 16 + b1 / 16; (b1 mod 16) * 4 ]
  | [b0] => [ b0 / 4; (b0 mod 4) * 16 ]
  | [] => []
  end.

Fixpoint padding (l : list N) : jsstring :=
  match l with
  | _ :: _ :: _ :: rest => padding rest
  | [_; _] => [pad]
  | [_] => [pad; pad]
  | [] => []
  end.

(** [btoa]: an InvalidCharacterError when the argument is not a binary
    string, that is when a code unit exceeds 255. *)
Definition btoa (binary : jsstring) : Exception + jsstring :=
  if forallb (fun c => c <=? 255) binary
  then inr (encode_units binary)
  else inl InvalidCharacterError.

(** ASCII whitespace of the standard: TAB, LF, FF, CR and SPACE. *)
Definition is_ascii_whitespace (c : N) : bool :=
  (c =? 9) || (c =? 10) || (c =? 12) || (c =? 13) || (c =? 32).

(** "If data ends with one or two U+003D (=) code points, remove them." *)
Fixpoint strip_padding (s : jsstring) : jsstring :=
  match s with
  | [] => []
  | c :: r =>
      match r with
      | [] => if c =? pad then [] else [c]
      | [d] => if (c =? pad) && (d =? pad) then []
               else c :: strip_padding r
      | _ => c :: strip_padding r
      end
  end.

Fixpoint sextets_of_chars (s : jsstring) : option (list N) :=
  match s with
  | [] => Some []
  | c :: r =>
      match char_sextet c, sextets_of_chars r with
      | Some n, Some ns => Some (n :: ns)
      | _, _ => None
      end
  end.

(** The buffer loop of the standard: 24 accumulated bits give three
    bytes; 12 left-over bits give one byte (the last four are
    discarded), 18 give two (the last two are discarded). *)
Fixpoint decode_sextets (l : list N) : list N :=
  match l with
  | s0 :: s1 :: s2 :: s3 :: rest =>
      (s0 * 4 + s1 / 16)
      :: ((s1 mod 16) * 16 + s2 / 4)
      :: ((s2 mod 4) * 64 + s3)
      :: decode_sextets rest
  | [s0; s1; s2] => [ s0 * 4 + s1 / 16; (s1 mod 16) * 16 + s2 / 4 ]
  | [s0; s1] => [ s0 * 4 + s1 / 16 ]
  | _ => []
  end.

(** [atob]: an InvalidCharacterError on text that is not base64. *)
Definition atob (data : jsstring) : Exception + jsstring :=
  let d := List.filter (fun c => negb (is_ascii_whitespace c)) data in
  let d := if (List.length d mod 4 =? 0)%nat then strip_padding d else d in
  if (List.length d mod 4 =? 1)%nat then inl InvalidCharacterError
  else
    match sextets_of_chars d with
    | None => inl InvalidCharacterError
    | Some ss => inr (decode_sextets ss)
    end.

End Base64.

(** ** services/audioUtils.ts *)
Module AudioUtils.
Import Js.

(** [for (let i = 0; i < n; i++) body]: the body as a state
    transformer. *)
Definition for_range {S : Type} (n : nat) (body : S -> nat -> S) (init : S)
  : S :=
  fold_left body (seq 0 n) init.

(** [String.fromCharCode(bytes[i])]; an [undefined] element would give
    the code unit 0. *)
Definition fromCharCode (v : option byte) : jsstring :=
  match v with
  | Some b => [Byte.to_N b]
  | None => [0]
  end.

Definition encode (bytes : Uint8Array) : Exception + jsstring :=
  let len := byteLength bytes in
  let binary :=
    for_range len
      (fun binary i => binary ++ fromCharCode (get bytes i))
      [] in
  Base64.btoa binary.

(** [s.charCodeAt(i)]; out of range it is NaN, which a typed array
    stores as 0. *)
Definition charCodeAt (s : jsstring) (i : nat) : N :=
  match s !! i with
  | Some c => c
  | None => 0
  end.

Definition decode (base64 : jsstring) : Exception + Uint8Array :=
  match Base64.atob base64 with
  | inl e => inl e
  | inr binaryString =>
      let len := List.length binaryString in
      inr (for_range len
             (fun bytes i => set bytes i (ToUint8 (charCodeAt binaryString i)))
             (new_Uint8Array len))
  end.

(** [dataInt16[k] / 32768.0]; an index out of range reads [undefined],
    whose quotient is NaN.  The quotient of a 16-bit integer by 2^15 has
    at most 16 significant bits, so the store into the [Float32Array] of
    the channel keeps it exactly. *)
Definition int16_sample (dataInt16 : list Z) (k : nat) : number :=
  match dataInt16 !! k with
  | Some z => div_const (Num (inject_Z z)) 32768
  | None => NaN
  end.

(** The number of [i] with [i < len / numChannels], the quotient being
    the real one: the iterations of the inner loop. *)
Definition iterations (len numChannels : nat) : nat :=
  ((len + numChannels - 1) / numChannels)%nat.

(** The inner loop on the data of one channel. *)
Definition fill (dataInt16 : list Z) (numChannels channel : nat)
    (channelData : list number) : list number :=
  for_range (iterations (List.length dataInt16) numChannels)
    (fun channelData i =>
       <[ i := int16_sample dataInt16 (i * numChannels + channel) ]>
         channelData)
    channelData.

(** The body of the loop over the channels: [getChannelData] gives the
    live data of the channel, which the inner loop fills. *)
Definition fill_channel (dataInt16 : list Z) (numChannels : nat)
    (buffer : AudioBuffer) (channel : nat) : AudioBuffer :=
  let channelData :=
    match channels buffer !! channel with
    | Some c => c
    | None => []
    end in
  {| Js.sampleRate := Js.sampleRate buffer;
     channels :=
       <[ channel := fill dataInt16 numChannels channel channelData ]>
         (channels buffer) |}.

Definition decodeAudioData (data : Uint8Array) (ctx : AudioContext)
    (sampleRate : positive) (numChannels : nat)
  : Exception + AudioBuffer :=
  match new_Int16Array (buffer data) (byteOffset data)
                       (byteLength data / 2)%nat with
  | inl e => inl e
  | inr dataInt16 =>
      (* [frameCount] is [dataInt16.length / numChannels]; createBuffer
         truncates it, the inner loop compares [i] with it as it is. *)
      match createBuffer ctx numChannels
              (List.length dataInt16 / numChannels)%nat sampleRate with
      | inl e => inl e
      | inr buffer =>
          inr (for_range numChannels (fill_channel dataInt16 numChannels)
                 buffer)
      end
  end.

Record Blob := {
  data : jsstring;
  mimeType : jsstring;
}.

(** [Math.max(-1, Math.min(1, x))]. *)
Definition clamp (x : number) : number := Math_max (-1) (Math_min 1 x).

(** [s < 0 ? s * 32768 : s * 32767].  A [Float32Array] element has a
    24-bit significand, so both products are exact in double
    precision. *)
Definition scale (s : number) : number :=
  if lt_zero s then mul_const s 32768 else mul_const s 32767.

(** The [Int16Array] that [createBlob] fills; [data[i]] out of range
    would read [undefined], which [Math.min] turns into NaN. *)
Definition createBlob_int16 (data : list number) : list Z :=
  let l := List.length data in
  for_range l
    (fun int16 i =>
       let s := clamp (match data !! i with
                       | Some x => x
                       | None => NaN
                       end) in
       <[ i := ToInt16 (scale s) ]> int16)
    (replicate l 0%Z).

Definition createBlob (samples : list number) : Exception + Blob :=
  match encode (Uint8Array_of_buffer
                  (buffer_of_int16s (createBlob_int16 samples))) with
  | inl e => inl e
  | inr base64 =>
      inr {| data := base64; mimeType := js "audio/pcm;rate=16000" |}
  end.

(** ** exportWavFile *)

(** What [exportWavFile] can throw: the IndexSizeError of
    [getChannelData] on a channel that the buffer has not, the RangeError
    of a [DataView] store outside the view. *)
Inductive WavException :=
| IndexSizeError
| ViewRangeError.

(** [audioBuffer.getChannelData(channel)]. *)
Definition getChannelData (audioBuffer : AudioBuffer) (channel : nat)
  : WavException + list number :=
  match channels audioBuffer !! channel with
  | Some samples => inr samples
  | None => inl IndexSizeError
  end.

(** The [DataView] on the fresh buffer, and the variable [offset] that
    the three local functions share. *)
Record Writer := {
  view : list byte;
  offset : nat;
}.

(** A statement that stores into the view or moves the offset; it may
    throw. *)
Definition Action : Type := Writer -> WavException + Writer.

Definition skip : Action := fun w => inr w.

Definition andThen (a b : Action) : Action :=
  fun w =>
    match a w with
    | inl e => inl e
    | inr w' => b w'
    end.

Notation "a >> b" := (andThen a b) (at level 60, right associativity).

(** The bytes of an unsigned value, least significant byte first (every
    store of the function passes [true] for [littleEndian]); [ToUint8]
    reduces modulo 256, so the value is taken modulo 2^16 or 2^32. *)
Definition uint16_bytes (n : N) : list byte :=
  [ ToUint8 n; ToUint8 (n / 256) ].

Definition uint32_bytes (n : N) : list byte :=
  [ ToUint8 n; ToUint8 (n / 256); ToUint8 (n / 65536);
    ToUint8 (n / 16777216) ].

(** A store of the bytes [bs] at the byte offset [byteOffset]: a
    RangeError when they do not fit in the view. *)
Definition setBytes (byteOffset : nat) (bs : list byte) : Action :=
  fun w =>
    if (List.length (view w) <? byteOffset + List.length bs)%nat
    then inl ViewRangeError
    else inr {| view := take byteOffset (view w) ++ bs
                        ++ drop (byteOffset + List.length bs) (view w);
                offset := offset w |}.

Definition setUint8 (byteOffset : nat) (value : N) : Action :=
  setBytes byteOffset [ToUint8 value].
Definition setUint16 (byteOffset : nat) (value : N) : Action :=
  setBytes byteOffset (uint16_bytes value).
Definition setUint32 (byteOffset : nat) (value : N) : Action :=
  setBytes byteOffset (uint32_bytes value).
Definition setInt16 (byteOffset : nat) (value : number) : Action :=
  setBytes byteOffset (bytes_of_int16 (ToInt16 value)).

(** [offset += k]. *)
Definition advance (k : nat) : Action :=
  fun w => inr {| view := view w; offset := offset w + k |}.

Definition writeString (s : jsstring) : Action :=
  for_range (List.length s)
    (fun acc i =>
       acc >> (fun w => setUint8 (offset w + i) (charCodeAt s i) w))
    skip
  >> advance (List.length s).

Definition writeUint32 (i : N) : Action :=
  (fun w => setUint32 (offset w) i w) >> advance 4.

Definition writeUint16 (i : N) : Action :=
  (fun w => setUint16 (offset w) i w) >> advance 2.

(** The loop over the samples: the clamp and the scaling are those of
    [createBlob]. *)
Definition writeSamples (samples : list number) : Action :=
  for_range (List.length samples)
    (fun acc i =>
       acc >>
       (fun w =>
          let s := clamp (match samples !! i with
                          | Some x => x
                          | None => NaN
                          end) in
          setInt16 (offset w) (scale s) w) >>
       advance 2)
    skip.

(** The [Blob] of the DOM: its bytes and its type. *)
Record FileBlob := {
  blob_bytes : list byte;
  blob_type : jsstring;
}.

Definition exportWavFile (audioBuffer : AudioBuffer)
  : WavException + FileBlob :=
  let numOfChan := N.of_nat (numberOfChannels audioBuffer) in
  match getChannelData audioBuffer 0 with
  | inl e => inl e
  | inr samples =>
      let sampleRate := Npos (Js.sampleRate audioBuffer) in
      let bitDepth := 16 in
      let bytesPerSample := bitDepth / 8 in
      let blockAlign := numOfChan * bytesPerSample in
      let byteRate := sampleRate * blockAlign in
      let dataLength := N.of_nat (List.length samples) * bytesPerSample in
      let buffer := replicate (N.to_nat (44 + dataLength)) x00 in
      let program :=
        writeString (js "RIFF") >>
        writeUint32 (36 + dataLength) >>
        writeString (js "WAVE") >>
        writeString (js "fmt ") >>
        writeUint32 16 >>
        writeUint16 1 >>
        writeUint16 numOfChan >>
        writeUint32 sampleRate >>
        writeUint32 byteRate >>
        writeUint16 blockAlign >>
        writeUint16 bitDepth >>
        writeString (js "data") >>
        writeUint32 dataLength >>
        writeSamples samples in
      match program {| view := buffer; offset := 0 |} with
      | inl e => inl e
      | inr w => inr {| blob_bytes := view w; blob_type := js "audio/wav" |}
      end
  end.

(** [view.getUint16(byteOffset, true)] and
    [view.getUint32(byteOffset, true)], the reads that match the stores
    above; [None] stands for the RangeError of a read outside the
    view. *)
Definition getUint16 (v : list byte) (byteOffset : nat) : option N :=
  match drop byteOffset v with
  | b0 :: b1 :: _ => Some (Byte.to_N b0 + 256 * Byte.to_N b1)
  | _ => None
  end.

Definition getUint32 (v : list byte) (byteOffset : nat) : option N :=
  match drop byteOffset v with
  | b0 :: b1 :: b2 :: b3 :: _ =>
      Some (Byte.to_N b0 + 256 * Byte.to_N b1 + 65536 * Byte.to_N b2
            + 16777216 * Byte.to_N b3)
  | _ => None
  end.

(** Four bytes of the view as text, for the chunk identifiers. *)
Definition getString (v : list byte) (byteOffset len : nat) : jsstring :=
  map Byte.to_N (take len (drop byteOffset v)).

(** The writer that has written [written] from the start of the view and
    has [rest] zero bytes after them. *)
Definition writing (written : list byte) (rest : nat) : Writer :=
  {| view := written ++ replicate rest x00;
     offset := List.length written |}.

(** A statement that writes the bytes [chunk] at the offset and moves
    the offset past them, whenever they fit. *)
Definition emits (a : Action) (chunk : list byte) : Prop :=
  forall (written : list byte) (rest : nat),
    a (writing written (List.length chunk + rest))
    = inr (writing (written ++ chunk) rest).

(** The 16-bit value that [createBlob] and [exportWavFile] store for a
    sample. *)
Definition quantise (x : number) : Z := ToInt16 (scale (clamp x)).

End AudioUtils.

(** ** Double-precision numbers *)
Module Double.
Import Js.

(** [2^e] as a rational, for any integer [e]. *)
Definition pow2 (e : Z) : Q := Qpower 2 e.

(** The integer [l] with [2^l <= q < 2^(l+1)], for a positive [q]. *)
Definition floor_log2 (q : Q) : Z :=
  let l := (Z.log2 (Qnum q) - Z.log2 (Zpos (Qden q)))%Z in
  if Qle_bool (pow2 l) q then l else (l - 1)%Z.

(** The exponent of the unit in the last place of the doubles around
    [q]: a double has 53 binary digits, and no exponent below -1074. *)
Definition ulp_exponent (q : Q) : Z :=
  Z.max (floor_log2 (Qabs q) - 52) (-1074).

(** The integer nearest to [x], the even one of the two when [x] is
    half-way. *)
Definition nearest_even (x : Q) : Z :=
  let m := Qfloor x in
  match (x - inject_Z m ?= 1 # 2)%Q with
  | Lt => m
  | Gt => (m + 1)%Z
  | Eq => if Z.even m then m else (m + 1)%Z
  end.

(** Rounding to nearest, ties to even, with 53 digits and no bound on
    the exponent above: the value that an arithmetic operation of the
    language returns for the exact result [q], as long as it does not
    overflow.  The result is in lowest terms. *)
Definition round (q : Q) : Q :=
  if Qeq_bool q 0 then 0%Q
  else
    let e := ulp_exponent q in
    Qred (inject_Z (nearest_even (q / pow2 e)) * pow2 e).

(** The number for the exact result [q]: an infinity when the rounded
    value is 2^1024 or more in magnitude. *)
Definition of_Q (q : Q) : number :=
  let r := round q in
  if Qle_bool (pow2 1024) (Qabs r)
  then if Qle_bool 0 q then PosInf else NegInf
  else Num r.

(** The finite doubles, as rationals: [m * 2^e] with [m] of 53 digits
    and [e] not below -1074 (the bound above is the overflow test of
    [of_Q]). *)
Definition is_double (q : Q) : Prop :=
  exists m e : Z,
    (-1074 <= e)%Z /\ (Z.abs m < 2 ^ 53)%Z /\ q == inject_Z m * pow2 e.

Definition opp (x : number) : number :=
  match x with
  | NaN => NaN
  | PosInf => NegInf
  | NegInf => PosInf
  | Num q => Num (- q)
  end.

(** [x + y] and [x - y]. *)
Definition add (x y : number) : number :=
  match x, y with
  | NaN, _ | _, NaN => NaN
  | PosInf, NegInf | NegInf, PosInf => NaN
  | PosInf, _ | _, PosInf => PosInf
  | NegInf, _ | _, NegInf => NegInf
  | Num a, Num b => of_Q (a + b)
  end.

Definition sub (x y : number) : number := add x (opp y).

(** [x <= y]: false as soon as one of them is NaN. *)
Definition leb (x y : number) : bool :=
  match x, y with
  | NaN, _ | _, NaN => false
  | NegInf, _ | _, PosInf => true
  | PosInf, _ | _, NegInf => false
  | Num a, Num b => Qle_bool a b
  end.

Definition le (x y : number) : Prop := leb x y = true.

(** [Math.max(x, y)] and [Math.min(x, y)]. *)
Definition max (x y : number) : number :=
  match x, y with
  | NaN, _ | _, NaN => NaN
  | _, _ => if leb x y then y else x
  end.

Definition min (x y : number) : number :=
  match x, y with
  | NaN, _ | _, NaN => NaN
  | _, _ => if leb x y then x else y
  end.

(** A time of the audio clock: a finite double that is not negative, or
    the positive infinity that a sum of such doubles can overflow to. *)
Definition is_time (x : number) : Prop :=
  match x with
  | PosInf => True
  | Num a => is_double a /\ (0 <= a)%Q
  | NaN | NegInf => False
  end.

(** The number that a double of the kernel stands for; the kernel's
    doubles are those of IEEE 754, as the numbers of the language
    are. *)
Definition of_float (f : PrimFloat.float) : number :=
  match FloatOps.Prim2SF f with
  | SpecFloat.S754_zero _ => Num 0
  | SpecFloat.S754_infinity false => PosInf
  | SpecFloat.S754_infinity true => NegInf
  | SpecFloat.S754_nan => NaN
  | SpecFloat.S754_finite s m e =>
      Num (Qred ((if s then - inject_Z (Zpos m) else inject_Z (Zpos m))
                 * pow2 e))
  end.

End Double.

(** ** The translation parser of the voice interface *)
Module Translation.
Import Js.

Inductive Role := user | ai.

Definition Role_eqb (a b : Role) : bool :=
  match a, b with
  | user, user | ai, ai => true
  | _, _ => false
  end.

Record Parsed := {
  role : Role;
  translatedText : jsstring;
}.

(** [line.substring(n)]. *)
Definition substring_from (n : nat) (line : jsstring) : jsstring :=
  drop n line.

(** The variables of the loop. *)
Record Loop := {
  parsedTranslations : list Parsed;
  currentRole : option Role;
  currentText : jsstring;
}.

(** [if (currentRole && currentText) parsedTranslations.push(...)]. *)
Definition flush (st : Loop) : list Parsed :=
  match currentRole st with
  | Some r =>
      if truthy (currentText st)
      then parsedTranslations st
           ++ [ {| role := r; translatedText := trim (currentText st) |} ]
      else parsedTranslations st
  | None => parsedTranslations st
  end.

Definition loop_body (st : Loop) (line : jsstring) : Loop :=
  if startsWith line (js "User: ") then
    {| parsedTranslations := flush st;
       currentRole := Some user;
       currentText := substring_from (List.length (js "User: ")) line |}
  else if startsWith line (js "AI: ") then
    {| parsedTranslations := flush st;
       currentRole := Some ai;
       currentText := substring_from (List.length (js "AI: ")) line |}
  else if truthy (currentText st) then
    {| parsedTranslations := parsedTranslations st;
       currentRole := currentRole st;
       currentText := currentText st ++ js " " ++ trim line |}
  else st.

Definition parseTranslatedConversation (translatedText : jsstring)
  : list Parsed :=
  let lines := split_lines translatedText in
  let st := fold_left loop_body lines
              {| parsedTranslations := []; currentRole := None;
                 currentText := [] |} in
  flush st.

(** *** The parser as a specification

    The lines are read as blocks: a line with one of the two prefixes
    opens a block, and the lines without a prefix that follow it belong
    to it.  A right fold collects, for each line, the continuation lines
    that follow it up to the next prefixed line. *)
Definition prefixed (line : jsstring) : option (Role * jsstring) :=
  if startsWith line (js "User: ") then Some (user, drop 6 line)
  else if startsWith line (js "AI: ") then Some (ai, drop 4 line)
  else None.

(** The text of a block: the text after the prefix, then each
    continuation line trimmed, separated by single spaces. *)
Fixpoint join_block (head : jsstring) (conts : list jsstring) : jsstring :=
  match conts with
  | [] => head
  | c :: rest => head ++ js " " ++ join_block (trim c) rest
  end.

Section Blocks.
(** What a block contributes, given its role, the text after the
    prefix and its continuation lines. *)
Variable entry_of : Role -> jsstring -> list jsstring -> list Parsed.

Definition block_step (line : jsstring)
    (acc : list jsstring * list Parsed) : list jsstring * list Parsed :=
  match prefixed line with
  | Some (r, head) => ([], entry_of r head (fst acc) ++ snd acc)
  | None => (line :: fst acc, snd acc)
  end.

(** Lines before the first prefixed line end in the first component
    and are dropped. *)
Definition parse_blocks (text : jsstring) : list Parsed :=
  snd (fold_right block_step ([], []) (split_lines text)).
End Blocks.

(** The property as worded: every block is an entry, whose text is the
    text after the prefix with the continuation lines appended,
    trimmed. *)
Definition entry_as_claimed (r : Role) (head : jsstring)
    (conts : list jsstring) : list Parsed :=
  [ {| role := r; translatedText := trim (join_block head conts) |} ].

(** What the guards [currentRole && currentText] and [if (currentText)]
    make of it: a block whose prefixed line has nothing after the prefix
    gives no entry, and its continuation lines are dropped. *)
Definition entry_guarded (r : Role) (head : jsstring)
    (conts : list jsstring) : list Parsed :=
  if truthy head then entry_as_claimed r head conts else [].

(** The entries of a loop state once the lines without prefix that
    follow have been read: they are appended to a current text that is not
    empty, and dropped otherwise. *)
Definition close (st : Loop) (conts : list jsstring) : list Parsed :=
  if truthy (currentText st)
  then flush {| parsedTranslations := parsedTranslations st;
                currentRole := currentRole st;
                currentText := join_block (currentText st) conts |}
  else flush st.

(** The lines that open a block. *)
Definition prefixed_lines (text : jsstring) : list jsstring :=
  List.filter (fun line => match prefixed line with
                           | Some _ => true
                           | None => false
                           end)
              (split_lines text).

End Translation.

(** ** The VoiceInterface component

    The component is a state machine.  Its state holds the values of
    [useState] and [useRef] that the handlers below read or write, and
    what the component leaves outside itself: the browser's
    [localStorage], the sources it has started on the output audio context
    and not stopped ([started]), the tool responses it has sent ([sent]).
    Every handler is a transition, and what the browser or the network
    answers during a handler comes with the event ([Env], [Startup]).

    A handler runs to completion before the next event is handled: the
    [await]s inside [onmessage] and [startSession] are not points where
    the model lets another handler in.

    Left out: the flags that only drive the presentation
    ([isAgentTyping], [isAccentAutoDetected], [isRecordingSession]), the
    voice, rate and pitch settings, the voice training and export panels,
    the recorder and the audio graph. *)
Module VoiceInterface.
Import Js AudioUtils.
Export Translation.

Inductive ConnectionStatus :=
| Idle | Initializing | MicRequest | ConnectingAPI
| Listening | Processing | Speaking | Error.

Record TranscriptItem := {
  text : jsstring;
  role : Role;
  id : jsstring;
  isVerified : option bool;
  translation : option jsstring;
}.

(** [number | null], and [undefined] when the model leaves the optional
    argument out. *)
Inductive Confidence :=
| null
| undefined
| confidence (q : Q).

(** The microphone stream: the [enabled] flag of each audio track. *)
Record MediaStream := {
  audioTracks : list bool;
}.

(** A buffer source handed to the output context by
    [source.start(when)]. *)
Record Source := {
  when : number;
  bufferDuration : number;
}.

Inductive ToolResult :=
| OrderResult (orderStatus eta : jsstring)
| TextResult (r : jsstring).

Record ToolResponse := {
  response_id : jsstring;
  response_name : jsstring;
  response_result : ToolResult;
}.

(** The three constants are the doubles nearest to their decimal
    literals, as the language reads them. *)
Definition MIN_TYPING_SPEED_DELAY : number := Double.of_Q 0.02.
Definition MAX_TYPING_SPEED_DELAY : number := Double.of_Q 0.10.
Definition TYPING_SPEED_STEP : number := Double.of_Q 0.02.

Definition ACCENT_DETECTION_KEY : jsstring :=
  js "autoAccentDetectionEnabled".

Record State := {
  (* useState *)
  isActive : bool;
  transcriptions : list TranscriptItem;
  isConnecting : bool;
  status : ConnectionStatus;
  selectedAccent : jsstring;
  isMicMuted : bool;
  showTranslations : bool;
  isTranslating : bool;
  detectedAccentConfidence : Confidence;
  typingSpeedDelay : number;
  isAutoAccentDetectionEnabled : bool;
  (* useRef *)
  mediaStreamRef : option MediaStream;
  nextStartTimeRef : number;
  sourcesRef : list Source;
  currentAiTranscription : jsstring;
  currentUserTranscription : jsstring;
  (* outside the component *)
  localStorage : gmap jsstring jsstring;
  started : list Source;
  sent : list ToolResponse;
}.

(** Field updates, one per [setX] of the source and per assigned ref. *)
Definition set_isActive (v : bool) (s : State) : State :=
  {| isActive := v; transcriptions := transcriptions s;
     isConnecting := isConnecting s; status := status s;
     selectedAccent := selectedAccent s; isMicMuted := isMicMuted s;
     showTranslations := showTranslations s;
     isTranslating := isTranslating s;
     detectedAccentConfidence := detectedAccentConfidence s;
     typingSpeedDelay := typingSpeedDelay s;
     isAutoAccentDetectionEnabled := isAutoAccentDetectionEnabled s;
     mediaStreamRef := mediaStreamRef s;
     nextStartTimeRef := nextStartTimeRef s; sourcesRef := sourcesRef s;
     currentAiTranscription := currentAiTranscription s;
     currentUserTranscription := currentUserTranscription s;
     localStorage := localStorage s; started := started s; sent := sent s |}.

Definition set_transcriptions (v : list TranscriptItem) (s : State) : State :=
  {| isActive := isActive s; transcriptions := v;
     isConnecting := isConnecting s; status := status s;
     selectedAccent := selectedAccent s; isMicMuted := isMicMuted s;
     showTranslations := showTranslations s;
     isTranslating := isTranslating s;
     detectedAccentConfidence := detectedAccentConfidence s;
     typingSpeedDelay := typingSpeedDelay s;
     isAutoAccentDetectionEnabled := isAutoAccentDetectionEnabled s;
     mediaStreamRef := mediaStreamRef s;
     nextStartTimeRef := nextStartTimeRef s; sourcesRef := sourcesRef s;
     currentAiTranscription := currentAiTranscription s;
     currentUserTranscription := currentUserTranscription s;
     localStorage := localStorage s; started := started s; sent := sent s |}.

Definition set_isConnecting (v : bool) (s : State) : State :=
  {| isActive := isActive s; transcriptions := transcriptions s;
     isConnecting := v; status := status s;
     selectedAccent := selectedAccent s; isMicMuted := isMicMuted s;
     showTranslations := showTranslations s;
     isTranslating := isTranslating s;
     detectedAccentConfidence := detectedAccentConfidence s;
     typingSpeedDelay := typingSpeedDelay s;
     isAutoAccentDetectionEnabled := isAutoAccentDetectionEnabled s;
     mediaStreamRef := mediaStreamRef s;
     nextStartTimeRef := nextStartTimeRef s; sourcesRef := sourcesRef s;
     currentAiTranscription := currentAiTranscription s;
     currentUserTranscription := currentUserTranscription s;
     localStorage := localStorage s; started := started s; sent := sent s |}.

Definition set_status (v : ConnectionStatus) (s : State) : State :=
  {| isActive := isActive s; transcriptions := transcriptions s;
     isConnecting := isConnecting s; status := v;
     selectedAccent := selectedAccent s; isMicMuted := isMicMuted s;
     showTranslations := showTranslations s;
     isTranslating := isTranslating s;
     detectedAccentConfidence := detectedAccentConfidence s;
     typingSpeedDelay := typingSpeedDelay s;
     isAutoAccentDetectionEnabled := isAutoAccentDetectionEnabled s;
     mediaStreamRef := mediaStreamRef s;
     nextStartTimeRef := nextStartTimeRef s; sourcesRef := sourcesRef s;
     currentAiTranscription := currentAiTranscription s;
     currentUserTranscription := currentUserTranscription s;
     localStorage := localStorage s; started := started s; sent := sent s |}.

Definition set_selectedAccent (v : jsstring) (s : State) : State :=
  {| isActive := isActive s; transcriptions := transcriptions s;
     isConnecting := isConnecting s; status := status s; selectedAccent := v;
     isMicMuted := isMicMuted s; showTranslations := showTranslations s;
     isTranslating := isTranslating s;
     detectedAccentConfidence := detectedAccentConfidence s;
     typingSpeedDelay := typingSpeedDelay s;
     isAutoAccentDetectionEnabled := isAutoAccentDetectionEnabled s;
     mediaStreamRef := mediaStreamRef s;
     nextStartTimeRef := nextStartTimeRef s; sourcesRef := sourcesRef s;
     currentAiTranscription := currentAiTranscription s;
     currentUserTranscription := currentUserTranscription s;
     localStorage := localStorage s; started := started s; sent := sent s |}.

Definition set_isMicMuted (v : bool) (s : State) : State :=
  {| isActive := isActive s; transcriptions := transcriptions s;
     isConnecting := isConnecting s; status := status s;
     selectedAccent := selectedAccent s; isMicMuted := v;
     showTranslations := showTranslations s;
     isTranslating := isTranslating s;
     detectedAccentConfidence := detectedAccentConfidence s;
     typingSpeedDelay := typingSpeedDelay s;
     isAutoAccentDetectionEnabled := isAutoAccentDetectionEnabled s;
     mediaStreamRef := mediaStreamRef s;
     nextStartTimeRef := nextStartTimeRef s; sourcesRef := sourcesRef s;
     currentAiTranscription := currentAiTranscription s;
     currentUserTranscription := currentUserTranscription s;
     localStorage := localStorage s; started := started s; sent := sent s |}.

Definition set_showTranslations (v : bool) (s : State) : State :=
  {| isActive := isActive s; transcriptions := transcriptions s;
     isConnecting := isConnecting s; status := status s;
     selectedAccent := selectedAccent s; isMicMuted := isMicMuted s;
     showTranslations := v; isTranslating := isTranslating s;
     detectedAccentConfidence := detectedAccentConfidence s;
     typingSpeedDelay := typingSpeedDelay s;
     isAutoAccentDetectionEnabled := isAutoAccentDetectionEnabled s;
     mediaStreamRef := mediaStreamRef s;
     nextStartTimeRef := nextStartTimeRef s; sourcesRef := sourcesRef s;
     currentAiTranscription := currentAiTranscription s;
     currentUserTranscription := currentUserTranscription s;
     localStorage := localStorage s; started := started s; sent := sent s |}.

Definition set_isTranslating (v : bool) (s : State) : State :=
  {| isActive := isActive s; transcriptions := transcriptions s;
     isConnecting := isConnecting s; status := status s;
     selectedAccent := selectedAccent s; isMicMuted := isMicMuted s;
     showTranslations := showTranslations s; isTranslating := v;
     detectedAccentConfidence := detectedAccentConfidence s;
     typingSpeedDelay := typingSpeedDelay s;
     isAutoAccentDetectionEnabled := isAutoAccentDetectionEnabled s;
     mediaStreamRef := mediaStreamRef s;
     nextStartTimeRef := nextStartTimeRef s; sourcesRef := sourcesRef s;
     currentAiTranscription := currentAiTranscription s;
     currentUserTranscription := currentUserTranscription s;
     localStorage := localStorage s; started := started s; sent := sent s |}.

Definition set_detectedAccentConfidence (v : Confidence) (s : State) : State :=
  {| isActive := isActive s; transcriptions := transcriptions s;
     isConnecting := isConnecting s; status := status s;
     selectedAccent := selectedAccent s; isMicMuted := isMicMuted s;
     showTranslations := showTranslations s;
     isTranslating := isTranslating s; detectedAccentConfidence := v;
     typingSpeedDelay := typingSpeedDelay s;
     isAutoAccentDetectionEnabled := isAutoAccentDetectionEnabled s;
     mediaStreamRef := mediaStreamRef s;
     nextStartTimeRef := nextStartTimeRef s; sourcesRef := sourcesRef s;
     currentAiTranscription := currentAiTranscription s;
     currentUserTranscription := currentUserTranscription s;
     localStorage := localStorage s; started := started s; sent := sent s |}.

Definition set_typingSpeedDelay (v : number) (s : State) : State :=
  {| isActive := isActive s; transcriptions := transcriptions s;
     isConnecting := isConnecting s; status := status s;
     selectedAccent := selectedAccent s; isMicMuted := isMicMuted s;
     showTranslations := showTranslations s;
     isTranslating := isTranslating s;
     detectedAccentConfidence := detectedAccentConfidence s;
     typingSpeedDelay := v;
     isAutoAccentDetectionEnabled := isAutoAccentDetectionEnabled s;
     mediaStreamRef := mediaStreamRef s;
     nextStartTimeRef := nextStartTimeRef s; sourcesRef := sourcesRef s;
     currentAiTranscription := currentAiTranscription s;
     currentUserTranscription := currentUserTranscription s;
     localStorage := localStorage s; started := started s; sent := sent s |}.

Definition set_isAutoAccentDetectionEnabled (v : bool) (s : State) : State :=
  {| isActive := isActive s; transcriptions := transcriptions s;
     isConnecting := isConnecting s; status := status s;
     selectedAccent := selectedAccent s; isMicMuted := isMicMuted s;
     showTranslations := showTranslations s;
     isTranslating := isTranslating s;
     detectedAccentConfidence := detectedAccentConfidence s;
     typingSpeedDelay := typingSpeedDelay s;
     isAutoAccentDetectionEnabled := v; mediaStreamRef := mediaStreamRef s;
     nextStartTimeRef := nextStartTimeRef s; sourcesRef := sourcesRef s;
     currentAiTranscription := currentAiTranscription s;
     currentUserTranscription := currentUserTranscription s;
     localStorage := localStorage s; started := started s; sent := sent s |}.

Definition set_mediaStreamRef (v : option MediaStream) (s : State) : State :=
  {| isActive := isActive s; transcriptions := transcriptions s;
     isConnecting := isConnecting s; status := status s;
     selectedAccent := selectedAccent s; isMicMuted := isMicMuted s;
     showTranslations := showTranslations s;
     isTranslating := isTranslating s;
     detectedAccentConfidence := detectedAccentConfidence s;
     typingSpeedDelay := typingSpeedDelay s;
     isAutoAccentDetectionEnabled := isAutoAccentDetectionEnabled s;
     mediaStreamRef := v; nextStartTimeRef := nextStartTimeRef s;
     sourcesRef := sourcesRef s;
     currentAiTranscription := currentAiTranscription s;
     currentUserTranscription := currentUserTranscription s;
     localStorage := localStorage s; started := started s; sent := sent s |}.

Definition set_nextStartTimeRef (v : number) (s : State) : State :=
  {| isActive := isActive s; transcriptions := transcriptions s;
     isConnecting := isConnecting s; status := status s;
     selectedAccent := selectedAccent s; isMicMuted := isMicMuted s;
     showTranslations := showTranslations s;
     isTranslating := isTranslating s;
     detectedAccentConfidence := detectedAccentConfidence s;
     typingSpeedDelay := typingSpeedDelay s;
     isAutoAccentDetectionEnabled := isAutoAccentDetectionEnabled s;
     mediaStreamRef := mediaStreamRef s; nextStartTimeRef := v;
     sourcesRef := sourcesRef s;
     currentAiTranscription := currentAiTranscription s;
     currentUserTranscription := currentUserTranscription s;
     localStorage := localStorage s; started := started s; sent := sent s |}.

Definition set_sourcesRef (v : list Source) (s : State) : State :=
  {| isActive := isActive s; transcriptions := transcriptions s;
     isConnecting := isConnecting s; status := status s;
     selectedAccent := selectedAccent s; isMicMuted := isMicMuted s;
     showTranslations := showTranslations s;
     isTranslating := isTranslating s;
     detectedAccentConfidence := detectedAccentConfidence s;
     typingSpeedDelay := typingSpeedDelay s;
     isAutoAccentDetectionEnabled := isAutoAccentDetectionEnabled s;
     mediaStreamRef := mediaStreamRef s;
     nextStartTimeRef := nextStartTimeRef s; sourcesRef := v;
     currentAiTranscription := currentAiTranscription s;
     currentUserTranscription := currentUserTranscription s;
     localStorage := localStorage s; started := started s; sent := sent s |}.

Definition set_currentAiTranscription (v : jsstring) (s : State) : State :=
  {| isActive := isActive s; transcriptions := transcriptions s;
     isConnecting := isConnecting s; status := status s;
     selectedAccent := selectedAccent s; isMicMuted := isMicMuted s;
     showTranslations := showTranslations s;
     isTranslating := isTranslating s;
     detectedAccentConfidence := detectedAccentConfidence s;
     typingSpeedDelay := typingSpeedDelay s;
     isAutoAccentDetectionEnabled := isAutoAccentDetectionEnabled s;
     mediaStreamRef := mediaStreamRef s;
     nextStartTimeRef := nextStartTimeRef s; sourcesRef := sourcesRef s;
     currentAiTranscription := v;
     currentUserTranscription := currentUserTranscription s;
     localStorage := localStorage s; started := started s; sent := sent s |}.

Definition set_currentUserTranscription (v : jsstring) (s : State) : State :=
  {| isActive := isActive s; transcriptions := transcriptions s;
     isConnecting := isConnecting s; status := status s;
     selectedAccent := selectedAccent s; isMicMuted := isMicMuted s;
     showTranslations := showTranslations s;
     isTranslating := isTranslating s;
     detectedAccentConfidence := detectedAccentConfidence s;
     typingSpeedDelay := typingSpeedDelay s;
     isAutoAccentDetectionEnabled := isAutoAccentDetectionEnabled s;
     mediaStreamRef := mediaStreamRef s;
     nextStartTimeRef := nextStartTimeRef s; sourcesRef := sourcesRef s;
     currentAiTranscription := currentAiTranscription s;
     currentUserTranscription := v; localStorage := localStorage s;
     started := started s; sent := sent s |}.

Definition set_localStorage (v : gmap jsstring jsstring) (s : State) : State :=
  {| isActive := isActive s; transcriptions := transcriptions s;
     isConnecting := isConnecting s; status := status s;
     selectedAccent := selectedAccent s; isMicMuted := isMicMuted s;
     showTranslations := showTranslations s;
     isTranslating := isTranslating s;
     detectedAccentConfidence := detectedAccentConfidence s;
     typingSpeedDelay := typingSpeedDelay s;
     isAutoAccentDetectionEnabled := isAutoAccentDetectionEnabled s;
     mediaStreamRef := mediaStreamRef s;
     nextStartTimeRef := nextStartTimeRef s; sourcesRef := sourcesRef s;
     currentAiTranscription := currentAiTranscription s;
     currentUserTranscription := currentUserTranscription s;
     localStorage := v; started := started s; sent := sent s |}.

Definition set_started (v : list Source) (s : State) : State :=
  {| isActive := isActive s; transcriptions := transcriptions s;
     isConnecting := isConnecting s; status := status s;
     selectedAccent := selectedAccent s; isMicMuted := isMicMuted s;
     showTranslations := showTranslations s;
     isTranslating := isTranslating s;
     detectedAccentConfidence := detectedAccentConfidence s;
     typingSpeedDelay := typingSpeedDelay s;
     isAutoAccentDetectionEnabled := isAutoAccentDetectionEnabled s;
     mediaStreamRef := mediaStreamRef s;
     nextStartTimeRef := nextStartTimeRef s; sourcesRef := sourcesRef s;
     currentAiTranscription := currentAiTranscription s;
     currentUserTranscription := currentUserTranscription s;
     localStorage := localStorage s; started := v; sent := sent s |}.

Definition set_sent (v : list ToolResponse) (s : State) : State :=
  {| isActive := isActive s; transcriptions := transcriptions s;
     isConnecting := isConnecting s; status := status s;
     selectedAccent := selectedAccent s; isMicMuted := isMicMuted s;
     showTranslations := showTranslations s;
     isTranslating := isTranslating s;
     detectedAccentConfidence := detectedAccentConfidence s;
     typingSpeedDelay := typingSpeedDelay s;
     isAutoAccentDetectionEnabled := isAutoAccentDetectionEnabled s;
     mediaStreamRef := mediaStreamRef s;
     nextStartTimeRef := nextStartTimeRef s; sourcesRef := sourcesRef s;
     currentAiTranscription := currentAiTranscription s;
     currentUserTranscription := currentUserTranscription s;
     localStorage := localStorage s; started := started s; sent := v |}.


(** What the environment supplies while a handler runs. *)
Record Env := {
  (* the output audio context that [startSession] created *)
  outputCtx : AudioContext;
  (* the time that [outputCtx.currentTime] gives, read as the double
     nearest to it *)
  currentTime : Q;
  (* [Date.now().toString() + Math.random()...], for the item added when
     the transcript has the given length *)
  newId : nat -> jsstring;
  (* the text of the translation service's answer; [None] when the call
     fails *)
  translationReply : option jsstring;
  (* whether [localStorage] accepts the access *)
  storageWorks : bool;
}.

(** An environment for examples: an audio context with the minimal
    ranges, the clock at [now], the given answer of the translation
    service, a storage that works. *)
Definition sample_env (now : Q) (reply : option jsstring) : Env :=
  {| outputCtx := minimal_context;
     currentTime := now;
     newId := fun _ => js "id";
     translationReply := reply;
     storageWorks := true |}.

Definition loadAutoAccentDetectionState (readable : bool)
    (storage : gmap jsstring jsstring) : bool :=
  if readable then
    match storage !! ACCENT_DETECTION_KEY with
    | Some storedValue => jsstring_eqb storedValue (js "true")
    | None => false
    end
  else false.

(** [String(enabled)]. *)
Definition String_of_bool (b : bool) : jsstring :=
  if b then js "true" else js "false".

Definition saveAutoAccentDetectionState (env : Env) (enabled : bool)
    (s : State) : State :=
  if storageWorks env
  then set_localStorage
         (<[ ACCENT_DETECTION_KEY := String_of_bool enabled ]>
            (localStorage s)) s
  else s.

(** The state of a freshly mounted component. *)
Definition mount (readable : bool) (storage : gmap jsstring jsstring)
  : State :=
  {| isActive := false;
     transcriptions := [];
     isConnecting := false;
     status := Idle;
     selectedAccent := js "Dhaka";
     isMicMuted := false;
     showTranslations := false;
     isTranslating := false;
     detectedAccentConfidence := null;
     typingSpeedDelay := Double.of_Q 0.04;
     isAutoAccentDetectionEnabled :=
       loadAutoAccentDetectionState readable storage;
     mediaStreamRef := None;
     nextStartTimeRef := Num 0;
     sourcesRef := [];
     currentAiTranscription := [];
     currentUserTranscription := [];
     localStorage := storage;
     started := [];
     sent := [] |}.

Definition addTranscription (env : Env) (text : jsstring) (role : Role)
    (isVerified : option bool) (translation : option jsstring)
    (s : State) : State :=
  if negb (truthy (trim text))
     && negb (match translation with
              | Some t => truthy (trim t)
              | None => false
              end)
  then s
  else
    let id := newId env (List.length (transcriptions s)) in
    set_transcriptions
      (transcriptions s
       ++ [ {| id := id; text := text; role := role;
               isVerified := isVerified; translation := translation |} ])
      s.

(** [stopSession].  The tracks of the stream are stopped and the ref is
    cleared; every live source is stopped, so that none stays scheduled;
    then the session state goes back to its initial values. *)
Definition stopSession (s : State) : State :=
  let s := set_mediaStreamRef None s in
  let s := set_sourcesRef [] s in
  let s := set_started [] s in
  let s := set_isActive false s in
  let s := set_isConnecting false s in
  let s := set_status Idle s in
  let s := set_nextStartTimeRef (Num 0) s in
  let s := set_isMicMuted false s in
  let s := set_showTranslations false s in
  let s := set_currentAiTranscription [] s in
  let s := set_currentUserTranscription [] s in
  let s := set_typingSpeedDelay (Double.of_Q 0.04) s in
  set_detectedAccentConfidence null s.

(** [{ ...originalMsg, translation: t }]. *)
Definition with_translation (t : jsstring) (m : TranscriptItem)
  : TranscriptItem :=
  {| text := text m; role := role m; id := id m;
     isVerified := isVerified m; translation := Some t |}.

Definition translateFullConversation (env : Env) (s : State) : State :=
  let s := set_isTranslating true s in
  let s :=
    match translationReply env with
    | Some translatedText =>
        let parsedTranslations :=
          parseTranslatedConversation translatedText in
        let s :=
          set_transcriptions
            (imap (fun index originalMsg =>
                     match parsedTranslations !! index with
                     | Some p =>
                         if Role_eqb (Translation.role p) (role originalMsg)
                         then with_translation (Translation.translatedText p)
                                               originalMsg
                         else originalMsg
                     | None => originalMsg
                     end)
                  (transcriptions s)) s in
        set_showTranslations true s
    | None =>
        addTranscription env (js "Translation failed. Please try again.")
          ai None None s
    end in
  set_isTranslating false s.

(** A function call of the model, with the arguments the handlers
    read. *)
Record FunctionCall := {
  fc_id : jsstring;
  name : jsstring;
  should_mute : bool;
  accent : jsstring;
  arg_confidence : option Q;
}.

(** [accentArgs.confidence]: the argument is optional in the declaration
    of the tool. *)
Definition confidence_of (fc : FunctionCall) : Confidence :=
  match arg_confidence fc with
  | Some q => confidence q
  | None => undefined
  end.

Definition sendToolResponse (fc : FunctionCall) (r : ToolResult)
    (s : State) : State :=
  set_sent (sent s ++ [ {| response_id := fc_id fc;
                           response_name := name fc;
                           response_result := r |} ]) s.

(** The body of the loop over [message.toolCall.functionCalls]. *)
Definition handleFunctionCall (env : Env) (s : State) (fc : FunctionCall)
  : State :=
  if jsstring_eqb (name fc) (js "check_order_status") then
    sendToolResponse fc (OrderResult (js "Shipped") (js "2 days")) s
  else if jsstring_eqb (name fc) (js "detect_accent") then
    let s := set_selectedAccent (accent fc) s in
    let s := set_detectedAccentConfidence (confidence_of fc) s in
    sendToolResponse fc (TextResult (js "ok")) s
  else if jsstring_eqb (name fc) (js "end_call") then
    sendToolResponse fc (TextResult (js "call_ended")) s
  else if jsstring_eqb (name fc) (js "toggle_microphone") then
    let shouldMute := should_mute fc in
    let s :=
      match mediaStreamRef s with
      | Some stream =>
          let s := set_mediaStreamRef
                     (Some {| audioTracks :=
                                map (fun _ => negb shouldMute)
                                    (audioTracks stream) |}) s in
          set_isMicMuted shouldMute s
      | None => s
      end in
    sendToolResponse fc
      (TextResult (js "microphone_"
                   ++ (if shouldMute then js "muted" else js "unmuted"))) s
  else if jsstring_eqb (name fc) (js "translate_conversation") then
    let s := translateFullConversation env s in
    sendToolResponse fc (TextResult (js "translated")) s
  else if jsstring_eqb (name fc) (js "slow_typing_speed") then
    let s := set_typingSpeedDelay
               (Double.min
                  (Double.add (typingSpeedDelay s) TYPING_SPEED_STEP)
                  MAX_TYPING_SPEED_DELAY) s in
    sendToolResponse fc (TextResult (js "typing_speed_slowed")) s
  else if jsstring_eqb (name fc) (js "speed_up_typing_speed") then
    let s := set_typingSpeedDelay
               (Double.max
                  (Double.sub (typingSpeedDelay s) TYPING_SPEED_STEP)
                  MIN_TYPING_SPEED_DELAY) s in
    sendToolResponse fc (TextResult (js "typing_speed_sped_up")) s
  else s.

Record Message := {
  toolCall : option (list FunctionCall);
  outputTranscription : option jsstring;
  inputTranscription : option jsstring;
  (* [serverContent.modelTurn.parts[0].inlineData.data] *)
  base64Audio : option jsstring;
  turnComplete : bool;
}.

(** The audio part of [onmessage].  [inl] is the state in which the
    handler stops when [decode] or [decodeAudioData] throws, or when
    [source.start] does: it takes a finite time, and throws a TypeError
    for another.  [outputCtx.currentTime] and [audioBuffer.duration] are
    doubles, and [Math.max] and [+=] work on doubles. *)
Definition playAudio (env : Env) (audio : jsstring) (s : State)
  : State + State :=
  let s := set_status Speaking s in
  let s := set_nextStartTimeRef
             (Double.max (nextStartTimeRef s)
                         (Double.of_Q (currentTime env))) s in
  match decode audio with
  | inl _ => inl s
  | inr decodedData =>
      match decodeAudioData decodedData (outputCtx env) 24000 1 with
      | inl _ => inl s
      | inr audioBuffer =>
          match nextStartTimeRef s with
          | Num _ =>
              let source := {| when := nextStartTimeRef s;
                               bufferDuration :=
                                 Double.of_Q (duration audioBuffer) |} in
              let s := set_started (started s ++ [source]) s in
              let s := set_nextStartTimeRef
                         (Double.add (nextStartTimeRef s)
                                     (Double.of_Q (duration audioBuffer)))
                         s in
              inr (set_sourcesRef (sourcesRef s ++ [source]) s)
          | NaN | PosInf | NegInf => inl s
          end
      end
  end.

Definition onTurnComplete (env : Env) (s : State) : State :=
  let s :=
    if truthy (currentUserTranscription s) then
      let s := addTranscription env (currentUserTranscription s) user
                 None None s in
      let s := set_currentUserTranscription [] s in
      set_status Processing s
    else s in
  if truthy (currentAiTranscription s) then
    let s := addTranscription env (currentAiTranscription s) ai
               None None s in
    set_currentAiTranscription [] s
  else s.

(** The four parts of [onmessage], in the order of the source: the
    function calls, the transcription fragments, the audio, the end of
    the turn. *)
Definition onToolCall (env : Env) (message : Message) (s : State) : State :=
  match toolCall message with
  | Some functionCalls => fold_left (handleFunctionCall env) functionCalls s
  | None => s
  end.

Definition onTranscription (message : Message) (s : State) : State :=
  match outputTranscription message, inputTranscription message with
  | Some t, _ =>
      set_currentAiTranscription (currentAiTranscription s ++ t) s
  | None, Some t =>
      set_currentUserTranscription (currentUserTranscription s ++ t) s
  | None, None => s
  end.

Definition onAudio (env : Env) (message : Message) (s : State)
  : State + State :=
  match base64Audio message with
  | Some audio => if truthy audio then playAudio env audio s else inr s
  | None => inr s
  end.

Definition onmessage (env : Env) (message : Message) (s : State) : State :=
  let s := onToolCall env message s in
  let s := onTranscription message s in
  match onAudio env message s with
  | inl s => s
  | inr s => if turnComplete message then onTurnComplete env s else s
  end.

(** The phrase whose presence in the AI transcription ends the call:
    the code units of the Bengali for "call is being ended". *)
Definition END_CALL_PHRASE : jsstring :=
  [2453; 2482; 32; 2486; 2503; 2487; 32; 2453; 2480; 2494; 32;
   2489; 2458; 2509; 2459; 2503].

(** The ['ended'] listener of the [k]-th live source. *)
Definition onended (k : nat) (s : State) : State :=
  let s := set_sourcesRef (delete k (sourcesRef s)) s in
  match sourcesRef s with
  | [] =>
      if includes (currentAiTranscription s) END_CALL_PHRASE
      then stopSession s
      else set_status Listening s
  | _ :: _ => s
  end.

(** An exception as the catch block reads it. *)
Record Failure := {
  err_name : jsstring;
  err_message : jsstring;
}.

(** How the start of a session goes, up to the call of
    [ai.live.connect]. *)
Inductive Startup :=
| DevicesRejected (err : Failure)  (* [enumerateDevices] rejects *)
| NoAudioInput                     (* no device of kind [audioinput] *)
| UserMediaRejected (err : Failure) (* [getUserMedia] rejects *)
| SetupThrew (stream : MediaStream) (err : Failure)
    (* a later step throws: the audio contexts, the recorder, connect *)
| Connecting (stream : MediaStream).

Definition thrown (startup : Startup) : option Failure :=
  match startup with
  | DevicesRejected err | UserMediaRejected err | SetupThrew _ err =>
      Some err
  | NoAudioInput | Connecting _ => None
  end.

Definition name_is (err : Failure) (a b : string) : bool :=
  jsstring_eqb (err_name err) (js a) || jsstring_eqb (err_name err) (js b).

(** The texts that [startSession] shows when the microphone cannot be
    used. *)
Definition not_found_text : jsstring :=
  js "Microphone not found. Please ensure a microphone is connected and enabled.".
Definition denied_text : jsstring :=
  js "Microphone access denied. Please allow microphone permissions in your browser settings.".
Definition in_use_text : jsstring :=
  js "Microphone is in use or not accessible. Please check if another application is using it.".
Definition no_device_text : jsstring :=
  js "No microphone devices found. Please connect a microphone and ensure it is enabled.".

(** The message the catch block shows for an exception. *)
Definition failure_message (err : Failure) : jsstring :=
  if name_is err "NotFoundError" "DevicesNotFoundError" then
    not_found_text
  else if name_is err "NotAllowedError" "PermissionDeniedError" then
    denied_text
  else if name_is err "NotReadableError" "TrackStartError" then
    in_use_text
  else js "Failed to start session: " ++ err_message err.

Definition onStartFailure (env : Env) (err : Failure) (s : State) : State :=
  let s := set_status Error s in
  let s := addTranscription env (failure_message err) ai None None s in
  set_isConnecting false s.

(** [startSession].  Its guard reads [isConnecting] and [isActive] as
    the render that created the function saw them: [seen] is the state
    of that render, [s] the state the updates apply to. *)
Definition startSession (seen : State) (env : Env) (startup : Startup)
    (s : State) : State :=
  if isConnecting seen || isActive seen then s
  else
    let s := set_isConnecting true s in
    let s := set_status Initializing s in
    match startup with
    | DevicesRejected err => onStartFailure env err s
    | NoAudioInput =>
        let s := set_status Error s in
        let s := addTranscription env
                   no_device_text
                   ai None None s in
        set_isConnecting false s
    | UserMediaRejected err => onStartFailure env err s
    | SetupThrew stream err =>
        onStartFailure env err (set_mediaStreamRef (Some stream) s)
    | Connecting stream =>
        let s := set_mediaStreamRef (Some stream) s in
        set_status ConnectingAPI s
    end.

Definition onopen (env : Env) (initialText : option jsstring) (s : State)
  : State :=
  let s := set_isActive true s in
  let s := set_isConnecting false s in
  let s := set_status Listening s in
  match initialText with
  | Some t => if truthy t then addTranscription env t user None None s
              else s
  | None => s
  end.

Definition onerror (s : State) : State := set_status Error (stopSession s).

Definition onclose (s : State) : State := stopSession s.

(** [handleToggleAutoAccentDetection].  The [startSession] it calls
    after [stopSession] belongs to the render in which [isActive] was
    true. *)
Definition handleToggleAutoAccentDetection (env : Env) (checked : bool)
    (startup : Startup) (s : State) : State :=
  let seen := s in
  let s := set_isAutoAccentDetectionEnabled checked s in
  let s := saveAutoAccentDetectionState env checked s in
  if isActive seen then startSession seen env startup (stopSession s)
  else s.

(** The events of the component. *)
Inductive Event :=
| StartClicked (startup : Startup)
| Opened (initialText : option jsstring)
| MessageReceived (message : Message)
| SourceEnded (k : nat)
| SessionError
| SessionClosed
| StopClicked
| AccentSelected (a : jsstring)
| AutoAccentToggled (checked : bool) (startup : Startup).

Definition step (s : State) (ev : Env * Event) : State :=
  let env := fst ev in
  match snd ev with
  | StartClicked startup => startSession s env startup s
  | Opened initialText => onopen env initialText s
  | MessageReceived message => onmessage env message s
  | SourceEnded k => onended k s
  | SessionError => onerror s
  | SessionClosed => onclose s
  | StopClicked => stopSession s
  | AccentSelected a => set_selectedAccent a s
  | AutoAccentToggled checked startup =>
      handleToggleAutoAccentDetection env checked startup s
  end.

Definition run (s : State) (evs : list (Env * Event)) : State :=
  fold_left step evs s.

(** A message that carries only function calls. *)
Definition toolCallMessage (functionCalls : list FunctionCall) : Message :=
  {| toolCall := Some functionCalls;
     outputTranscription := None;
     inputTranscription := None;
     base64Audio := None;
     turnComplete := false |}.

(** A message that carries only a chunk of audio. *)
Definition audioMessage (audio : jsstring) : Message :=
  {| toolCall := None;
     outputTranscription := None;
     inputTranscription := None;
     base64Audio := Some audio;
     turnComplete := false |}.

(** The events of a sequence of tool-call messages and of a sequence of
    audio chunks, each with the environment it arrives in. *)
Definition toolCallEvents (batches : list (Env * list FunctionCall))
  : list (Env * Event) :=
  map (fun b => (fst b, MessageReceived (toolCallMessage (snd b)))) batches.

Definition audioEvents (chunks : list (Env * jsstring))
  : list (Env * Event) :=
  map (fun c => (fst c, MessageReceived (audioMessage (snd c)))) chunks.

(** The most recent call of a given name. *)
Definition last_call (n : jsstring) (calls : list FunctionCall)
  : option FunctionCall :=
  fold_left (fun found fc => if jsstring_eqb (name fc) n then Some fc
                             else found)
            calls None.

(** The state shows the most recent [toggle_microphone] and
    [detect_accent] calls of a list of calls. *)
Definition reflects (calls : list FunctionCall) (s : State) : Prop :=
  (forall fc, last_call (js "toggle_microphone") calls = Some fc ->
              isMicMuted s = should_mute fc)
  /\ (forall fc, last_call (js "detect_accent") calls = Some fc ->
                 selectedAccent s = accent fc
                 /\ detectedAccentConfidence s = confidence_of fc).

(** Whether an event runs [translateFullConversation]. *)
Definition translates (e : Event) : bool :=
  match e with
  | MessageReceived message =>
      match toolCall message with
      | Some functionCalls =>
          existsb (fun fc => jsstring_eqb (name fc)
                               (js "translate_conversation"))
                  functionCalls
      | None => false
      end
  | _ => false
  end.

(** Two transcript items that differ at most by their translation. *)
Definition same_but_translation (a b : TranscriptItem) : Prop :=
  id a = id b /\ text a = text b /\ role a = role b
  /\ isVerified a = isVerified b.

(** The items of [old] are all in [new], at their places and changed at
    most in their translation; [new] may have more items behind them. *)
Definition kept (old new : list TranscriptItem) : Prop :=
  exists items added : list TranscriptItem,
    new = items ++ added /\ Forall2 same_but_translation old items.

(** [new] is [old] with items added at the end. *)
Definition appended (old new : list TranscriptItem) : Prop :=
  exists added : list TranscriptItem, new = old ++ added.

(** The names the catch block treats as permission or device errors. *)
Definition device_error (err : Failure) : bool :=
  name_is err "NotFoundError" "DevicesNotFoundError"
  || name_is err "NotAllowedError" "PermissionDeniedError"
  || name_is err "NotReadableError" "TrackStartError".

(** The typing delays that the two tool calls can reach from the
    initial [0.04], as doubles: [0.02], [0.039999999999999994], [0.04],
    [0.06], [0.08] and [0.1]. *)
Definition typing_delays : list number :=
  [ Num (5764607523034235 # 288230376151711744);
    Num (2882303761517117 # 72057594037927936);
    Num (5764607523034235 # 144115188075855872);
    Num (1080863910568919 # 18014398509481984);
    Num (5764607523034235 # 72057594037927936);
    Num (3602879701896397 # 36028797018963968) ].

(** The typing delay is one of them. *)
Definition delay_ok (s : State) : Prop :=
  In (typingSpeedDelay s) typing_delays.

(** Where a source is scheduled to end, as the component computes it:
    the double nearest to its start plus its duration. *)
Definition ends (src : Source) : number :=
  Double.add (when src) (bufferDuration src).

(** Each source of the list starts at or after the computed end of each
    one in front of it. *)
Definition in_sequence (l : list Source) : Prop :=
  forall (i j : nat) (a b : Source),
    (i < j)%nat -> l !! i = Some a -> l !! j = Some b ->
    Double.le (ends a) (when b).

(** The start of a source is a finite double that is not negative, and
    its duration a double that is not negative. *)
Definition source_ok (src : Source) : Prop :=
  (exists w : Q, when src = Num w /\ Double.is_double w /\ (0 <= w)%Q)
  /\ Double.is_time (bufferDuration src).

(** [nextStartTime] is a time, the sources started so far are in
    sequence and they all end by [nextStartTime]. *)
Definition schedule_ok (s : State) : Prop :=
  Double.is_time (nextStartTimeRef s)
  /\ in_sequence (started s)
  /\ Forall (fun src => Double.le (ends src) (nextStartTimeRef s))
            (started s)
  /\ Forall source_ok (started s).

(** [parts.join(sep)]. *)
Fixpoint join (sep : jsstring) (parts : list jsstring) : jsstring :=
  match parts with
  | [] => []
  | x :: rest =>
      match rest with
      | [] => x
      | _ :: _ => x ++ sep ++ join sep rest
      end
  end.

(** The text of the conversation that [translateFullConversation] sends
    to the translation service: one line for each item. *)
Definition conversationHistory (transcriptions : list TranscriptItem)
  : jsstring :=
  join [10]
    (map (fun t => (if Role_eqb (role t) user then js "User" else js "AI")
                   ++ js ": " ++ text t)
         transcriptions).

(** The entry that the translation of an item is read from when the
    service answers with the text of the item itself. *)
Definition own_entry (t : TranscriptItem) : Parsed :=
  {| Translation.role := role t;
     Translation.translatedText := trim (text t) |}.

(** A message that carries only a fragment of transcription: of the
    speech of the model for [ai], of the speech of the user for
    [user]. *)
Definition fragmentMessage (r : Role) (t : jsstring) : Message :=
  {| toolCall := None;
     outputTranscription := if Role_eqb r ai then Some t else None;
     inputTranscription := if Role_eqb r user then Some t else None;
     base64Audio := None;
     turnComplete := false |}.

(** A message that only ends the turn. *)
Definition turnCompleteMessage : Message :=
  {| toolCall := None;
     outputTranscription := None;
     inputTranscription := None;
     base64Audio := None;
     turnComplete := true |}.

Definition fragmentEvents (fragments : list (Env * (Role * jsstring)))
  : list (Env * Event) :=
  map (fun f => (fst f, MessageReceived
                          (fragmentMessage (fst (snd f)) (snd (snd f)))))
      fragments.

(** The fragments of one speaker, put end to end. *)
Definition spoken (r : Role) (fragments : list (Env * (Role * jsstring)))
  : jsstring :=
  List.concat
    (map (fun f => snd (snd f))
         (List.filter (fun f => Role_eqb (fst (snd f)) r) fragments)).

(** The speaker and the text of each item of a transcript. *)
Definition lines_of (l : list TranscriptItem) : list (Role * jsstring) :=
  map (fun t => (role t, text t)) l.

(** What the end of a turn adds to the transcript for a speaker whose
    buffer holds [t]. *)
Definition said (r : Role) (t : jsstring) : list (Role * jsstring) :=
  if truthy (trim t) then [(r, t)] else [].

(** The names of the function calls that [onmessage] answers. *)
Definition tool_names : list jsstring :=
  [ js "check_order_status"; js "detect_accent"; js "end_call";
    js "toggle_microphone"; js "translate_conversation";
    js "slow_typing_speed"; js "speed_up_typing_speed" ].

Definition recognised (fc : FunctionCall) : bool :=
  existsb (jsstring_eqb (name fc)) tool_names.

(** The function calls that the messages of a sequence of events carry,
    in order. *)
Definition calls_in (evs : list (Env * Event)) : list FunctionCall :=
  List.concat
    (map (fun ev => match snd ev with
                    | MessageReceived message =>
                        match toolCall message with
                        | Some functionCalls => functionCalls
                        | None => []
                        end
                    | _ => []
                    end) evs).

(** The identifier and the name that a tool response carries. *)
Definition answered (l : list ToolResponse) : list (jsstring * jsstring) :=
  map (fun r => (response_id r, response_name r)) l.

(** No item of the transcript has a blank text. *)
Definition shown_ok (s : State) : Prop :=
  Forall (fun t => truthy (trim (text t)) = true) (transcriptions s).

(** ** Handlers that wait

    [onmessage] is an [async] function.  At
    [await translateFullConversation()] its handler gives way until the
    translation service has answered, and the events that come in the
    meantime are handled first; the calls of the message that stand
    behind the [translate_conversation] call, and the parts of the
    handler behind the loop, run when the answer is there.  [step] takes
    the answer to be there at once.  The definitions below let the
    handler wait.  The promise of [await decodeAudioData(...)] is
    resolved when it is awaited, so that this handler goes on before
    another event is handled. *)

(** [translateFullConversation] up to its [await], and from the answer
    on. *)
Definition translationAsked (s : State) : State := set_isTranslating true s.

Definition translationAnswered (env : Env) (s : State) : State :=
  let s :=
    match translationReply env with
    | Some translatedText =>
        let parsedTranslations :=
          parseTranslatedConversation translatedText in
        let s :=
          set_transcriptions
            (imap (fun index originalMsg =>
                     match parsedTranslations !! index with
                     | Some p =>
                         if Role_eqb (Translation.role p) (role originalMsg)
                         then with_translation (Translation.translatedText p)
                                               originalMsg
                         else originalMsg
                     | None => originalMsg
                     end)
                  (transcriptions s)) s in
        set_showTranslations true s
    | None =>
        addTranscription env (js "Translation failed. Please try again.")
          ai None None s
    end in
  set_isTranslating false s.

(** A handler that waits for a translation: the call that asked for it,
    the calls of the message behind that call, and the message. *)
Record Waiting := {
  asking : FunctionCall;
  behind : list FunctionCall;
  waiting_message : Message;
}.

(** The component with the handlers that wait.  [handled] is a record
    that the component does not keep: the function calls whose branch of
    the loop has run to its end, in the order in which they did. *)
Record Live := {
  current : State;
  waiting : list Waiting;
  handled : list FunctionCall;
}.

Definition at_rest (s : State) : Live :=
  {| current := s; waiting := []; handled := [] |}.

(** The parts of [onmessage] behind the loop over the function calls. *)
Definition afterToolCalls (env : Env) (message : Message) (s : State)
  : State :=
  let s := onTranscription message s in
  match onAudio env message s with
  | inl s => s
  | inr s => if turnComplete message then onTurnComplete env s else s
  end.

(** The handler of [message] from the function calls [calls] on: the
    loop up to the first [translate_conversation] call, where the
    handler waits, or to its end and through the parts behind it.  The
    names of the tools differ, so that the branch of
    [translate_conversation] is taken exactly when the name is that. *)
Fixpoint callsFrom (env : Env) (message : Message)
    (calls : list FunctionCall) (l : Live) : Live :=
  match calls with
  | [] =>
      {| current := afterToolCalls env message (current l);
         waiting := waiting l;
         handled := handled l |}
  | fc :: rest =>
      if jsstring_eqb (name fc) (js "translate_conversation") then
        {| current := translationAsked (current l);
           waiting := waiting l
                      ++ [ {| asking := fc; behind := rest;
                              waiting_message := message |} ];
           handled := handled l |}
      else
        callsFrom env message rest
          {| current := handleFunctionCall env (current l) fc;
             waiting := waiting l;
             handled := handled l ++ [fc] |}
  end.

(** A message arrives. *)
Definition messageArrives (env : Env) (message : Message) (l : Live)
  : Live :=
  match toolCall message with
  | Some functionCalls => callsFrom env message functionCalls l
  | None => callsFrom env message [] l
  end.

(** The translation that the [k]-th waiting handler asked for is
    answered: [translateFullConversation] runs to its end, the call is
    answered, and the handler goes on. *)
Definition translationArrives (env : Env) (k : nat) (l : Live) : Live :=
  match waiting l !! k with
  | Some w =>
      let s := translationAnswered env (current l) in
      let s := sendToolResponse (asking w) (TextResult (js "translated")) s in
      callsFrom env (waiting_message w) (behind w)
        {| current := s;
           waiting := delete k (waiting l);
           handled := handled l ++ [asking w] |}
  | None => l
  end.

(** The events of the component, and the answers of the translation
    service. *)
Inductive LiveEvent :=
| Occurs (e : Event)
| TranslationAnswered (k : nat).

Definition live_step (l : Live) (ev : Env * LiveEvent) : Live :=
  let env := fst ev in
  match snd ev with
  | Occurs (MessageReceived message) => messageArrives env message l
  | Occurs e =>
      {| current := step (current l) (env, e);
         waiting := waiting l;
         handled := handled l |}
  | TranslationAnswered k => translationArrives env k l
  end.

Definition live_run (l : Live) (evs : list (Env * LiveEvent)) : Live :=
  fold_left live_step evs l.

(** The function calls that have arrived, in order, and those that
    wait: for each waiting handler the call that asked for the
    translation and the calls behind it. *)
Definition live_calls_in (evs : list (Env * LiveEvent))
  : list FunctionCall :=
  List.concat
    (map (fun ev => match snd ev with
                    | Occurs e => calls_in [(fst ev, e)]
                    | TranslationAnswered _ => []
                    end) evs).

Definition calls_waiting (l : Live) : list FunctionCall :=
  List.concat (map (fun w => asking w :: behind w) (waiting l)).

(** The events of [evs] without the answers. *)
Definition occurred (evs : list (Env * LiveEvent)) : list (Env * Event) :=
  List.concat
    (map (fun ev => match snd ev with
                    | Occurs e => [(fst ev, e)]
                    | TranslationAnswered _ => []
                    end) evs).

(** The number of translations that an event asks for, and the events
    of [evs] each followed by the answers to the translations it asks
    for, [n] handlers waiting before. *)
Definition translations (e : Event) : nat :=
  match e with
  | MessageReceived message =>
      match toolCall message with
      | Some functionCalls =>
          List.length
            (List.filter
               (fun fc => jsstring_eqb (name fc)
                            (js "translate_conversation"))
               functionCalls)
      | None => 0
      end
  | _ => 0
  end.

Definition at_once (n : nat) (evs : list (Env * Event))
  : list (Env * LiveEvent) :=
  List.concat
    (map (fun ev => (fst ev, Occurs (snd ev))
                    :: repeat (fst ev, TranslationAnswered n)
                         (translations (snd ev)))
         evs).

(** No message of [evs] asks for a translation. *)
Definition no_translation (evs : list (Env * LiveEvent)) : Prop :=
  Forall (fun ev => translates (snd ev) = false) (occurred evs).

(** Messages of the model and answers of the translation service, as
    events. *)
Definition messageEvents (evs : list (Env * (Message + nat)))
  : list (Env * LiveEvent) :=
  map (fun ev =>
         (fst ev,
          match snd ev with
          | inl message => Occurs (MessageReceived message)
          | inr k => TranslationAnswered k
          end)) evs.

(** The answers that the function calls of a list get: the identifier
    and the name of each call whose name is one of the seven. *)
Definition answers (calls : list FunctionCall)
  : list (jsstring * jsstring) :=
  map (fun fc => (fc_id fc, name fc)) (List.filter recognised calls).

End VoiceInterface.

(** * Properties *)

(** Linear arithmetic with quotients and remainders by constants. *)
Ltac div_lia := cbn beta; zify; Z.to_euclidean_division_equations; lia.

(** ** Loops over an index range *)
Section Loops.
Import AudioUtils.

Lemma for_range_S {S : Type} (n : nat) (body : S -> nat -> S) (init : S) :
  for_range (Datatypes.S n) body init = body (for_range n body init) n.
Proof.
  unfold for_range. rewrite seq_S, fold_left_app. reflexivity.
Qed.

(** Two bodies that agree below the bound give the same loop. *)
Lemma for_range_ext {S : Type} (n : nat) (body body' : S -> nat -> S)
    (init : S) :
  (forall s i, (i < n)%nat -> body s i = body' s i) ->
  for_range n body init = for_range n body' init.
Proof.
  induction n as [|n IH]; intros Hext; [reflexivity|].
  rewrite !for_range_S, IH by (intros; apply Hext; lia).
  apply Hext. lia.
Qed.

Lemma store_loop_length {A : Type} (f : nat -> A) (n : nat)
    (init : list A) :
  List.length (for_range n (fun l i => <[ i := f i ]> l) init)
  = List.length init.
Proof.
  induction n as [|n IH]; [reflexivity|].
  rewrite for_range_S, length_insert. exact IH.
Qed.

(** A loop that stores [f i] at index [i] of a list: what it leaves at
    each index. *)
Lemma store_loop_lookup {A : Type} (f : nat -> A) (n : nat)
    (init : list A) (k : nat) :
  for_range n (fun l i => <[ i := f i ]> l) init !! k
  = if decide ((k < n)%nat /\ (k < List.length init)%nat) then Some (f k)
    else init !! k.
Proof.
  induction n as [|n IH].
  - cbn. case_decide as H; [lia | reflexivity].
  - rewrite for_range_S.
    pose proof (store_loop_length f n init) as Hlen.
    destruct (decide (k = n)) as [->|Hne].
    + clear IH.
      destruct (decide (n < List.length init)%nat) as [Hlt|Hge].
      * rewrite list_lookup_insert_eq by lia.
        rewrite decide_True by lia. reflexivity.
      * rewrite decide_False by lia.
        rewrite (lookup_ge_None_2 init) by lia.
        apply lookup_ge_None_2. rewrite length_insert. lia.
    + rewrite list_lookup_insert_ne by congruence. rewrite IH.
      destruct (decide ((k < n)%nat /\ (k < List.length init)%nat)).
      * rewrite decide_True by lia. reflexivity.
      * rewrite decide_False by lia. reflexivity.
Qed.

(** When the loop runs over the whole list, the list it leaves is the
    list of the stored values. *)
Lemma store_loop_full {A : Type} (f : nat -> A) (init : list A) :
  for_range (List.length init) (fun l i => <[ i := f i ]> l) init
  = map f (seq 0 (List.length init)).
Proof.
  apply list_eq. intros k.
  rewrite store_loop_lookup, list_lookup_fmap.
  case_decide as H.
  - rewrite lookup_seq_lt by lia. reflexivity.
  - rewrite lookup_seq_ge by lia. apply lookup_ge_None_2. lia.
Qed.

(** Reading [l !! i] for each index of [l] is a traversal of [l]. *)
Lemma map_lookup_seq {A B : Type} (g : option A -> B) (l : list A) :
  map (fun i => g (l !! i)) (seq 0 (List.length l))
  = map (fun x => g (Some x)) l.
Proof.
  apply list_eq. intros k. rewrite !list_lookup_fmap.
  destruct (decide (k < List.length l)%nat) as [Hlt|Hge].
  - rewrite lookup_seq_lt by lia. cbn.
    destruct (lookup_lt_is_Some_2 l k Hlt) as [x Hx].
    rewrite Hx. reflexivity.
  - rewrite lookup_seq_ge by lia.
    rewrite lookup_ge_None_2 by lia. reflexivity.
Qed.

Lemma store_loop_whole {A : Type} (f : nat -> A) (n : nat) (init : list A) :
  List.length init = n ->
  for_range n (fun l i => <[ i := f i ]> l) init = map f (seq 0 n).
Proof.
  intros <-. apply store_loop_full.
Qed.

(** A loop that appends [g i] for each index. *)
Lemma append_loop {B : Type} (g : nat -> list B) (n : nat) (acc : list B) :
  for_range n (fun b i => b ++ g i) acc
  = acc ++ List.concat (map g (seq 0 n)).
Proof.
  induction n as [|n IH].
  - cbn. rewrite app_nil_r. reflexivity.
  - rewrite for_range_S, IH, seq_S, map_app, concat_app. cbn.
    rewrite app_nil_r, app_assoc. reflexivity.
Qed.
End Loops.

(** ** Base64 *)
Section Base64Facts.
Import Js Base64.

(** Induction three elements at a time, as the encoder recurses. *)
Lemma triple_ind {A : Type} (P : list A -> Prop) :
  P [] ->
  (forall a, P [a]) ->
  (forall a b, P [a; b]) ->
  (forall a b c l, P l -> P (a :: b :: c :: l)) ->
  forall l, P l.
Proof.
  intros H0 H1 H2 H3.
  assert (H : forall l, P l /\ (forall a, P (a :: l))
                        /\ (forall a b, P (a :: b :: l))).
  { induction l as [|x l (IH0 & IH1 & IH2)].
    - auto.
    - repeat split; auto. }
  intros l. apply H.
Qed.

Lemma encode_units_split (l : list N) :
  encode_units l = map sextet_char (sextets l) ++ padding l.
Proof.
  induction l as [| a | a b | a b c l IH] using triple_ind;
    try reflexivity.
  cbn [encode_units sextets padding map app]. rewrite IH. reflexivity.
Qed.

Lemma sextets_bounded (l : list N) :
  Forall (fun b => b < 256) l -> Forall (fun s => s < 64) (sextets l).
Proof.
  induction l as [| a | a b | a b c l IH] using triple_ind; intros H;
    repeat match type of H with
           | Forall _ (_ :: _) => apply Forall_cons in H as [? H]
           end;
    cbn [sextets];
    repeat (apply Forall_cons_2; [div_lia|]); auto.
Qed.

(** The sixty-four sextets, for checks by enumeration. *)
Lemma sextet_cases (p : N -> bool) :
  forallb p (map N.of_nat (seq 0 64)) = true ->
  forall n, n < 64 -> p n = true.
Proof.
  intros H n Hn. rewrite forallb_forall in H. apply H.
  apply in_map_iff. exists (N.to_nat n). split; [lia|].
  apply in_seq. lia.
Qed.

Lemma char_sextet_char (n : N) :
  n < 64 -> char_sextet (sextet_char n) = Some n.
Proof.
  intros Hn.
  pose proof (sextet_cases
                (fun n => match char_sextet (sextet_char n) with
                          | Some m => m =? n
                          | None => false
                          end) eq_refl n Hn) as H.
  cbn beta in H. destruct (char_sextet (sextet_char n)) as [m|];
    [|discriminate].
  apply N.eqb_eq in H. congruence.
Qed.

Lemma sextet_char_plain (n : N) :
  n < 64 ->
  (sextet_char n =? pad) = false
  /\ is_ascii_whitespace (sextet_char n) = false.
Proof.
  intros Hn.
  pose proof (sextet_cases
                (fun n => negb (sextet_char n =? pad)
                          && negb (is_ascii_whitespace (sextet_char n)))
                eq_refl n Hn) as H.
  cbn beta in H. apply andb_true_iff in H as [H1 H2].
  apply negb_true_iff in H1, H2. auto.
Qed.

Lemma sextets_of_sextet_chars (ss : list N) :
  Forall (fun s => s < 64) ss ->
  sextets_of_chars (map sextet_char ss) = Some ss.
Proof.
  induction 1 as [|s ss Hs _ IH]; [reflexivity|].
  cbn [map sextets_of_chars]. rewrite char_sextet_char, IH by exact Hs.
  reflexivity.
Qed.

Lemma strip_padding_cons (c : N) (r : jsstring) :
  (c =? pad) = false -> strip_padding (c :: r) = c :: strip_padding r.
Proof.
  intros Hc. destruct r as [|d [|e r]]; cbn [strip_padding];
    rewrite ?Hc; reflexivity.
Qed.

Lemma padding_cases (l : list N) :
  padding l = [] \/ padding l = [pad] \/ padding l = [pad; pad].
Proof.
  induction l as [| a | a b | a b c l IH] using triple_ind; cbn; auto.
Qed.

Lemma strip_padding_encode_units (l : list N) :
  Forall (fun b => b < 256) l ->
  strip_padding (encode_units l) = map sextet_char (sextets l).
Proof.
  intros Hl. rewrite encode_units_split.
  pose proof (sextets_bounded l Hl) as Hs.
  induction Hs as [|s ss Hs _ IH].
  - cbn [map app]. destruct (padding_cases l) as [-> | [-> | ->]];
      reflexivity.
  - cbn [map app]. rewrite strip_padding_cons, IH; [reflexivity|].
    apply sextet_char_plain, Hs.
Qed.

Lemma encode_units_no_whitespace (l : list N) :
  Forall (fun b => b < 256) l ->
  List.filter (fun c => negb (is_ascii_whitespace c)) (encode_units l)
  = encode_units l.
Proof.
  intros Hl. rewrite encode_units_split.
  pose proof (sextets_bounded l Hl) as Hs.
  induction Hs as [|s ss Hs _ IH].
  - cbn [map app]. destruct (padding_cases l) as [-> | [-> | ->]];
      reflexivity.
  - cbn [map app List.filter].
    destruct (sextet_char_plain s Hs) as [_ ->]. cbn [negb].
    rewrite IH. reflexivity.
Qed.

Lemma encode_units_length (l : list N) :
  (List.length (encode_units l) mod 4 = 0)%nat.
Proof.
  induction l as [| a | a b | a b c l IH] using triple_ind;
    try reflexivity.
  cbn [encode_units List.length].
  change (S (S (S (S (List.length (encode_units l))))))
    with (4 + List.length (encode_units l))%nat.
  rewrite <- Nat.Div0.add_mod_idemp_l. exact IH.
Qed.

Lemma sextets_length (l : list N) :
  (List.length (sextets l) mod 4 <> 1)%nat.
Proof.
  induction l as [| a | a b | a b c l IH] using triple_ind;
    try (cbn; lia).
  cbn [sextets List.length].
  change (S (S (S (S (List.length (sextets l))))))
    with (4 + List.length (sextets l))%nat.
  rewrite <- Nat.Div0.add_mod_idemp_l. exact IH.
Qed.

Lemma decode_sextets_sextets (l : list N) :
  Forall (fun b => b < 256) l -> decode_sextets (sextets l) = l.
Proof.
  induction l as [| a | a b | a b c l IH] using triple_ind; intros H;
    repeat match type of H with
           | Forall _ (_ :: _) => apply Forall_cons in H as [? H]
           end;
    cbn [sextets decode_sextets].
  - reflexivity.
  - f_equal. div_lia.
  - f_equal; [div_lia|]. f_equal. div_lia.
  - rewrite IH by exact H.
    f_equal; [div_lia|]. f_equal; [div_lia|]. f_equal. div_lia.
Qed.

(** [atob] undoes [btoa] on every binary string. *)
Lemma atob_btoa (binary : jsstring) :
  Forall (fun c => c < 256) binary ->
  btoa binary = inr (encode_units binary)
  /\ atob (encode_units binary) = inr binary.
Proof.
  intros Hb. split.
  - unfold btoa.
    assert (forallb (fun c => c <=? 255) binary = true) as ->;
      [|reflexivity].
    apply forallb_forall. intros c Hc. rewrite Forall_forall in Hb.
    apply list_elem_of_In, Hb in Hc. apply N.leb_le. lia.
  - unfold atob. rewrite encode_units_no_whitespace by exact Hb.
    rewrite encode_units_length. cbn [Nat.eqb].
    rewrite strip_padding_encode_units by exact Hb.
    rewrite length_map.
    destruct (Nat.eqb_spec (List.length (sextets binary) mod 4) 1) as [E|_].
    + exfalso. exact (sextets_length binary E).
    + rewrite sextets_of_sextet_chars by (apply sextets_bounded, Hb).
      rewrite decode_sextets_sextets by exact Hb. reflexivity.
Qed.

End Base64Facts.

(** ** encode and decode *)
Section EncodeDecode.
Import Js Base64 AudioUtils.

Lemma ToUint8_to_N (b : byte) : ToUint8 (Byte.to_N b) = b.
Proof.
  unfold ToUint8. pose proof (Byte.to_N_bounded b) as Hb.
  rewrite N.mod_small by lia. rewrite Byte.of_to_N. reflexivity.
Qed.

(** The binary string that [encode] builds holds the bytes of the
    window. *)
Lemma encode_binary (bytes : Uint8Array) :
  for_range (byteLength bytes)
    (fun binary i => binary ++ fromCharCode (get bytes i)) []
  = map Byte.to_N (elements bytes).
Proof.
  rewrite append_loop. cbn [app]. unfold byteLength, get.
  rewrite (map_lookup_seq fromCharCode). cbn [fromCharCode].
  induction (elements bytes) as [|x l IH]; [reflexivity|].
  cbn. f_equal. exact IH.
Qed.

(** The loop of [decode] updates the window only. *)
Lemma set_loop (f : nat -> byte) (n : nat) (a : Uint8Array) :
  for_range n (fun bytes i => set bytes i (f i)) a
  = {| before := before a;
       elements := for_range n (fun l i => <[ i := f i ]> l) (elements a);
       after := after a |}.
Proof.
  induction n as [|n IH].
  - destruct a. reflexivity.
  - rewrite !for_range_S, IH. reflexivity.
Qed.

Lemma decode_of_binary (base64 binary : jsstring) :
  atob base64 = inr binary ->
  decode base64 = inr (Uint8Array_of_buffer (map ToUint8 binary)).
Proof.
  intros H. unfold decode. rewrite H. f_equal.
  rewrite set_loop. unfold new_Uint8Array, Uint8Array_of_buffer.
  cbn [before elements after]. f_equal.
  rewrite store_loop_whole by apply length_replicate.
  unfold charCodeAt.
  apply (map_lookup_seq (fun o => ToUint8 match o with
                                          | Some c => c
                                          | None => 0
                                          end)).
Qed.

(** [encode] never throws, and [decode] gives back the bytes of the
    window in a fresh array. *)
Lemma decode_encode (bytes : Uint8Array) :
  exists base64,
    encode bytes = inr base64
    /\ decode base64 = inr (Uint8Array_of_buffer (elements bytes)).
Proof.
  assert (Hb : Forall (fun c => c < 256) (map Byte.to_N (elements bytes))).
  { apply Forall_fmap, Forall_forall. intros b _. cbn.
    pose proof (Byte.to_N_bounded b). lia. }
  destruct (atob_btoa _ Hb) as [Henc Hdec].
  exists (encode_units (map Byte.to_N (elements bytes))). split.
  - unfold encode. rewrite encode_binary. exact Henc.
  - rewrite (decode_of_binary _ _ Hdec). f_equal. f_equal.
    rewrite map_map. rewrite <- (map_id (elements bytes)) at 2.
    apply map_ext. intros b. apply ToUint8_to_N.
Qed.

(** C2.  For every byte array [bytes], [encode bytes] returns a string
    (it does not throw) and [decode] of that string returns a byte array
    with the length of [bytes] and the same element at every index. *)
Theorem decode_encode_roundtrip (bytes : Js.Uint8Array) :
  exists (base64 : list N) (bytes' : Js.Uint8Array),
    AudioUtils.encode bytes = inr base64
    /\ AudioUtils.decode base64 = inr bytes'
    /\ Js.byteLength bytes' = Js.byteLength bytes
    /\ Js.elements bytes' = Js.elements bytes
    /\ forall i : nat, Js.get bytes' i = Js.get bytes i.
Proof.
  destruct (decode_encode bytes) as (base64 & Henc & Hdec).
  exists base64, (Uint8Array_of_buffer (elements bytes)).
  repeat split; assumption.
Qed.

Example encode_Man :
  encode (Uint8Array_of_buffer ["M"%byte; "a"%byte; "n"%byte])
  = inr (js "TWFu")
  /\ encode {| before := [x00]; elements := ["M"%byte; "a"%byte];
               after := [xff] |}
     = inr (js "TWE=")
  /\ encode (Uint8Array_of_buffer ["M"%byte]) = inr (js "TQ==").
Proof.
  repeat split.
Qed.

Example decode_forgiving :
  decode (js "TW E") = inr (Uint8Array_of_buffer ["M"%byte; "a"%byte])
  /\ decode (js "TWE=") = inr (Uint8Array_of_buffer ["M"%byte; "a"%byte])
  /\ decode (js "TW=E") = inl InvalidCharacterError
  /\ decode (js "T") = inl InvalidCharacterError.
Proof.
  repeat split.
Qed.

End EncodeDecode.

(** ** createBlob *)
Section CreateBlob.
Import Js AudioUtils.
Local Open Scope Q_scope.

Lemma Qle_bool_false (a b : Q) : Qle_bool a b = false -> b < a.
Proof.
  intros H. apply Qnot_le_lt. intros Hle.
  apply Qle_bool_iff in Hle. congruence.
Qed.

(** Truncation keeps a rational between integer bounds of opposite
    signs. *)
Lemma truncate_bounds (lo hi : Z) (q : Q) :
  (lo <= 0)%Z -> (0 <= hi)%Z ->
  inject_Z lo <= q -> q <= inject_Z hi ->
  (lo <= truncate q <= hi)%Z.
Proof.
  intros Hlo Hhi H1 H2. destruct q as [n d]. unfold truncate.
  unfold Qle in H1, H2. cbn in H1, H2 |- *.
  Z.to_euclidean_division_equations. nia.
Qed.

Lemma ToInt16_small (q : Q) :
  (-32768 <= truncate q <= 32767)%Z -> ToInt16 (Num q) = truncate q.
Proof.
  intros H. unfold ToInt16.
  destruct (Z.leb_spec 32768 (truncate q mod 65536));
    Z.to_euclidean_division_equations; lia.
Qed.

Lemma ToInt16_range (x : number) : (-32768 <= ToInt16 x <= 32767)%Z.
Proof.
  destruct x as [| | |q]; cbn [ToInt16]; try lia.
  pose proof (Z.mod_pos_bound (truncate q) 65536 ltac:(lia)).
  destruct (Z.leb_spec 32768 (truncate q mod 65536)); lia.
Qed.

(** The clamp of a sample that is not NaN is a finite value of the unit
    interval. *)
Lemma clamp_finite (x : number) :
  x <> NaN -> exists s : Q, clamp x = Num s /\ -1 <= s <= 1.
Proof.
  intros Hx. destruct x as [| | |q]; [congruence| | |].
  - exists 1. split; [reflexivity | lra].
  - exists (-1). split; [reflexivity | lra].
  - unfold clamp. cbn [Math_min].
    destruct (Qle_bool 1 q) eqn:E1; cbn [Math_max].
    + exists 1. split; [reflexivity | lra].
    + apply Qle_bool_false in E1.
      destruct (Qle_bool q (-1)) eqn:E2.
      * exists (-1). split; [reflexivity | lra].
      * apply Qle_bool_false in E2. exists q. split; [reflexivity | lra].
Qed.

(** What is stored for a clamped finite sample. *)
Lemma ToInt16_scale (s : Q) :
  -1 <= s <= 1 ->
  (s < 0 -> ToInt16 (scale (Num s)) = truncate (s * 32768))
  /\ (0 <= s -> ToInt16 (scale (Num s)) = truncate (s * 32767)).
Proof.
  intros Hs. unfold scale. cbn [lt_zero mul_const].
  destruct (Qle_bool 0 s) eqn:E; cbn [negb].
  - apply Qle_bool_iff in E. split; [lra|]. intros _.
    apply ToInt16_small.
    apply (truncate_bounds (-32768) 32767);
      try lia; unfold inject_Z; lra.
  - apply Qle_bool_false in E. split; [|lra]. intros _.
    apply ToInt16_small.
    apply (truncate_bounds (-32768) 32767);
      try lia; unfold inject_Z; lra.
Qed.

(** The loop of [createBlob] is a traversal of the samples. *)
Lemma createBlob_int16_map (data : list number) :
  createBlob_int16 data = map (fun x => ToInt16 (scale (clamp x))) data.
Proof.
  unfold createBlob_int16.
  rewrite store_loop_whole by apply length_replicate.
  apply (map_lookup_seq
           (fun o => ToInt16 (scale (clamp match o with
                                           | Some x => x
                                           | None => NaN
                                           end)))).
Qed.

Lemma to_N_ToUint8 (n : N) : Byte.to_N (ToUint8 n) = (n mod 256)%N.
Proof.
  unfold ToUint8. destruct (Byte.of_N (n mod 256)) as [b|] eqn:E.
  - apply Byte.to_of_N. exact E.
  - apply Byte.of_N_None_iff in E.
    pose proof (N.mod_upper_bound n 256 ltac:(lia)). lia.
Qed.

(** The two bytes written for a 16-bit value hold that value. *)
Lemma int16_of_bytes_of_int16 (z : Z) :
  (-32768 <= z <= 32767)%Z ->
  int16s_of_bytes (bytes_of_int16 z) = [z].
Proof.
  intros Hz. unfold bytes_of_int16. cbn [int16s_of_bytes]. f_equal.
  unfold int16_of_bytes. rewrite !to_N_ToUint8.
  destruct (Z.leb_spec 32768
              (Z.of_N (Z.to_N (z mod 256) mod 256)
               + 256 * Z.of_N (Z.to_N ((z / 256) mod 256) mod 256)));
    div_lia.
Qed.

Lemma int16s_of_buffer (l : list Z) :
  Forall (fun z => (-32768 <= z <= 32767)%Z) l ->
  int16s_of_bytes (buffer_of_int16s l) = l.
Proof.
  induction 1 as [|z l Hz _ IH]; [reflexivity|].
  unfold buffer_of_int16s in *. cbn [map List.concat].
  unfold bytes_of_int16 at 1. cbn [app int16s_of_bytes].
  rewrite IH. f_equal.
  pose proof (int16_of_bytes_of_int16 z Hz) as E.
  unfold bytes_of_int16 in E. cbn [int16s_of_bytes] in E. congruence.
Qed.

(** [createBlob] returns a blob, whose string decodes to the bytes of the
    16-bit values. *)
Lemma createBlob_data (samples : list number) :
  exists blob bytes,
    createBlob samples = inr blob
    /\ mimeType blob = js "audio/pcm;rate=16000"
    /\ decode (data blob) = inr bytes
    /\ int16s_of_bytes (elements bytes) = createBlob_int16 samples.
Proof.
  destruct (decode_encode
              (Uint8Array_of_buffer
                 (buffer_of_int16s (createBlob_int16 samples))))
    as (base64 & Henc & Hdec).
  unfold createBlob. rewrite Henc.
  eexists. eexists. split; [reflexivity|]. split; [reflexivity|].
  split; [exact Hdec|].
  cbn [Uint8Array_of_buffer elements]. apply int16s_of_buffer.
  rewrite createBlob_int16_map. apply Forall_fmap, Forall_forall.
  intros x _. apply ToInt16_range.
Qed.

(** C1, as the code has it.  For every [Float32Array] and every sample
    [x] of it, the 16-bit value stored for [x] lies in [-32768, 32767];
    when [x] is not NaN it is clamped to a value [s] of [-1, 1] and the
    stored value is [s * 32768] when [s] is negative and [s * 32767]
    otherwise, truncated toward zero; a NaN sample goes through the clamp
    as NaN and is stored as 0.  [createBlob] returns a blob whose string
    is the base64 text of the bytes of these 16-bit values. *)
Theorem createBlob_samples (samples : list Js.number) (i : nat)
    (x : Js.number) :
  samples !! i = Some x ->
  (exists (blob : AudioUtils.Blob) (bytes : Js.Uint8Array),
     AudioUtils.createBlob samples = inr blob
     /\ AudioUtils.mimeType blob = Js.js "audio/pcm;rate=16000"
     /\ AudioUtils.decode (AudioUtils.data blob) = inr bytes
     /\ Js.int16s_of_bytes (Js.elements bytes)
        = AudioUtils.createBlob_int16 samples)
  /\ exists z : Z,
      AudioUtils.createBlob_int16 samples !! i = Some z
      /\ (-32768 <= z <= 32767)%Z
      /\ (x = Js.NaN -> AudioUtils.clamp x = Js.NaN /\ z = 0%Z)
      /\ (x <> Js.NaN ->
          exists s : Q,
            AudioUtils.clamp x = Js.Num s
            /\ -1 <= s <= 1
            /\ (s < 0 -> z = Js.truncate (s * 32768))
            /\ (0 <= s -> z = Js.truncate (s * 32767))).
Proof.
  intros Hx. split; [apply createBlob_data|].
  exists (ToInt16 (scale (clamp x))). split.
  - rewrite createBlob_int16_map, list_lookup_fmap, Hx. reflexivity.
  - split; [apply ToInt16_range|]. split.
    + intros ->. split; reflexivity.
    + intros Hnan. destruct (clamp_finite x Hnan) as (s & Hs & Hb).
      exists s. rewrite Hs.
      destruct (ToInt16_scale s Hb) as [Hneg Hpos]. auto.
Qed.

Lemma createBlob_samples_witness :
  [Js.Num (-1 # 2); Js.NaN] !! 0%nat = Some (Js.Num (-1 # 2))
  /\ exists z : Z,
      AudioUtils.createBlob_int16 [Js.Num (-1 # 2); Js.NaN] !! 0%nat = Some z
      /\ (-32768 <= z <= 32767)%Z.
Proof.
  split; [reflexivity|].
  destruct (createBlob_samples [Js.Num (-1 # 2); Js.NaN] 0 (Js.Num (-1 # 2))
              eq_refl)
    as (_ & z & Hz & Hrange & _).
  exists z. split; [exact Hz | exact Hrange].
Defined.

(** C1 as stated fails on a NaN sample: the clamp leaves it NaN, which
    is no value of [-1, 1]. *)
Lemma createBlob_NaN_not_clamped :
  [Js.NaN] !! 0%nat = Some Js.NaN
  /\ AudioUtils.clamp Js.NaN = Js.NaN
  /\ ~ (exists s : Q, AudioUtils.clamp Js.NaN = Js.Num s /\ -1 <= s <= 1)
  /\ AudioUtils.createBlob_int16 [Js.NaN] = [0%Z].
Proof.
  repeat split. intros (s & Hs & _). discriminate Hs.
Qed.

Example createBlob_int16_values :
  createBlob_int16
    [Num 1; Num (-1); Num (3 # 10); Num (-5 # 2); PosInf; NegInf;
     Num (-1 # 3); NaN]
  = [32767; -32768; 9830; -32768; 32767; -32768; -10922; 0]%Z.
Proof.
  reflexivity.
Qed.

End CreateBlob.

(** ** decodeAudioData *)
Section DecodeAudioData.
Import Js AudioUtils.

(** Induction two elements at a time, as the bytes are read. *)
Lemma pair_ind {A : Type} (P : list A -> Prop) :
  P [] ->
  (forall a, P [a]) ->
  (forall a b l, P l -> P (a :: b :: l)) ->
  forall l, P l.
Proof.
  intros H0 H1 H2.
  assert (H : forall l, P l /\ forall a, P (a :: l)).
  { induction l as [|x l [IH0 IH1]]; auto. }
  intros l. apply H.
Qed.

Lemma int16_of_bytes_range (lo hi : byte) :
  (-32768 <= int16_of_bytes lo hi <= 32767)%Z.
Proof.
  unfold int16_of_bytes.
  pose proof (Byte.to_N_bounded lo). pose proof (Byte.to_N_bounded hi).
  destruct (Z.leb_spec 32768
              (Z.of_N (Byte.to_N lo) + 256 * Z.of_N (Byte.to_N hi))); lia.
Qed.

Lemma int16s_of_bytes_range (l : list byte) :
  Forall (fun z => (-32768 <= z <= 32767)%Z) (int16s_of_bytes l).
Proof.
  induction l as [| a | a b l IH] using pair_ind; cbn [int16s_of_bytes].
  - constructor.
  - constructor.
  - apply Forall_cons_2; [apply int16_of_bytes_range | exact IH].
Qed.

Lemma int16s_of_bytes_length (l : list byte) :
  List.length (int16s_of_bytes l) = (List.length l / 2)%nat.
Proof.
  induction l as [| a | a b l IH] using pair_ind; try reflexivity.
  cbn [int16s_of_bytes List.length]. rewrite IH.
  change (S (S (List.length l))) with (1 * 2 + List.length l)%nat.
  rewrite Nat.div_add_l by lia. reflexivity.
Qed.

(** On a window that starts at an even offset and holds an even number of
    bytes, the [Int16Array] of [decodeAudioData] reads the bytes of the
    window. *)
Lemma new_Int16Array_window (data : Uint8Array) (m : nat) :
  (byteOffset data mod 2 = 0)%nat ->
  byteLength data = (2 * m)%nat ->
  new_Int16Array (buffer data) (byteOffset data) (byteLength data / 2)
  = inr (int16s_of_bytes (elements data)).
Proof.
  intros Hoff Hlen. unfold new_Int16Array. rewrite Hoff. cbn [Nat.eqb negb].
  assert (E : (2 * (byteLength data / 2) = byteLength data)%nat).
  { rewrite Hlen. replace (2 * m)%nat with (m * 2)%nat by lia.
    rewrite Nat.div_mul by lia. lia. }
  rewrite E. unfold buffer, byteOffset, byteLength.
  rewrite !length_app.
  destruct (Nat.ltb_spec
              (List.length (before data)
               + (List.length (elements data) + List.length (after data)))
              (List.length (before data) + List.length (elements data)));
    [lia|].
  rewrite drop_app_length, take_app_length. reflexivity.
Qed.

(** An odd offset is refused. *)
Lemma new_Int16Array_odd (buf : list byte) (offset len : nat) :
  (offset mod 2 = 1)%nat -> new_Int16Array buf offset len = inl RangeError.
Proof.
  intros H. unfold new_Int16Array. rewrite H. reflexivity.
Qed.

Section Channels.
Variables (dataInt16 : list Z) (numChannels frames : nat) (rate : positive).

(** The outer loop fills the channels one after the other. *)
Lemma fill_channels (m : nat) :
  (m <= numChannels)%nat ->
  for_range m (fill_channel dataInt16 numChannels)
    {| sampleRate := rate;
       channels := replicate numChannels (replicate frames (Num 0)) |}
  = {| sampleRate := rate;
       channels :=
         map (fun c => fill dataInt16 numChannels c
                         (replicate frames (Num 0))) (seq 0 m)
         ++ replicate (numChannels - m) (replicate frames (Num 0)) |}.
Proof.
  induction m as [|m IH]; intros Hm.
  - cbn. rewrite Nat.sub_0_r. reflexivity.
  - rewrite for_range_S, IH by lia. unfold fill_channel at 1.
    cbn [sampleRate channels]. f_equal.
    rewrite lookup_app_r by (rewrite length_map, length_seq; lia).
    rewrite insert_app_r_alt by (rewrite length_map, length_seq; lia).
    rewrite length_map, length_seq, Nat.sub_diag.
    replace (numChannels - m)%nat with (S (numChannels - S m)) by lia.
    cbn [replicate lookup list_lookup insert list_insert].
    rewrite seq_S, map_app, <- app_assoc. reflexivity.
Qed.

Hypothesis Hlen : List.length dataInt16 = (frames * numChannels)%nat.
Hypothesis Hch : (0 < numChannels)%nat.

Lemma iterations_frames :
  iterations (List.length dataInt16) numChannels = frames.
Proof.
  unfold iterations. rewrite Hlen.
  replace (frames * numChannels + numChannels - 1)%nat
    with (frames * numChannels + (numChannels - 1))%nat by lia.
  rewrite Nat.div_add_l by lia. rewrite Nat.div_small by lia. lia.
Qed.

Lemma fill_length (channel : nat) :
  List.length (fill dataInt16 numChannels channel (replicate frames (Num 0)))
  = frames.
Proof.
  unfold fill. rewrite store_loop_length. apply length_replicate.
Qed.

Lemma fill_lookup (channel i : nat) :
  (i < frames)%nat ->
  fill dataInt16 numChannels channel (replicate frames (Num 0)) !! i
  = Some (int16_sample dataInt16 (i * numChannels + channel)).
Proof.
  intros Hi. unfold fill. rewrite store_loop_lookup, iterations_frames.
  rewrite length_replicate.
  rewrite decide_True by lia. reflexivity.
Qed.

End Channels.

Lemma int16_sample_range (z : Z) :
  (-32768 <= z <= 32767)%Z ->
  (-1 <= inject_Z z / 32768 /\ inject_Z z / 32768 < 1)%Q.
Proof.
  intros Hz. unfold Qdiv, Qle, Qlt. cbn. lia.
Qed.

Lemma duration_nonneg (b : AudioBuffer) : (0 <= duration b)%Q.
Proof.
  unfold duration, Qdiv, Qle. cbn. lia.
Qed.

(** C8, as the code has it.  For every byte array that starts at an even
    offset of its buffer and whose byte length is a positive multiple of
    [2 * numChannels], and for a channel count and a sample rate in the
    ranges of the audio context, [decodeAudioData] produces an
    [AudioBuffer] of [numChannels] channels with
    [byteLength / (2 * numChannels)] frames each, where the sample at
    frame [i] of channel [c] is the interleaved 16-bit integer at index
    [i * numChannels + c] divided by 32768, a value of [-1, 1). *)
Theorem decodeAudioData_frames (data : Js.Uint8Array)
    (ctx : Js.AudioContext) (rate : positive) (numChannels frames : nat) :
  (Js.byteOffset data mod 2 = 0)%nat ->
  (numChannels <= Js.maxChannelCount ctx)%nat ->
  (Js.minSampleRate ctx <= rate)%positive ->
  (rate <= Js.maxSampleRate ctx)%positive ->
  (0 < Js.byteLength data)%nat ->
  Js.byteLength data = (frames * (2 * numChannels))%nat ->
  exists buffer : Js.AudioBuffer,
    AudioUtils.decodeAudioData data ctx rate numChannels = inr buffer
    /\ Js.sampleRate buffer = rate
    /\ Js.numberOfChannels buffer = numChannels
    /\ Js.length buffer = frames
    /\ forall c i : nat,
        (c < numChannels)%nat -> (i < frames)%nat ->
        exists (channelData : list Js.number) (z : Z),
          Js.channels buffer !! c = Some channelData
          /\ List.length channelData = frames
          /\ Js.int16s_of_bytes (Js.elements data) !! (i * numChannels + c)%nat
             = Some z
          /\ channelData !! i = Some (Js.Num (inject_Z z / 32768))
          /\ (-1 <= inject_Z z / 32768)%Q
          /\ (inject_Z z / 32768 < 1)%Q.
Proof.
  intros Hoff Hmax Hlo Hhi Hpos Hlen.
  assert (Hch : (0 < numChannels)%nat) by nia.
  assert (Hfr : (0 < frames)%nat) by nia.
  set (dataInt16 := int16s_of_bytes (elements data)).
  assert (Hn : List.length dataInt16 = (frames * numChannels)%nat).
  { unfold dataInt16. rewrite int16s_of_bytes_length.
    fold (byteLength data). rewrite Hlen.
    replace (frames * (2 * numChannels))%nat
      with (frames * numChannels * 2)%nat by lia.
    apply Nat.div_mul. lia. }
  unfold decodeAudioData.
  rewrite (new_Int16Array_window data (frames * numChannels)) by lia.
  fold dataInt16. rewrite Hn, Nat.div_mul by lia.
  unfold createBuffer.
  destruct (Nat.eqb_spec numChannels 0) as [?|_]; [lia|].
  destruct (Nat.ltb_spec (maxChannelCount ctx) numChannels) as [?|_]; [lia|].
  destruct (Nat.eqb_spec frames 0) as [?|_]; [lia|].
  destruct (Pos.ltb_spec rate (minSampleRate ctx)) as [?|_]; [lia|].
  destruct (Pos.ltb_spec (maxSampleRate ctx) rate) as [?|_]; [lia|].
  cbn [orb].
  rewrite (fill_channels dataInt16 numChannels frames rate numChannels)
    by lia.
  rewrite Nat.sub_diag. cbn [replicate]. rewrite app_nil_r.
  eexists. split; [reflexivity|]. split; [reflexivity|].
  unfold numberOfChannels, Js.length. cbn [channels].
  split; [rewrite length_map, length_seq; reflexivity|]. split.
  { destruct numChannels as [|n]; [lia|]. cbn [seq map].
    apply fill_length. }
  intros c i Hc Hi.
  assert (Hidx : (i * numChannels + c < List.length dataInt16)%nat) by nia.
  destruct (lookup_lt_is_Some_2 _ _ Hidx) as [z Hz].
  exists (fill dataInt16 numChannels c (replicate frames (Num 0))), z.
  split.
  { rewrite list_lookup_fmap, lookup_seq_lt by lia. reflexivity. }
  split; [apply fill_length|]. split; [exact Hz|].
  split.
  { rewrite (fill_lookup dataInt16 numChannels frames Hn Hch) by lia.
    unfold int16_sample. rewrite Hz. reflexivity. }
  apply int16_sample_range.
  pose proof (int16s_of_bytes_range (elements data)) as Hr.
  rewrite Forall_lookup in Hr. exact (Hr _ _ Hz).
Qed.

Lemma decodeAudioData_frames_witness :
  (0 mod 2 = 0)%nat
  /\ (2 <= Js.maxChannelCount Js.minimal_context)%nat
  /\ exists buffer : Js.AudioBuffer,
      AudioUtils.decodeAudioData
        (Js.Uint8Array_of_buffer [x00; x80; xff; x7f; x01; x00; xff; xff])
        Js.minimal_context 24000 2 = inr buffer
      /\ Js.length buffer = 2%nat.
Proof.
  split; [reflexivity|]. split; [cbn; lia|].
  destruct (decodeAudioData_frames
              (Js.Uint8Array_of_buffer
                 [x00; x80; xff; x7f; x01; x00; xff; xff])
              Js.minimal_context 24000 2 2
              eq_refl ltac:(cbn; lia) ltac:(cbn; lia) ltac:(cbn; lia)
              ltac:(cbn; lia) eq_refl)
    as (buffer & Hb & _ & _ & Hl & _).
  exists buffer. split; [exact Hb | exact Hl].
Defined.

(** C8 as stated fails on a byte array that starts at an odd offset of
    its buffer (the [Int16Array] constructor throws a RangeError), and on
    a channel count or a sample rate outside the ranges of the context
    ([createBuffer] throws a NotSupportedError); the byte length is a
    positive multiple of [2 * numChannels] each time. *)
Lemma decodeAudioData_throws :
  let odd := {| Js.before := [x00]; Js.elements := [x01; x00];
                Js.after := [x00] |} in
  let wide := Js.Uint8Array_of_buffer (replicate 66 x00) in
  let plain := Js.Uint8Array_of_buffer [x01; x00] in
  (Js.byteLength odd = (1 * (2 * 1))%nat
   /\ AudioUtils.decodeAudioData odd Js.minimal_context 24000 1
      = inl Js.RangeError)
  /\ (Js.byteLength wide = (1 * (2 * 33))%nat
      /\ AudioUtils.decodeAudioData wide Js.minimal_context 24000 33
         = inl Js.NotSupportedError)
  /\ (Js.byteLength plain = (1 * (2 * 1))%nat
      /\ AudioUtils.decodeAudioData plain Js.minimal_context 1000 1
         = inl Js.NotSupportedError)
  /\ ~ (exists buffer : Js.AudioBuffer,
          AudioUtils.decodeAudioData odd Js.minimal_context 24000 1
          = inr buffer).
Proof.
  cbn zeta. repeat split. intros (buffer & H). discriminate H.
Qed.

Example decodeAudioData_stereo :
  decodeAudioData
    (Uint8Array_of_buffer [x00; x80; xff; x7f; x01; x00; xff; xff])
    minimal_context 24000 2
  = inr {| sampleRate := 24000;
           channels := [ [Num (inject_Z (-32768) / 32768);
                          Num (inject_Z 1 / 32768)];
                         [Num (inject_Z 32767 / 32768);
                          Num (inject_Z (-1) / 32768)] ] |}.
Proof.
  reflexivity.
Qed.

End DecodeAudioData.

(** ** parseTranslatedConversation *)
Section ParseTranslated.
Import Js Translation.

Lemma join_block_absorb (head c : jsstring) (conts : list jsstring) :
  join_block (head ++ js " " ++ trim c) conts
  = join_block head (c :: conts).
Proof.
  destruct conts as [|c' conts]; cbn [join_block].
  - reflexivity.
  - rewrite <- !app_assoc. reflexivity.
Qed.

Lemma truthy_join_block (head : jsstring) (conts : list jsstring) :
  truthy head = true -> truthy (join_block head conts) = true.
Proof.
  destruct head as [|c head]; [discriminate|]. intros _.
  destruct conts; reflexivity.
Qed.

Lemma truthy_app (a b : jsstring) :
  truthy a = true -> truthy (a ++ b) = true.
Proof.
  destruct a; [discriminate | reflexivity].
Qed.

Lemma close_nil (st : Loop) : close st [] = flush st.
Proof.
  unfold close. destruct st as [p r t]. cbn.
  destruct (truthy t); reflexivity.
Qed.

(** The two tests of the loop body are the test of [prefixed]. *)
Lemma loop_body_prefixed (st : Loop) (line : jsstring) (r : Role)
    (head : jsstring) :
  prefixed line = Some (r, head) ->
  loop_body st line
  = {| parsedTranslations := flush st; currentRole := Some r;
       currentText := head |}.
Proof.
  unfold prefixed, loop_body.
  destruct (startsWith line (js "User: ")).
  - intros [= <- <-]. reflexivity.
  - destruct (startsWith line (js "AI: ")); [|discriminate].
    intros [= <- <-]. reflexivity.
Qed.

Lemma loop_body_plain (st : Loop) (line : jsstring) :
  prefixed line = None ->
  loop_body st line
  = if truthy (currentText st)
    then {| parsedTranslations := parsedTranslations st;
            currentRole := currentRole st;
            currentText := currentText st ++ js " " ++ trim line |}
    else st.
Proof.
  unfold prefixed, loop_body.
  destruct (startsWith line (js "User: ")); [discriminate|].
  destruct (startsWith line (js "AI: ")); [discriminate|]. reflexivity.
Qed.

(** The loop, started in any state on any lines, gives the entries of the
    state closed by the leading lines without prefix, then the entries of
    the blocks. *)
Lemma loop_blocks (lines : list jsstring) (st : Loop) :
  flush (fold_left loop_body lines st)
  = close st (fst (fold_right (block_step entry_guarded) ([], []) lines))
    ++ snd (fold_right (block_step entry_guarded) ([], []) lines).
Proof.
  revert st. induction lines as [|line lines IH]; intros st.
  - cbn. rewrite close_nil, app_nil_r. reflexivity.
  - cbn [fold_left fold_right]. rewrite IH.
    set (rest := fold_right (block_step entry_guarded) ([], []) lines).
    unfold block_step.
    destruct (prefixed line) as [[r head]|] eqn:E.
    + rewrite (loop_body_prefixed st line r head E).
      cbn [fst snd]. rewrite close_nil, app_assoc. f_equal.
      unfold close, entry_guarded, entry_as_claimed.
      cbn [currentText currentRole parsedTranslations].
      destruct (truthy head) eqn:Eh.
      * unfold flush at 1.
        cbn [currentText currentRole parsedTranslations].
        rewrite truthy_join_block by exact Eh. reflexivity.
      * unfold flush at 1.
        cbn [currentText currentRole parsedTranslations].
        rewrite Eh, app_nil_r. reflexivity.
    + rewrite (loop_body_plain st line E). cbn [fst snd]. f_equal.
      unfold close. destruct (truthy (currentText st)) eqn:Et.
      * cbn [currentText currentRole parsedTranslations].
        rewrite truthy_app by exact Et.
        rewrite join_block_absorb. reflexivity.
      * rewrite Et. reflexivity.
Qed.

(** C10, as the code has it.  For every input string,
    [parseTranslatedConversation] returns the entries of the blocks of
    lines in the order of their prefixed lines: the role of an entry is
    that of the prefix that opens its block, its text is the text after
    the prefix followed by the trimmed lines without prefix of the block,
    separated by single spaces, the whole trimmed; lines before the first
    prefixed line are discarded; and a block whose prefixed line has
    nothing after the prefix gives no entry and loses its lines. *)
Theorem parseTranslatedConversation_blocks (translatedText : list N) :
  Translation.parseTranslatedConversation translatedText
  = Translation.parse_blocks Translation.entry_guarded translatedText.
Proof.
  unfold parseTranslatedConversation, parse_blocks. rewrite loop_blocks.
  reflexivity.
Qed.

(** C10 as stated fails after a prefixed line with nothing behind the
    prefix: the line that follows it is dropped instead of being appended
    to the entry that the prefix opened. *)
Lemma parseTranslatedConversation_empty_head :
  let input := Js.js "User: " ++ [10] ++ Js.js "hello" in
  Translation.parseTranslatedConversation input = []
  /\ Translation.parse_blocks Translation.entry_as_claimed input
     = [ {| Translation.role := Translation.user;
            Translation.translatedText := Js.js "hello" |} ]
  /\ Translation.parseTranslatedConversation input
     <> Translation.parse_blocks Translation.entry_as_claimed input.
Proof.
  cbn zeta. split; [reflexivity|]. split; [reflexivity|].
  vm_compute. discriminate.
Qed.

Example parse_two_entries :
  parseTranslatedConversation
    (js "Here you go:" ++ [10] ++ js "User: hello" ++ [10]
     ++ js "  world  " ++ [10] ++ js "AI: hi ")
  = [ {| role := user; translatedText := js "hello world" |};
      {| role := ai; translatedText := js "hi" |} ].
Proof.
  reflexivity.
Qed.

End ParseTranslated.

(** ** More on encode and decode *)
Section EncodeDecodeMore.
Import Js Base64 AudioUtils.

Lemma bytes_bounded (l : list byte) :
  Forall (fun c => c < 256) (map Byte.to_N l).
Proof.
  apply Forall_fmap, Forall_forall. intros b _. cbn.
  pose proof (Byte.to_N_bounded b). lia.
Qed.

(** [encode] in closed form: the base64 text of the bytes of the
    window. *)
Lemma encode_closed (bytes : Uint8Array) :
  encode bytes = inr (encode_units (map Byte.to_N (elements bytes))).
Proof.
  unfold encode. rewrite encode_binary.
  apply (atob_btoa _ (bytes_bounded (elements bytes))).
Qed.

Lemma encode_units_count (l : list N) :
  List.length (encode_units l) = (4 * ((List.length l + 2) / 3))%nat.
Proof.
  induction l as [| a | a b | a b c l IH] using triple_ind;
    try reflexivity.
  cbn [encode_units List.length]. rewrite IH.
  replace (S (S (S (List.length l))) + 2)%nat
    with (1 * 3 + (List.length l + 2))%nat by lia.
  rewrite Nat.div_add_l by lia. lia.
Qed.

Lemma sextet_char_alphabet (n : N) : n < 64 -> In (sextet_char n) alphabet.
Proof.
  intros Hn. unfold sextet_char. apply nth_In.
  assert (E : List.length alphabet = 64%nat) by reflexivity.
  rewrite E. lia.
Qed.

Lemma encode_units_alphabet (l : list N) :
  Forall (fun b => b < 256) l ->
  Forall (fun c => In c alphabet \/ c = pad) (encode_units l).
Proof.
  intros Hl. rewrite encode_units_split. apply Forall_app. split.
  - apply Forall_fmap. eapply Forall_impl; [apply sextets_bounded, Hl|].
    intros s Hs. left. apply sextet_char_alphabet, Hs.
  - destruct (padding_cases l) as [-> | [-> | ->]];
      repeat (apply Forall_cons_2; [right; reflexivity|]);
      apply Forall_nil_2.
Qed.

(** X1.  The text of [encode] has four characters for each group of three
    bytes, the last group counted whole, and each of its characters is
    one of the sixty-four of the alphabet or the padding [=]. *)
Theorem encode_shape (bytes : Js.Uint8Array) :
  exists base64 : list N,
    AudioUtils.encode bytes = inr base64
    /\ List.length base64 = (4 * ((Js.byteLength bytes + 2) / 3))%nat
    /\ Forall (fun c => In c Base64.alphabet \/ c = Base64.pad) base64.
Proof.
  eexists. split; [apply encode_closed|]. split.
  - rewrite encode_units_count, length_map. reflexivity.
  - apply encode_units_alphabet, bytes_bounded.
Qed.

(** X2.  Two byte arrays have the same text exactly when their windows hold
    the same bytes: [encode] looks at nothing else of the buffer, and
    loses nothing of the window. *)
Theorem encode_injective (a b : Js.Uint8Array) :
  AudioUtils.encode a = AudioUtils.encode b
  <-> Js.elements a = Js.elements b.
Proof.
  split.
  - intros H.
    destruct (decode_encode a) as (ta & Ha & Da).
    destruct (decode_encode b) as (tb & Hb & Db).
    rewrite Ha, Hb in H. injection H as ->.
    rewrite Da in Db. injection Db as E. exact E.
  - intros H. rewrite !encode_closed, H. reflexivity.
Qed.

Lemma encode_injective_witness :
  Js.elements {| Js.before := [x00]; Js.elements := ["M"%byte];
                 Js.after := [xff] |}
  = Js.elements (Js.Uint8Array_of_buffer ["M"%byte]).
Proof.
  apply (proj1 (encode_injective
                  {| Js.before := [x00]; Js.elements := ["M"%byte];
                     Js.after := [xff] |}
                  (Js.Uint8Array_of_buffer ["M"%byte]))).
  reflexivity.
Defined.

Lemma filter_idemp {A : Type} (p : A -> bool) (l : list A) :
  List.filter p (List.filter p l) = List.filter p l.
Proof.
  induction l as [|x l IH]; [reflexivity|].
  cbn [List.filter]. destruct (p x) eqn:E; [|exact IH].
  cbn [List.filter]. rewrite E, IH. reflexivity.
Qed.

(** [atob] reads its argument without the ASCII whitespace. *)
Lemma atob_filter (text : jsstring) :
  atob (List.filter (fun c => negb (is_ascii_whitespace c)) text)
  = atob text.
Proof.
  unfold atob. rewrite filter_idemp. reflexivity.
Qed.

Lemma strip_padding_plain (s : jsstring) :
  Forall (fun c => (c =? pad) = false) s -> strip_padding s = s.
Proof.
  induction 1 as [|c s Hc _ IH]; [reflexivity|].
  rewrite strip_padding_cons, IH by exact Hc. reflexivity.
Qed.

Lemma filter_plain (s : jsstring) :
  Forall (fun c => is_ascii_whitespace c = false) s ->
  List.filter (fun c => negb (is_ascii_whitespace c)) s = s.
Proof.
  induction 1 as [|c s Hc _ IH]; [reflexivity|].
  cbn [List.filter]. rewrite Hc. cbn [negb]. rewrite IH. reflexivity.
Qed.

(** The text of the sextets alone, without the padding, decodes to the
    bytes as well. *)
Lemma atob_sextets (l : list N) :
  Forall (fun b => b < 256) l -> atob (map sextet_char (sextets l)) = inr l.
Proof.
  intros Hl. pose proof (sextets_bounded l Hl) as Hs. unfold atob.
  rewrite filter_plain.
  2:{ apply Forall_fmap. eapply Forall_impl; [exact Hs|].
      intros s H. apply (sextet_char_plain s H). }
  assert (E : (if (List.length (map sextet_char (sextets l)) mod 4 =? 0)%nat
               then strip_padding (map sextet_char (sextets l))
               else map sextet_char (sextets l))
              = map sextet_char (sextets l)).
  { destruct (_ =? _)%nat; [|reflexivity]. apply strip_padding_plain.
    apply Forall_fmap. eapply Forall_impl; [exact Hs|].
    intros s H. apply (sextet_char_plain s H). }
  rewrite E, length_map.
  destruct (Nat.eqb_spec (List.length (sextets l) mod 4) 1) as [E1|_].
  - exfalso. exact (sextets_length l E1).
  - rewrite sextets_of_sextet_chars by exact Hs.
    rewrite decode_sextets_sextets by exact Hl. reflexivity.
Qed.

(** X3.  [decode] is forgiving: a text whose characters other than ASCII
    whitespace spell what [encode] gave for a byte array, with or
    without the padding at its end, decodes to the bytes of that
    array. *)
Theorem decode_forgiving_text (bytes : Js.Uint8Array)
    (base64 text : list N) :
  AudioUtils.encode bytes = inr base64 ->
  (List.filter (fun c => negb (Base64.is_ascii_whitespace c)) text = base64
   \/ List.filter (fun c => negb (Base64.is_ascii_whitespace c)) text
      = Base64.strip_padding base64) ->
  AudioUtils.decode text
  = inr (Js.Uint8Array_of_buffer (Js.elements bytes)).
Proof.
  intros Henc Htext. rewrite encode_closed in Henc. injection Henc as <-.
  pose proof (bytes_bounded (elements bytes)) as Hb.
  assert (Hatob : atob text = inr (map Byte.to_N (elements bytes))).
  { rewrite <- atob_filter. destruct Htext as [-> | ->].
    - apply (atob_btoa _ Hb).
    - rewrite strip_padding_encode_units by exact Hb.
      apply atob_sextets, Hb. }
  rewrite (decode_of_binary _ _ Hatob). f_equal. f_equal.
  rewrite map_map. rewrite <- (map_id (elements bytes)) at 2.
  apply map_ext. intros b. apply ToUint8_to_N.
Qed.

Lemma decode_forgiving_text_witness :
  AudioUtils.decode (Js.js " TW E ")
  = inr (Js.Uint8Array_of_buffer ["M"%byte; "a"%byte]).
Proof.
  apply (decode_forgiving_text
           (Js.Uint8Array_of_buffer ["M"%byte; "a"%byte])
           (Js.js "TWE=") (Js.js " TW E ")).
  - reflexivity.
  - right. reflexivity.
Defined.

Lemma index_of_None (c : N) (l : jsstring) :
  ~ In c l -> index_of c l = None.
Proof.
  induction l as [|x l IH]; intros Hc; [reflexivity|].
  cbn [index_of]. destruct (N.eqb_spec c x) as [->|_].
  - exfalso. apply Hc. left. reflexivity.
  - rewrite IH; [reflexivity|]. intros H. apply Hc. right. exact H.
Qed.

Lemma sextets_of_chars_None (c : N) (s : jsstring) :
  In c s -> char_sextet c = None -> sextets_of_chars s = None.
Proof.
  intros Hin Hc. induction s as [|x s IH]; [destruct Hin|].
  cbn [sextets_of_chars]. destruct Hin as [->|Hin].
  - rewrite Hc. reflexivity.
  - rewrite (IH Hin). destruct (char_sextet x); reflexivity.
Qed.

Lemma strip_padding_keeps (c : N) (s : jsstring) :
  c <> pad -> In c s -> In c (strip_padding s).
Proof.
  intros Hc. induction s as [|x s IH]; intros Hin; [destruct Hin|].
  destruct s as [|d [|e s]].
  - destruct Hin as [->|[]]. cbn [strip_padding].
    destruct (N.eqb_spec c pad); [contradiction | left; reflexivity].
  - cbn [strip_padding] in *.
    destruct Hin as [->|Hin].
    + destruct (N.eqb_spec c pad); [contradiction|].
      cbn [andb]. left. reflexivity.
    + destruct ((x =? pad) && (d =? pad)) eqn:E.
      * apply andb_true_iff in E as [_ E]. apply N.eqb_eq in E.
        destruct Hin as [->|[]]. contradiction.
      * right. apply IH, Hin.
  - change (strip_padding (x :: d :: e :: s))
      with (x :: strip_padding (d :: e :: s)).
    destruct Hin as [->|Hin]; [left; reflexivity | right; apply IH, Hin].
Qed.

(** X4.  [decode] throws an InvalidCharacterError on every text that holds a
    character which is neither one of the alphabet, nor the padding
    [=], nor ASCII whitespace. *)
Theorem decode_rejects_foreign (text : list N) (c : N) :
  In c text ->
  ~ In c Base64.alphabet ->
  c <> Base64.pad ->
  Base64.is_ascii_whitespace c = false ->
  AudioUtils.decode text = inl Js.InvalidCharacterError.
Proof.
  intros Hin Halpha Hpad Hws. unfold decode.
  assert (E : atob text = inl InvalidCharacterError); [|rewrite E; reflexivity].
  unfold atob.
  set (d := List.filter (fun c => negb (is_ascii_whitespace c)) text).
  assert (Hd : In c d).
  { apply filter_In. split; [exact Hin|]. rewrite Hws. reflexivity. }
  set (d' := if (List.length d mod 4 =? 0)%nat then strip_padding d else d).
  assert (Hd' : In c d').
  { unfold d'. destruct (_ =? _)%nat; [|exact Hd].
    apply strip_padding_keeps; assumption. }
  destruct (_ =? 1)%nat; [reflexivity|].
  rewrite (sextets_of_chars_None c d' Hd'); [reflexivity|].
  apply index_of_None, Halpha.
Qed.

Lemma decode_rejects_foreign_witness :
  AudioUtils.decode (Js.js "TW-u") = inl Js.InvalidCharacterError.
Proof.
  apply (decode_rejects_foreign (Js.js "TW-u") 45).
  - vm_compute. tauto.
  - vm_compute. intros H. repeat (destruct H as [H|H]; [discriminate H|]).
    exact H.
  - discriminate.
  - reflexivity.
Defined.

(** Induction four elements at a time, as the decoder recurses. *)
Lemma quad_ind {A : Type} (P : list A -> Prop) :
  P [] ->
  (forall a, P [a]) ->
  (forall a b, P [a; b]) ->
  (forall a b c, P [a; b; c]) ->
  (forall a b c d l, P l -> P (a :: b :: c :: d :: l)) ->
  forall l, P l.
Proof.
  intros H0 H1 H2 H3 H4.
  assert (H : forall l, P l /\ (forall a, P (a :: l))
                        /\ (forall a b, P (a :: b :: l))
                        /\ (forall a b c, P (a :: b :: c :: l))).
  { induction l as [|x l (IH0 & IH1 & IH2 & IH3)].
    - auto.
    - repeat split; auto. }
  intros l. apply H.
Qed.

Lemma decode_sextets_count (ss : list N) :
  (4 * List.length (decode_sextets ss) <= 3 * List.length ss)%nat.
Proof.
  induction ss as [| a | a b | a b c | a b c d l IH] using quad_ind;
    cbn [decode_sextets List.length]; lia.
Qed.

Lemma sextets_of_chars_length (s : jsstring) (ss : list N) :
  sextets_of_chars s = Some ss -> List.length ss = List.length s.
Proof.
  revert ss. induction s as [|c s IH]; intros ss H.
  - injection H as <-. reflexivity.
  - cbn [sextets_of_chars] in H.
    destruct (char_sextet c); [|discriminate].
    destruct (sextets_of_chars s) as [ns|]; [|discriminate].
    injection H as <-. cbn [List.length]. rewrite (IH ns eq_refl).
    reflexivity.
Qed.

Lemma strip_padding_length (s : jsstring) :
  (List.length (strip_padding s) <= List.length s)%nat.
Proof.
  induction s as [|c s IH]; [reflexivity|].
  destruct s as [|d [|e s]].
  - cbn [strip_padding]. destruct (c =? pad); cbn; lia.
  - cbn [strip_padding] in *.
    destruct ((c =? pad) && (d =? pad)); cbn [List.length] in *; lia.
  - change (strip_padding (c :: d :: e :: s))
      with (c :: strip_padding (d :: e :: s)).
    cbn [List.length] in *. lia.
Qed.

(** X5.  Whenever [decode] returns, the bytes it returns are at most three
    for four characters of the text. *)
Theorem decode_length_bound (text : list N) (bytes : Js.Uint8Array) :
  AudioUtils.decode text = inr bytes ->
  (4 * Js.byteLength bytes <= 3 * List.length text)%nat.
Proof.
  intros H. destruct (atob text) as [e|binary] eqn:Hatob.
  { unfold decode in H. rewrite Hatob in H. discriminate H. }
  rewrite (decode_of_binary _ _ Hatob) in H. injection H as <-.
  unfold byteLength, Uint8Array_of_buffer. cbn [elements].
  rewrite length_map. unfold atob in Hatob.
  set (d := List.filter (fun c => negb (is_ascii_whitespace c)) text) in *.
  assert (Hd : (List.length d <= List.length text)%nat)
    by apply filter_length_le.
  set (d' := if (List.length d mod 4 =? 0)%nat then strip_padding d else d)
    in *.
  assert (Hd' : (List.length d' <= List.length d)%nat).
  { unfold d'. destruct (_ =? _)%nat; [apply strip_padding_length | lia]. }
  destruct (_ =? 1)%nat; [discriminate|].
  destruct (sextets_of_chars d') as [ss|] eqn:Hss; [|discriminate].
  injection Hatob as <-.
  pose proof (decode_sextets_count ss).
  pose proof (sextets_of_chars_length _ _ Hss). lia.
Qed.

Lemma decode_length_bound_witness :
  (4 * Js.byteLength (Js.Uint8Array_of_buffer ["M"%byte; "a"%byte])
   <= 3 * List.length (Js.js "TW E"))%nat.
Proof.
  apply (decode_length_bound (Js.js "TW E")
           (Js.Uint8Array_of_buffer ["M"%byte; "a"%byte])).
  reflexivity.
Defined.

End EncodeDecodeMore.

(** ** More on createBlob and decodeAudioData *)
Section PcmMore.
Import Js AudioUtils.
Local Open Scope Q_scope.

Lemma createBlob_int16_quantise (samples : list number) :
  createBlob_int16 samples = map quantise samples.
Proof.
  apply createBlob_int16_map.
Qed.

Lemma div_frac_mono (a b c d : Z) :
  (0 < b)%Z -> (0 < d)%Z -> (a * d <= c * b)%Z -> (a / b <= c / d)%Z.
Proof.
  intros Hb Hd H. apply Z.div_le_lower_bound; [exact Hd|].
  pose proof (Z.mul_div_le a b Hb) as H1.
  apply (Z.mul_le_mono_pos_l _ _ b Hb).
  assert (b * (d * (a / b)) = d * (b * (a / b)))%Z as -> by ring.
  assert (d * (b * (a / b)) <= d * a)%Z
    by (apply Z.mul_le_mono_nonneg_l; lia).
  lia.
Qed.

Lemma truncate_nonneg (q : Q) :
  (0 <= Qnum q)%Z -> truncate q = (Qnum q / Zpos (Qden q))%Z.
Proof.
  intros H. unfold truncate. apply Z.quot_div_nonneg; lia.
Qed.

Lemma truncate_neg (q : Q) :
  (Qnum q <= 0)%Z -> truncate q = (- (- Qnum q / Zpos (Qden q)))%Z.
Proof.
  intros H. unfold truncate.
  rewrite <- (Z.opp_involutive (Qnum q)) at 1.
  rewrite Z.quot_opp_l by lia. f_equal. apply Z.quot_div_nonneg; lia.
Qed.

(** Truncation toward zero is monotone. *)
Lemma truncate_mono (q r : Q) : q <= r -> (truncate q <= truncate r)%Z.
Proof.
  intros H. unfold Qle in H.
  destruct (Z.le_gt_cases 0 (Qnum q)) as [Hq|Hq],
           (Z.le_gt_cases 0 (Qnum r)) as [Hr|Hr].
  - rewrite !truncate_nonneg by assumption.
    apply div_frac_mono; lia.
  - exfalso. nia.
  - rewrite truncate_neg, truncate_nonneg by lia.
    pose proof (Z.div_pos (- Qnum q) (Zpos (Qden q)) ltac:(lia) ltac:(lia)).
    pose proof (Z.div_pos (Qnum r) (Zpos (Qden r)) Hr ltac:(lia)). lia.
  - rewrite !truncate_neg by lia.
    apply Z.opp_le_mono. rewrite !Z.opp_involutive.
    apply div_frac_mono; lia.
Qed.

(** The clamp is monotone on finite samples and gives finite values. *)
Lemma clamp_mono (x y : Q) :
  x <= y ->
  exists s t : Q,
    clamp (Num x) = Num s /\ clamp (Num y) = Num t
    /\ -1 <= s <= 1 /\ -1 <= t <= 1 /\ s <= t.
Proof.
  intros H. unfold clamp. cbn [Math_min].
  destruct (Qle_bool 1 x) eqn:X1, (Qle_bool 1 y) eqn:Y1; cbn [Math_max];
    try (apply Qle_bool_iff in X1); try (apply Qle_bool_iff in Y1);
    try (apply Qle_bool_false in X1); try (apply Qle_bool_false in Y1).
  - exists 1, 1. repeat split; lra.
  - lra.
  - destruct (Qle_bool x (-1)) eqn:X2;
      [apply Qle_bool_iff in X2 | apply Qle_bool_false in X2].
    + exists (-1), 1. repeat split; lra.
    + exists x, 1. repeat split; lra.
  - destruct (Qle_bool x (-1)) eqn:X2, (Qle_bool y (-1)) eqn:Y2;
      try (apply Qle_bool_iff in X2); try (apply Qle_bool_iff in Y2);
      try (apply Qle_bool_false in X2); try (apply Qle_bool_false in Y2).
    + exists (-1), (-1). repeat split; lra.
    + exists (-1), y. repeat split; lra.
    + lra.
    + exists x, y. repeat split; lra.
Qed.

Lemma quantise_mono (x y : Q) :
  x <= y -> (quantise (Num x) <= quantise (Num y))%Z.
Proof.
  intros H. destruct (clamp_mono x y H) as (s & t & Hs & Ht & Bs & Bt & Hst).
  unfold quantise. rewrite Hs, Ht.
  destruct (ToInt16_scale s Bs) as [Sneg Spos].
  destruct (ToInt16_scale t Bt) as [Tneg Tpos].
  destruct (Qlt_le_dec s 0) as [s0|s0], (Qlt_le_dec t 0) as [t0|t0].
  - rewrite Sneg, Tneg by assumption. apply truncate_mono. lra.
  - rewrite Sneg, Tpos by assumption.
    transitivity (truncate 0); apply truncate_mono; lra.
  - lra.
  - rewrite Spos, Tpos by assumption. apply truncate_mono. lra.
Qed.

(** X6.  The 16-bit values of [createBlob] follow the samples: of two finite
    samples the greater never gets the smaller value, so that no sample
    wraps around; a sample of 1 or more gets 32767 and a sample of -1 or
    less gets -32768. *)
Theorem createBlob_saturates (samples : list Js.number) (i j : nat)
    (x y : Q) :
  samples !! i = Some (Js.Num x) ->
  samples !! j = Some (Js.Num y) ->
  x <= y ->
  exists zx zy : Z,
    AudioUtils.createBlob_int16 samples !! i = Some zx
    /\ AudioUtils.createBlob_int16 samples !! j = Some zy
    /\ (zx <= zy)%Z
    /\ (x <= -1 -> zx = (-32768)%Z)
    /\ (1 <= y -> zy = 32767%Z).
Proof.
  intros Hi Hj Hxy. exists (quantise (Num x)), (quantise (Num y)).
  rewrite createBlob_int16_quantise, !list_lookup_fmap, Hi, Hj.
  split; [reflexivity|]. split; [reflexivity|].
  split; [apply quantise_mono, Hxy|]. split.
  - intros Hx. unfold quantise, clamp. cbn [Math_min].
    destruct (Qle_bool 1 x) eqn:E1;
      [apply Qle_bool_iff in E1; lra|]. cbn [Math_max].
    destruct (Qle_bool x (-1)) eqn:E2; [reflexivity|].
    apply Qle_bool_false in E2. lra.
  - intros Hy. unfold quantise, clamp. cbn [Math_min].
    destruct (Qle_bool 1 y) eqn:E1; [reflexivity|].
    apply Qle_bool_false in E1. lra.
Qed.

Lemma createBlob_saturates_witness :
  exists zx zy : Z,
    AudioUtils.createBlob_int16 [Js.Num (-3 # 2); Js.Num (5 # 4)] !! 0%nat
    = Some zx
    /\ AudioUtils.createBlob_int16 [Js.Num (-3 # 2); Js.Num (5 # 4)] !! 1%nat
       = Some zy
    /\ zx = (-32768)%Z /\ zy = 32767%Z.
Proof.
  destruct (createBlob_saturates [Js.Num (-3 # 2); Js.Num (5 # 4)] 0 1
              (-3 # 2) (5 # 4) eq_refl eq_refl ltac:(vm_compute; discriminate))
    as (zx & zy & Hx & Hy & _ & Lo & Hi).
  exists zx, zy. split; [exact Hx|]. split; [exact Hy|]. split.
  - apply Lo. vm_compute. discriminate.
  - apply Hi. vm_compute. discriminate.
Defined.

Lemma int16s_of_bytes_take (l : list byte) :
  int16s_of_bytes (take (2 * (List.length l / 2)) l) = int16s_of_bytes l.
Proof.
  induction l as [| a | a b l IH] using pair_ind; try reflexivity.
  cbn [List.length].
  change (S (S (List.length l))) with (1 * 2 + List.length l)%nat.
  rewrite Nat.div_add_l by lia.
  replace (2 * (1 + List.length l / 2))%nat
    with (S (S (2 * (List.length l / 2)))) by lia.
  cbn [take int16s_of_bytes]. rewrite IH. reflexivity.
Qed.

(** The [Int16Array] of [decodeAudioData] on a window that starts at an
    even offset: a last byte without its pair is left out. *)
Lemma new_Int16Array_even (data : Uint8Array) :
  (byteOffset data mod 2 = 0)%nat ->
  new_Int16Array (buffer data) (byteOffset data) (byteLength data / 2)
  = inr (int16s_of_bytes (elements data)).
Proof.
  intros Hoff. unfold new_Int16Array. rewrite Hoff. cbn [Nat.eqb negb].
  pose proof (Nat.Div0.mul_div_le (byteLength data) 2) as Hle.
  unfold buffer, byteOffset, byteLength in *. rewrite !length_app.
  destruct (Nat.ltb_spec
              (List.length (before data)
               + (List.length (elements data) + List.length (after data)))
              (List.length (before data)
               + 2 * (List.length (elements data) / 2))); [lia|].
  rewrite drop_app_length, take_app_le by lia.
  rewrite int16s_of_bytes_take. reflexivity.
Qed.

Lemma new_Int16Array_parity (data : Uint8Array) :
  (byteOffset data mod 2 = 0)%nat \/ (byteOffset data mod 2 = 1)%nat.
Proof.
  pose proof (Nat.mod_upper_bound (byteOffset data) 2 ltac:(lia)). lia.
Qed.

Section Frames.
Variables (dataInt16 : list Z) (numChannels : nat).
Hypothesis Hch : (0 < numChannels)%nat.

Lemma frames_iterations :
  (List.length dataInt16 / numChannels
   <= iterations (List.length dataInt16) numChannels)%nat.
Proof.
  unfold iterations. apply Nat.Div0.div_le_mono. lia.
Qed.

Lemma fill_frame (channel i : nat) :
  (i < List.length dataInt16 / numChannels)%nat ->
  fill dataInt16 numChannels channel
    (replicate (List.length dataInt16 / numChannels) (Num 0)) !! i
  = Some (int16_sample dataInt16 (i * numChannels + channel)).
Proof.
  intros Hi. unfold fill. rewrite store_loop_lookup, length_replicate.
  pose proof frames_iterations. rewrite decide_True by lia. reflexivity.
Qed.

Lemma frame_index (channel i : nat) :
  (channel < numChannels)%nat ->
  (i < List.length dataInt16 / numChannels)%nat ->
  (i * numChannels + channel < List.length dataInt16)%nat.
Proof.
  intros Hc Hi.
  pose proof (Nat.Div0.mul_div_le (List.length dataInt16) numChannels).
  nia.
Qed.

End Frames.

(** [decodeAudioData] in closed form, when it returns. *)
Lemma decodeAudioData_closed (data : Uint8Array) (ctx : AudioContext)
    (rate : positive) (numChannels : nat) (buffer : AudioBuffer) :
  decodeAudioData data ctx rate numChannels = inr buffer ->
  let dataInt16 := int16s_of_bytes (elements data) in
  let frames := (List.length dataInt16 / numChannels)%nat in
  (0 < numChannels)%nat /\ (0 < frames)%nat
  /\ buffer
     = {| sampleRate := rate;
          channels :=
            map (fun c => fill dataInt16 numChannels c
                            (replicate frames (Num 0)))
                (seq 0 numChannels) |}.
Proof.
  intros H. cbn zeta. unfold decodeAudioData in H.
  destruct (new_Int16Array_parity data) as [Hoff|Hoff].
  2:{ rewrite new_Int16Array_odd in H by exact Hoff. discriminate H. }
  rewrite new_Int16Array_even in H by exact Hoff.
  unfold createBuffer in H.
  destruct (Nat.eqb_spec numChannels 0) as [?|Hn]; [discriminate H|].
  destruct (maxChannelCount ctx <? numChannels)%nat; [discriminate H|].
  destruct (Nat.eqb_spec
              (List.length (int16s_of_bytes (elements data)) / numChannels)
              0) as [?|Hf]; [discriminate H|].
  destruct (rate <? minSampleRate ctx)%positive; [discriminate H|].
  destruct (maxSampleRate ctx <? rate)%positive; [discriminate H|].
  cbn [orb] in H. injection H as <-.
  split; [lia|]. split; [lia|].
  rewrite fill_channels by lia.
  rewrite Nat.sub_diag. cbn [replicate]. rewrite app_nil_r. reflexivity.
Qed.

(** X7.  Whenever [decodeAudioData] returns, the buffer has [numChannels]
    channels at the given rate, each with as many frames as the 16-bit
    values of the byte array fill (a last byte without its pair and the
    values of a last incomplete frame are left out); the sample at frame
    [i] of channel [c] is the interleaved value at index
    [i * numChannels + c] divided by 32768, and every sample of the
    buffer is a finite number of [-1, 1). *)
Theorem decodeAudioData_whole_frames (data : Js.Uint8Array)
    (ctx : Js.AudioContext) (rate : positive) (numChannels : nat)
    (buffer : Js.AudioBuffer) :
  AudioUtils.decodeAudioData data ctx rate numChannels = inr buffer ->
  let frames := (Js.byteLength data / 2 / numChannels)%nat in
  Js.sampleRate buffer = rate
  /\ Js.numberOfChannels buffer = numChannels
  /\ (0 < frames)%nat
  /\ Forall
       (fun channelData =>
          List.length channelData = frames
          /\ Forall (fun x => exists q : Q, x = Js.Num q /\ -1 <= q /\ q < 1)
               channelData)
       (Js.channels buffer)
  /\ forall c i : nat,
      (c < numChannels)%nat -> (i < frames)%nat ->
      exists (channelData : list Js.number) (z : Z),
        Js.channels buffer !! c = Some channelData
        /\ Js.int16s_of_bytes (Js.elements data) !! (i * numChannels + c)%nat
           = Some z
        /\ channelData !! i = Some (Js.Num (inject_Z z / 32768)).
Proof.
  intros H. destruct (decodeAudioData_closed _ _ _ _ _ H) as (Hch & Hfr & ->).
  cbn zeta. unfold byteLength. rewrite <- int16s_of_bytes_length.
  set (dataInt16 := int16s_of_bytes (elements data)) in *.
  set (frames := (List.length dataInt16 / numChannels)%nat) in *.
  cbn [sampleRate channels]. unfold numberOfChannels. cbn [channels].
  assert (Hsample : forall c i, (c < numChannels)%nat -> (i < frames)%nat ->
            exists z, dataInt16 !! (i * numChannels + c)%nat = Some z
                      /\ (-32768 <= z <= 32767)%Z
                      /\ fill dataInt16 numChannels c
                           (replicate frames (Num 0)) !! i
                         = Some (Num (inject_Z z / 32768))).
  { intros c i Hc Hi.
    assert (Hidx : (i * numChannels + c < List.length dataInt16)%nat)
      by (apply frame_index; assumption).
    destruct (lookup_lt_is_Some_2 _ _ Hidx) as [z Hz]. exists z.
    split; [exact Hz|]. split.
    - pose proof (int16s_of_bytes_range (elements data)) as Hr.
      rewrite Forall_lookup in Hr. exact (Hr _ _ Hz).
    - unfold frames. rewrite (fill_frame dataInt16 numChannels Hch) by exact Hi.
      unfold int16_sample. rewrite Hz. reflexivity. }
  split; [reflexivity|]. split; [rewrite length_map, length_seq; reflexivity|].
  split; [exact Hfr|]. split.
  - apply Forall_fmap, Forall_forall. intros c Hc. cbn.
    apply elem_of_seq in Hc.
    assert (Hlen : List.length (fill dataInt16 numChannels c
                                  (replicate frames (Num 0))) = frames).
    { unfold fill. rewrite store_loop_length. apply length_replicate. }
    split; [exact Hlen|].
    apply Forall_lookup. intros i x Hx.
    assert (Hi : (i < frames)%nat).
    { rewrite <- Hlen. apply lookup_lt_is_Some. eauto. }
    destruct (Hsample c i ltac:(lia) Hi) as (z & _ & Hz & Hfill).
    rewrite Hfill in Hx. injection Hx as <-.
    exists (inject_Z z / 32768). split; [reflexivity|].
    apply int16_sample_range, Hz.
  - intros c i Hc Hi.
    destruct (Hsample c i Hc Hi) as (z & Hz & _ & Hfill).
    exists (fill dataInt16 numChannels c (replicate frames (Num 0))), z.
    split; [|split; [exact Hz | exact Hfill]].
    rewrite list_lookup_fmap, lookup_seq_lt by lia. reflexivity.
Qed.

Lemma decodeAudioData_whole_frames_witness :
  exists buffer : Js.AudioBuffer,
    AudioUtils.decodeAudioData
      (Js.Uint8Array_of_buffer
         [x00; x80; xff; x7f; x01; x00; xff; xff; x05; x00; x07])
      Js.minimal_context 24000 2 = inr buffer
    /\ Js.numberOfChannels buffer = 2%nat
    /\ Forall (fun channelData => List.length channelData = 2%nat)
         (Js.channels buffer).
Proof.
  eexists. split; [reflexivity|].
  destruct (decodeAudioData_whole_frames
              (Js.Uint8Array_of_buffer
                 [x00; x80; xff; x7f; x01; x00; xff; xff; x05; x00; x07])
              Js.minimal_context 24000 2 _ eq_refl)
    as (_ & Hn & _ & Hall & _).
  split; [exact Hn|].
  eapply Forall_impl; [exact Hall|]. intros ch [Hlen _]. exact Hlen.
Defined.

(** X8.  What [decodeAudioData] throws: a RangeError exactly on a byte array
    that starts at an odd offset of its buffer; otherwise a
    NotSupportedError exactly when there is no channel, or more channels
    than the context allows, or not one whole frame of data, or a sample
    rate outside the range of the context; and nothing else. *)
Theorem decodeAudioData_throws_exactly (data : Js.Uint8Array)
    (ctx : Js.AudioContext) (rate : positive) (numChannels : nat) :
  (AudioUtils.decodeAudioData data ctx rate numChannels = inl Js.RangeError
   <-> (Js.byteOffset data mod 2 = 1)%nat)
  /\ (AudioUtils.decodeAudioData data ctx rate numChannels
      = inl Js.NotSupportedError
      <-> (Js.byteOffset data mod 2 = 0)%nat
          /\ (numChannels = 0%nat
              \/ (Js.maxChannelCount ctx < numChannels)%nat
              \/ (Js.byteLength data / 2 / numChannels = 0)%nat
              \/ (rate < Js.minSampleRate ctx)%positive
              \/ (Js.maxSampleRate ctx < rate)%positive))
  /\ AudioUtils.decodeAudioData data ctx rate numChannels
     <> inl Js.InvalidCharacterError.
Proof.
  unfold decodeAudioData.
  destruct (new_Int16Array_parity data) as [Hoff|Hoff].
  2:{ rewrite new_Int16Array_odd by exact Hoff.
      repeat split; try easy. intros [H _]. lia. }
  rewrite new_Int16Array_even by exact Hoff.
  rewrite int16s_of_bytes_length. fold (byteLength data).
  unfold createBuffer.
  destruct (Nat.eqb_spec numChannels 0) as [Hn|Hn];
    destruct (Nat.ltb_spec (maxChannelCount ctx) numChannels) as [Hm|Hm];
    destruct (Nat.eqb_spec (byteLength data / 2 / numChannels) 0) as [Hf|Hf];
    destruct (Pos.ltb_spec rate (minSampleRate ctx)) as [Hlo|Hlo];
    destruct (Pos.ltb_spec (maxSampleRate ctx) rate) as [Hhi|Hhi];
    cbn [orb];
    (split; [split; [discriminate | lia]|]);
    (split; [|discriminate]);
    (split; [intros H;
             first [discriminate H | split; [exact Hoff | tauto]]
            | intros [_ H]; first [reflexivity | exfalso; lia]]).
Qed.

End PcmMore.

(** ** exportWavFile *)
Section ExportWavFile.
Import Js AudioUtils.

Lemma andThen_inr (a b : Action) (w w' : Writer) :
  a w = inr w' -> (a >> b) w = b w'.
Proof.
  intros H. unfold andThen. rewrite H. reflexivity.
Qed.

Lemma emits_andThen (a b : Action) (c1 c2 : list byte) :
  emits a c1 -> emits b c2 -> emits (a >> b) (c1 ++ c2).
Proof.
  intros Ha Hb written rest. unfold andThen.
  rewrite length_app, <- Nat.add_assoc, Ha, Hb, app_assoc. reflexivity.
Qed.

Lemma emits_skip : emits skip [].
Proof.
  intros written rest. cbn. rewrite app_nil_r. reflexivity.
Qed.

(** A loop whose body writes a chunk at each turn writes the chunks one
    after the other. *)
Lemma emits_loop (step : nat -> Action) (chunk : nat -> list byte)
    (n : nat) :
  (forall i, (i < n)%nat -> emits (step i) (chunk i)) ->
  emits (for_range n (fun acc i => acc >> step i) skip)
        (List.concat (map chunk (seq 0 n))).
Proof.
  induction n as [|n IH]; intros H.
  - apply emits_skip.
  - rewrite for_range_S, seq_S, map_app, concat_app. cbn [map List.concat].
    rewrite app_nil_r. apply emits_andThen.
    + apply IH. intros i Hi. apply H. lia.
    + apply H. lia.
Qed.

(** A store at the offset, followed by the move of the offset. *)
Lemma emits_store (bs : list byte) :
  emits ((fun w => setBytes (offset w) bs w) >> advance (List.length bs)) bs.
Proof.
  intros written rest. unfold andThen, setBytes, writing.
  cbn [view offset]. rewrite length_app, length_replicate.
  destruct (Nat.ltb_spec
              (List.length written + (List.length bs + rest))
              (List.length written + List.length bs)); [lia|].
  unfold advance. cbn [view offset]. f_equal.
  rewrite take_app_length, length_app. f_equal.
  rewrite <- app_assoc. f_equal. f_equal.
  rewrite drop_app_ge by lia.
  rewrite drop_replicate. f_equal. lia.
Qed.

Lemma emits_writeUint32 (i : N) : emits (writeUint32 i) (uint32_bytes i).
Proof.
  apply (emits_store (uint32_bytes i)).
Qed.

Lemma emits_writeUint16 (i : N) : emits (writeUint16 i) (uint16_bytes i).
Proof.
  apply (emits_store (uint16_bytes i)).
Qed.

Lemma store_middle (pre post : list byte) (x b : byte) (n : nat) :
  n = List.length pre ->
  take n (pre ++ x :: post) ++ [b] ++ drop (n + 1) (pre ++ x :: post)
  = pre ++ b :: post.
Proof.
  intros ->. rewrite take_app_length, drop_app_ge by lia.
  replace (List.length pre + 1 - List.length pre)%nat with 1%nat by lia.
  reflexivity.
Qed.

(** The loop of [writeString] stores the characters after the offset
    and leaves the offset in place. *)
Lemma writeString_loop (s : jsstring) (written : list byte) (rest k : nat) :
  (k <= List.length s)%nat ->
  for_range k
    (fun acc i =>
       acc >> (fun w => setUint8 (offset w + i) (charCodeAt s i) w))
    skip (writing written (List.length s + rest))
  = inr {| view := written ++ map ToUint8 (take k s)
                   ++ replicate (List.length s - k + rest) x00;
           offset := List.length written |}.
Proof.
  induction k as [|k IH]; intros Hk.
  - cbn. rewrite Nat.sub_0_r. reflexivity.
  - rewrite for_range_S. unfold andThen at 1. rewrite IH by lia.
    destruct (lookup_lt_is_Some_2 s k ltac:(lia)) as [c Hc].
    unfold setUint8, setBytes, charCodeAt. cbn [view offset List.length].
    rewrite Hc, !length_app, length_map, length_take, length_replicate.
    rewrite Nat.min_l by lia.
    destruct (Nat.ltb_spec
                (List.length written
                 + (k + (List.length s - k + rest)))
                (List.length written + k + 1)); [lia|].
    f_equal. f_equal.
    replace (List.length s - k + rest)%nat
      with (S (List.length s - S k + rest)) by lia.
    cbn [replicate].
    rewrite (take_S_r s k c Hc), map_app. cbn [map].
    rewrite !app_assoc, <- (app_assoc _ [ToUint8 c]).
    rewrite (store_middle (written ++ map ToUint8 (take k s)))
      by (rewrite length_app, length_map, length_take; lia).
    rewrite <- (app_assoc _ [ToUint8 c]). reflexivity.
Qed.

Lemma emits_writeString (s : jsstring) :
  emits (writeString s) (map ToUint8 s).
Proof.
  intros written rest. unfold writeString. rewrite length_map.
  rewrite (andThen_inr _ _ _ _
             (writeString_loop s written rest (List.length s) (le_n _))).
  rewrite firstn_all, Nat.sub_diag. unfold advance, writing.
  cbn [view offset]. rewrite length_app, length_map, app_assoc.
  reflexivity.
Qed.

Lemma emits_writeSamples (samples : list number) :
  emits (writeSamples samples)
        (buffer_of_int16s (createBlob_int16 samples)).
Proof.
  unfold writeSamples.
  assert (E : buffer_of_int16s (createBlob_int16 samples)
              = List.concat
                  (map (fun i => bytes_of_int16
                                   (ToInt16 (scale (clamp
                                      match samples !! i with
                                      | Some x => x
                                      | None => NaN
                                      end))))
                       (seq 0 (List.length samples)))).
  { rewrite createBlob_int16_map. unfold buffer_of_int16s. f_equal.
    rewrite (map_lookup_seq
               (fun o => bytes_of_int16
                           (ToInt16 (scale (clamp match o with
                                                  | Some x => x
                                                  | None => NaN
                                                  end))))).
    rewrite map_map. reflexivity. }
  rewrite E.
  apply (emits_loop
           (fun i =>
              (fun w =>
                 let s := clamp match samples !! i with
                                | Some x => x
                                | None => NaN
                                end in
                 setInt16 (offset w) (scale s) w) >> advance 2)).
  intros i _. apply (emits_store (bytes_of_int16 _)).
Qed.

Lemma buffer_of_int16s_length (l : list Z) :
  List.length (buffer_of_int16s l) = (2 * List.length l)%nat.
Proof.
  unfold buffer_of_int16s. induction l as [|z l IH]; [reflexivity|].
  cbn [map List.concat List.length]. rewrite length_app, IH. cbn. lia.
Qed.

Lemma createBlob_int16_length (samples : list number) :
  List.length (createBlob_int16 samples) = List.length samples.
Proof.
  rewrite createBlob_int16_map. apply length_map.
Qed.

Lemma uint32_bytes_length (n : N) : List.length (uint32_bytes n) = 4%nat.
Proof.
  reflexivity.
Qed.

Lemma uint16_bytes_length (n : N) : List.length (uint16_bytes n) = 2%nat.
Proof.
  reflexivity.
Qed.

(** The 44 bytes that [exportWavFile] writes before the samples. *)
Lemma exportWavFile_closed (rate : positive) (samples : list number)
    (others : list (list number)) :
  let numOfChan := N.of_nat (S (List.length others)) in
  let dataLength := N.of_nat (List.length samples) * 2 in
  exportWavFile {| sampleRate := rate; channels := samples :: others |}
  = inr {| blob_bytes :=
             (map ToUint8 (js "RIFF") ++ uint32_bytes (36 + dataLength)
              ++ map ToUint8 (js "WAVE") ++ map ToUint8 (js "fmt ")
              ++ uint32_bytes 16 ++ uint16_bytes 1
              ++ uint16_bytes numOfChan ++ uint32_bytes (Npos rate)
              ++ uint32_bytes (Npos rate * (numOfChan * 2))
              ++ uint16_bytes (numOfChan * 2) ++ uint16_bytes 16
              ++ map ToUint8 (js "data") ++ uint32_bytes dataLength)
             ++ buffer_of_int16s (createBlob_int16 samples);
           blob_type := js "audio/wav" |}.
Proof.
  cbn zeta. unfold exportWavFile, getChannelData, numberOfChannels.
  cbn [channels Js.sampleRate lookup list_lookup List.length].
  change (16 / 8) with 2.
  set (numOfChan := N.of_nat (S (List.length others))).
  set (dataLength := N.of_nat (List.length samples) * 2).
  match goal with
  | |- context [andThen ?a ?b ?w] =>
      assert (Hem : emits (andThen a b)
                (map ToUint8 (js "RIFF") ++ uint32_bytes (36 + dataLength)
                 ++ map ToUint8 (js "WAVE") ++ map ToUint8 (js "fmt ")
                 ++ uint32_bytes 16 ++ uint16_bytes 1
                 ++ uint16_bytes numOfChan ++ uint32_bytes (Npos rate)
                 ++ uint32_bytes (Npos rate * (numOfChan * 2))
                 ++ uint16_bytes (numOfChan * 2) ++ uint16_bytes 16
                 ++ map ToUint8 (js "data") ++ uint32_bytes dataLength
                 ++ buffer_of_int16s (createBlob_int16 samples)))
  end.
  { repeat (apply emits_andThen;
            [first [apply emits_writeString | apply emits_writeUint32
                   | apply emits_writeUint16]|]).
    apply emits_writeSamples. }
  specialize (Hem [] 0%nat). unfold writing in Hem.
  cbn [app List.length] in Hem.
  match type of Hem with
  | _ {| view := replicate ?n _; offset := _ |} = _ =>
      replace (N.to_nat (44 + dataLength)) with n
  end.
  - rewrite Hem. cbn [view replicate]. rewrite app_nil_r.
    rewrite <- !app_assoc. reflexivity.
  - rewrite !length_app, !length_map, !uint32_bytes_length,
      !uint16_bytes_length, buffer_of_int16s_length,
      createBlob_int16_length.
    change (List.length (js "RIFF")) with 4%nat.
    change (List.length (js "WAVE")) with 4%nat.
    change (List.length (js "fmt ")) with 4%nat.
    change (List.length (js "data")) with 4%nat.
    unfold dataLength. lia.
Qed.

Lemma uint32_value (n : N) :
  Byte.to_N (ToUint8 n) + 256 * Byte.to_N (ToUint8 (n / 256))
  + 65536 * Byte.to_N (ToUint8 (n / 65536))
  + 16777216 * Byte.to_N (ToUint8 (n / 16777216))
  = n mod 4294967296.
Proof.
  rewrite !to_N_ToUint8. div_lia.
Qed.

Lemma uint16_value (n : N) :
  Byte.to_N (ToUint8 n) + 256 * Byte.to_N (ToUint8 (n / 256))
  = n mod 65536.
Proof.
  rewrite !to_N_ToUint8. div_lia.
Qed.

(** X9.  On a buffer with at least one channel [exportWavFile] does not
    throw: it returns a blob of type audio/wav that holds 44 bytes and
    then two bytes for each sample of the first channel.  These bytes
    are the 16-bit values that [createBlob] stores for the same samples;
    the other channels of the buffer are not written. *)
Theorem exportWavFile_payload (audioBuffer : Js.AudioBuffer)
    (samples : list Js.number) (others : list (list Js.number)) :
  Js.channels audioBuffer = samples :: others ->
  exists blob : AudioUtils.FileBlob,
    AudioUtils.exportWavFile audioBuffer = inr blob
    /\ AudioUtils.blob_type blob = Js.js "audio/wav"
    /\ List.length (AudioUtils.blob_bytes blob)
       = (44 + 2 * List.length samples)%nat
    /\ drop 44 (AudioUtils.blob_bytes blob)
       = Js.buffer_of_int16s (AudioUtils.createBlob_int16 samples)
    /\ Js.int16s_of_bytes (drop 44 (AudioUtils.blob_bytes blob))
       = AudioUtils.createBlob_int16 samples.
Proof.
  intros H. destruct audioBuffer as [rate chans]. cbn [channels] in H.
  subst chans. rewrite exportWavFile_closed. eexists.
  split; [reflexivity|]. split; [reflexivity|]. cbn [blob_bytes].
  assert (Hdrop : forall A (l1 l2 : list A),
             List.length l1 = 44%nat -> drop 44 (l1 ++ l2) = l2).
  { intros A l1 l2 <-. apply drop_app_length. }
  split.
  - rewrite length_app, buffer_of_int16s_length, createBlob_int16_length.
    reflexivity.
  - rewrite Hdrop by reflexivity. split; [reflexivity|].
    apply int16s_of_buffer. rewrite createBlob_int16_map.
    apply Forall_fmap, Forall_forall. intros x _. apply ToInt16_range.
Qed.

Lemma exportWavFile_payload_witness :
  exists blob : AudioUtils.FileBlob,
    AudioUtils.exportWavFile
      {| Js.sampleRate := 24000;
         Js.channels := [[Js.Num 1; Js.Num (-1 # 2)]; [Js.NaN]] |}
    = inr blob
    /\ Js.int16s_of_bytes (drop 44 (AudioUtils.blob_bytes blob))
       = [32767%Z; (-16384)%Z].
Proof.
  destruct (exportWavFile_payload
              {| Js.sampleRate := 24000;
                 Js.channels := [[Js.Num 1; Js.Num (-1 # 2)]; [Js.NaN]] |}
              [Js.Num 1; Js.Num (-1 # 2)] [[Js.NaN]] eq_refl)
    as (blob & Hb & _ & _ & _ & Hp).
  exists blob. split; [exact Hb | exact Hp].
Defined.

(** X10.  The 44 bytes at the head of the blob are a RIFF/WAVE header, each
    number least significant byte first: the chunk names at the offsets
    0, 8, 12 and 36; the size of the format chunk, 16, and the format,
    1; the number of channels of the buffer and its sample rate; the
    block size, two bytes for each channel, and the byte rate, the
    sample rate times the block size; 16 bits for a sample; the size of
    the data, two bytes for each sample of the first channel, and that
    size plus 36 at offset 4.  A number that does not fit its field is
    reduced modulo 2^16 or 2^32. *)
Theorem exportWavFile_header (audioBuffer : Js.AudioBuffer)
    (samples : list Js.number) (others : list (list Js.number)) :
  Js.channels audioBuffer = samples :: others ->
  let numOfChan := N.of_nat (Js.numberOfChannels audioBuffer) in
  let rate := Npos (Js.sampleRate audioBuffer) in
  let dataLength := 2 * N.of_nat (List.length samples) in
  exists blob : AudioUtils.FileBlob,
    AudioUtils.exportWavFile audioBuffer = inr blob
    /\ AudioUtils.getString (AudioUtils.blob_bytes blob) 0 4 = Js.js "RIFF"
    /\ AudioUtils.getUint32 (AudioUtils.blob_bytes blob) 4
       = Some ((36 + dataLength) mod 4294967296)
    /\ AudioUtils.getString (AudioUtils.blob_bytes blob) 8 4 = Js.js "WAVE"
    /\ AudioUtils.getString (AudioUtils.blob_bytes blob) 12 4 = Js.js "fmt "
    /\ AudioUtils.getUint32 (AudioUtils.blob_bytes blob) 16 = Some 16
    /\ AudioUtils.getUint16 (AudioUtils.blob_bytes blob) 20 = Some 1
    /\ AudioUtils.getUint16 (AudioUtils.blob_bytes blob) 22
       = Some (numOfChan mod 65536)
    /\ AudioUtils.getUint32 (AudioUtils.blob_bytes blob) 24
       = Some (rate mod 4294967296)
    /\ AudioUtils.getUint32 (AudioUtils.blob_bytes blob) 28
       = Some ((rate * (2 * numOfChan)) mod 4294967296)
    /\ AudioUtils.getUint16 (AudioUtils.blob_bytes blob) 32
       = Some ((2 * numOfChan) mod 65536)
    /\ AudioUtils.getUint16 (AudioUtils.blob_bytes blob) 34 = Some 16
    /\ AudioUtils.getString (AudioUtils.blob_bytes blob) 36 4 = Js.js "data"
    /\ AudioUtils.getUint32 (AudioUtils.blob_bytes blob) 40
       = Some (dataLength mod 4294967296).
Proof.
  intros H. destruct audioBuffer as [rate chans]. cbn [channels] in H.
  subst chans. cbn zeta. rewrite exportWavFile_closed. eexists.
  split; [reflexivity|]. cbn [blob_bytes].
  unfold numberOfChannels. cbn [channels sampleRate List.length].
  change (map ToUint8 (js "RIFF"))
    with ["R"%byte; "I"%byte; "F"%byte; "F"%byte].
  change (map ToUint8 (js "WAVE"))
    with ["W"%byte; "A"%byte; "V"%byte; "E"%byte].
  change (map ToUint8 (js "fmt "))
    with ["f"%byte; "m"%byte; "t"%byte; " "%byte].
  change (map ToUint8 (js "data"))
    with ["d"%byte; "a"%byte; "t"%byte; "a"%byte].
  unfold uint32_bytes, uint16_bytes, getString, getUint32, getUint16.
  cbn [app drop take map].
  rewrite !uint32_value, !uint16_value.
  replace (N.of_nat (List.length samples) * 2)
    with (2 * N.of_nat (List.length samples)) by lia.
  replace (N.of_nat (S (List.length others)) * 2)
    with (2 * N.of_nat (S (List.length others))) by lia.
  repeat split.
Qed.

Lemma exportWavFile_header_witness :
  exists blob : AudioUtils.FileBlob,
    AudioUtils.exportWavFile
      {| Js.sampleRate := 24000;
         Js.channels := [[Js.Num 1; Js.Num (-1 # 2)]; [Js.NaN]] |}
    = inr blob
    /\ AudioUtils.getUint32 (AudioUtils.blob_bytes blob) 4 = Some 40
    /\ AudioUtils.getUint16 (AudioUtils.blob_bytes blob) 22 = Some 2
    /\ AudioUtils.getUint32 (AudioUtils.blob_bytes blob) 40 = Some 4.
Proof.
  destruct (exportWavFile_header
              {| Js.sampleRate := 24000;
                 Js.channels := [[Js.Num 1; Js.Num (-1 # 2)]; [Js.NaN]] |}
              [Js.Num 1; Js.Num (-1 # 2)] [[Js.NaN]] eq_refl)
    as (blob & Hb & _ & H4 & _ & _ & _ & _ & H22 & _ & _ & _ & _ & _ & H40).
  exists blob. split; [exact Hb|]. split; [exact H4|].
  split; [exact H22 | exact H40].
Defined.

(** The value stored again for a sample that [decodeAudioData] made of
    the 16-bit value [z]: [z] itself when it is not positive, [z - 1]
    when it is. *)
Lemma quantise_int16_sample (z : Z) :
  (-32768 <= z <= 32767)%Z ->
  quantise (Num (inject_Z z / 32768))
  = if (0 <? z)%Z then (z - 1)%Z else z.
Proof.
  intros Hz. unfold quantise, clamp. cbn [Math_min].
  assert (H1 : Qle_bool 1 (inject_Z z / 32768) = false).
  { destruct (Qle_bool 1 (inject_Z z / 32768)) eqn:E; [|reflexivity].
    apply Qle_bool_iff in E. unfold Qle in E. cbn in E. lia. }
  rewrite H1. cbn [Math_max].
  destruct (Qle_bool (inject_Z z / 32768) (-1)) eqn:E.
  - apply Qle_bool_iff in E. unfold Qle in E. cbn in E.
    assert (z = (-32768)%Z) as -> by lia. reflexivity.
  - apply Qle_bool_false in E. unfold Qlt in E. cbn in E.
    unfold scale. cbn [lt_zero mul_const].
    destruct (Qle_bool 0 (inject_Z z / 32768)) eqn:E0; cbn [negb].
    + apply Qle_bool_iff in E0. unfold Qle in E0. cbn in E0.
      rewrite ToInt16_small; unfold truncate; cbn;
        destruct (Z.ltb_spec 0 z);
        Z.to_euclidean_division_equations; lia.
    + apply Qle_bool_false in E0. unfold Qlt in E0. cbn in E0.
      rewrite ToInt16_small; unfold truncate; cbn;
        destruct (Z.ltb_spec 0 z);
        Z.to_euclidean_division_equations; lia.
Qed.

(** X11.  Exporting what [decodeAudioData] made of 16-bit mono data does not
    give the data back: in the bytes after the header every value that
    is not positive is the one received, every positive value is one
    less. *)
Theorem exportWavFile_of_decoded (data : Js.Uint8Array)
    (ctx : Js.AudioContext) (rate : positive) (buffer : Js.AudioBuffer) :
  AudioUtils.decodeAudioData data ctx rate 1 = inr buffer ->
  exists blob : AudioUtils.FileBlob,
    AudioUtils.exportWavFile buffer = inr blob
    /\ Js.int16s_of_bytes (drop 44 (AudioUtils.blob_bytes blob))
       = map (fun z : Z => if (0 <? z)%Z then (z - 1)%Z else z)
             (Js.int16s_of_bytes (Js.elements data)).
Proof.
  intros H. destruct (decodeAudioData_closed _ _ _ _ _ H) as (_ & _ & ->).
  cbn [seq map]. rewrite exportWavFile_closed. eexists.
  split; [reflexivity|]. cbn [blob_bytes].
  rewrite drop_app_length' by reflexivity.
  rewrite int16s_of_buffer.
  2:{ rewrite createBlob_int16_map. apply Forall_fmap, Forall_forall.
      intros x _. apply ToInt16_range. }
  rewrite createBlob_int16_quantise.
  set (dataInt16 := int16s_of_bytes (elements data)).
  apply list_eq. intros i. rewrite !list_lookup_fmap.
  rewrite Nat.div_1_r.
  destruct (decide (i < List.length dataInt16)%nat) as [Hi|Hi].
  - pose proof (fill_frame dataInt16 1 ltac:(lia) 0 i) as Hf.
    rewrite Nat.div_1_r in Hf. rewrite Hf by exact Hi.
    replace (i * 1 + 0)%nat with i by lia.
    unfold int16_sample.
    destruct (lookup_lt_is_Some_2 _ _ Hi) as [z Hz]. rewrite Hz.
    cbn [fmap option_fmap option_map]. f_equal.
    apply quantise_int16_sample.
    pose proof (int16s_of_bytes_range (elements data)) as Hr.
    rewrite Forall_lookup in Hr. exact (Hr _ _ Hz).
  - rewrite (lookup_ge_None_2 dataInt16) by lia.
    rewrite lookup_ge_None_2; [reflexivity|].
    unfold fill. rewrite store_loop_length, length_replicate. lia.
Qed.

Lemma exportWavFile_of_decoded_witness :
  exists blob : AudioUtils.FileBlob,
    AudioUtils.exportWavFile
      {| Js.sampleRate := 24000;
         Js.channels := [[Js.Num (inject_Z 5 / 32768);
                          Js.Num (inject_Z (-3) / 32768)]] |}
    = inr blob
    /\ Js.int16s_of_bytes (drop 44 (AudioUtils.blob_bytes blob))
       = [4%Z; (-3)%Z].
Proof.
  apply (exportWavFile_of_decoded
           (Js.Uint8Array_of_buffer [x05; x00; xfd; xff])
           Js.minimal_context 24000).
  reflexivity.
Defined.

End ExportWavFile.

(** ** More on parseTranslatedConversation *)
Section ParseTranslatedMore.
Import Js Translation.

Lemma trimEnd_idemp (s : jsstring) : trimEnd (trimEnd s) = trimEnd s.
Proof.
  induction s as [|c r IH]; [reflexivity|].
  cbn [trimEnd]. destruct (trimEnd r) as [|x r'] eqn:E.
  - destruct (is_white_space c) eqn:Ec; [reflexivity|].
    cbn [trimEnd]. rewrite Ec. reflexivity.
  - cbn [trimEnd] in IH |- *. rewrite IH. reflexivity.
Qed.

Lemma trimStart_head (s : jsstring) :
  match trimStart s with
  | [] => True
  | c :: _ => is_white_space c = false
  end.
Proof.
  induction s as [|c r IH]; [exact I|].
  cbn [trimStart]. destruct (is_white_space c) eqn:Ec; [exact IH | exact Ec].
Qed.

(** [trim] leaves a trimmed text as it is. *)
Lemma trim_idemp (s : jsstring) : trim (trim s) = trim s.
Proof.
  unfold trim. pose proof (trimStart_head s) as H.
  destruct (trimStart s) as [|c r]; [reflexivity|].
  assert (E : exists r', trimEnd (c :: r) = c :: r').
  { cbn [trimEnd]. destruct (trimEnd r) as [|x r'].
    - rewrite H. eauto.
    - eauto. }
  destruct E as [r' E]. rewrite E. cbn [trimStart]. rewrite H.
  rewrite <- E. apply trimEnd_idemp.
Qed.

Lemma flush_trimmed (st : Loop) :
  Forall (fun p => trim (translatedText p) = translatedText p)
         (parsedTranslations st) ->
  Forall (fun p => trim (translatedText p) = translatedText p) (flush st).
Proof.
  intros H. unfold flush. destruct (currentRole st); [|exact H].
  destruct (truthy (currentText st)); [|exact H].
  apply Forall_app. split; [exact H|].
  apply Forall_cons_2; [|apply Forall_nil_2]. apply trim_idemp.
Qed.

Lemma loop_trimmed (lines : list jsstring) (st : Loop) :
  Forall (fun p => trim (translatedText p) = translatedText p)
         (parsedTranslations st) ->
  Forall (fun p => trim (translatedText p) = translatedText p)
         (parsedTranslations (fold_left loop_body lines st)).
Proof.
  revert st. induction lines as [|line lines IH]; intros st H; [exact H|].
  cbn [fold_left]. apply IH. unfold loop_body.
  destruct (startsWith line (js "User: "));
    [apply flush_trimmed, H|].
  destruct (startsWith line (js "AI: "));
    [apply flush_trimmed, H|].
  destruct (truthy (currentText st)); exact H.
Qed.

(** The entries of the initial loop state, and of any state without a
    current text, are those it has collected. *)
Lemma close_empty (st : Loop) (conts : list jsstring) :
  currentText st = [] -> close st conts = parsedTranslations st.
Proof.
  intros H. unfold close, flush. rewrite H. cbn [truthy].
  destruct (currentRole st); reflexivity.
Qed.

Lemma blocks_count (lines : list jsstring) :
  (List.length (snd (fold_right (block_step entry_guarded) ([], []) lines))
   <= List.length
        (List.filter (fun line => match prefixed line with
                                  | Some _ => true
                                  | None => false
                                  end) lines))%nat.
Proof.
  induction lines as [|line lines IH]; [reflexivity|].
  cbn [fold_right List.filter].
  set (rest := fold_right (block_step entry_guarded) ([], []) lines) in *.
  unfold block_step.
  destruct (prefixed line) as [[r head]|].
  - cbn [snd List.length]. rewrite length_app.
    unfold entry_guarded, entry_as_claimed.
    destruct (truthy head); cbn [List.length]; lia.
  - cbn [snd]. exact IH.
Qed.

(** X12.  The text of every entry that [parseTranslatedConversation] returns
    is trimmed, with no white space left at either end, and there are
    no more entries than lines with one of the two prefixes. *)
Theorem parseTranslatedConversation_trimmed (translatedText : list N) :
  Forall (fun p => Js.trim (Translation.translatedText p)
                   = Translation.translatedText p)
         (Translation.parseTranslatedConversation translatedText)
  /\ (List.length (Translation.parseTranslatedConversation translatedText)
      <= List.length (Translation.prefixed_lines translatedText))%nat.
Proof.
  split.
  - unfold parseTranslatedConversation. apply flush_trimmed, loop_trimmed.
    apply Forall_nil_2.
  - unfold parseTranslatedConversation. rewrite loop_blocks.
    rewrite close_empty by reflexivity. cbn [parsedTranslations app].
    apply blocks_count.
Qed.

(** A text without a prefixed line has no entry. *)
Lemma blocks_none (lines : list jsstring) :
  Forall (fun line => prefixed line = None) lines ->
  snd (fold_right (block_step entry_guarded) ([], []) lines) = [].
Proof.
  induction 1 as [|line lines Hl _ IH]; [reflexivity|].
  cbn [fold_right]. unfold block_step at 1. rewrite Hl. exact IH.
Qed.

Lemma parse_no_prefix (text : jsstring) :
  Forall (fun line => prefixed line = None) (split_lines text) ->
  parseTranslatedConversation text = [].
Proof.
  intros H. unfold parseTranslatedConversation. rewrite loop_blocks.
  rewrite close_empty by reflexivity. cbn [parsedTranslations app].
  apply blocks_none, H.
Qed.

(** A text whose lines all have a prefix and something behind it has
    one entry for each line. *)
Lemma blocks_all (lines : list jsstring) (entries : list (Role * jsstring)) :
  Forall2 (fun line e => prefixed line = Some e /\ truthy (snd e) = true)
          lines entries ->
  fold_right (block_step entry_guarded) ([], []) lines
  = ([], map (fun e => {| role := fst e; translatedText := trim (snd e) |})
             entries)
    \/ (lines = [] /\ entries = []).
Proof.
  induction 1 as [|line [r head] lines entries [Hl Ht] _ IH].
  - right. split; reflexivity.
  - left. cbn [snd] in Ht. cbn [fold_right].
    destruct IH as [IH | [-> ->]]; [rewrite IH | cbn [fold_right]];
      unfold block_step; rewrite Hl; cbn [fst snd map];
      unfold entry_guarded, entry_as_claimed; rewrite Ht; reflexivity.
Qed.

Lemma parse_all_prefixed (text : jsstring)
    (entries : list (Role * jsstring)) :
  Forall2 (fun line e => prefixed line = Some e /\ truthy (snd e) = true)
          (split_lines text) entries ->
  parseTranslatedConversation text
  = map (fun e => {| role := fst e; translatedText := trim (snd e) |})
        entries.
Proof.
  intros H. unfold parseTranslatedConversation. rewrite loop_blocks.
  rewrite close_empty by reflexivity. cbn [parsedTranslations app].
  destruct (blocks_all _ _ H) as [-> | [E ->]]; [reflexivity|].
  rewrite E. reflexivity.
Qed.

Lemma split_lines_plain (line : jsstring) :
  ~ In 10 line -> split_lines line = [line].
Proof.
  induction line as [|c line IH]; intros H; [reflexivity|].
  cbn [split_lines]. destruct (N.eqb_spec c 10) as [->|_].
  - exfalso. apply H. left. reflexivity.
  - rewrite IH; [reflexivity|]. intros Hin. apply H. right. exact Hin.
Qed.

Lemma split_lines_cons (line rest : jsstring) :
  ~ In 10 line -> split_lines (line ++ 10 :: rest) = line :: split_lines rest.
Proof.
  induction line as [|c line IH]; intros H; [reflexivity|].
  cbn [app split_lines]. destruct (N.eqb_spec c 10) as [->|_].
  - exfalso. apply H. left. reflexivity.
  - rewrite IH; [reflexivity|]. intros Hin. apply H. right. exact Hin.
Qed.

End ParseTranslatedMore.

(** ** Double-precision numbers *)
Section DoubleFacts.
Import Js Double.
Local Open Scope Q_scope.

Lemma two_nonzero : ~ 2 == 0.
Proof.
  discriminate.
Qed.

Lemma pow2_pos (e : Z) : 0 < pow2 e.
Proof.
  apply Qpower_0_lt. reflexivity.
Qed.

Lemma pow2_plus (a b : Z) : pow2 (a + b) == pow2 a * pow2 b.
Proof.
  apply Qpower_plus, two_nonzero.
Qed.

Lemma pow2_minus (a b : Z) : pow2 (a - b) == pow2 a / pow2 b.
Proof.
  apply Qpower_minus, two_nonzero.
Qed.

Lemma pow2_le (a b : Z) : (a <= b)%Z -> pow2 a <= pow2 b.
Proof.
  intros H. apply Qpower_le_compat_l; [exact H | discriminate].
Qed.

Lemma pow2_lt (a b : Z) : (a < b)%Z -> pow2 a < pow2 b.
Proof.
  intros H. apply Qpower_lt_compat_l; [exact H | reflexivity].
Qed.

Lemma pow2_Z (n : Z) : (0 <= n)%Z -> inject_Z (2 ^ n) == pow2 n.
Proof.
  intros H. apply (Zpower_Qpower 2 n H).
Qed.

Lemma pow2_succ (e : Z) : pow2 (e + 1) == 2 * pow2 e.
Proof.
  rewrite pow2_plus. unfold pow2 at 2. rewrite Qpower_1_r. ring.
Qed.

(** A positive integer between two powers of two. *)
Lemma log2_bounds (n : Z) :
  (0 < n)%Z ->
  pow2 (Z.log2 n) <= inject_Z n /\ inject_Z n < pow2 (Z.log2 n + 1).
Proof.
  intros H. destruct (Z.log2_spec n H) as [Hlo Hhi].
  pose proof (Z.log2_nonneg n) as Hl.
  rewrite <- !pow2_Z by lia. rewrite <- Zle_Qle, <- Zlt_Qlt.
  replace (Z.succ (Z.log2 n)) with (Z.log2 n + 1)%Z in Hhi by lia.
  auto.
Qed.

Lemma Q_as_quotient (q : Q) :
  q == inject_Z (Qnum q) / inject_Z (Zpos (Qden q)).
Proof.
  destruct q as [n d]. unfold Qeq, Qdiv, Qmult, Qinv, inject_Z. cbn. lia.
Qed.

Lemma floor_log2_spec (q : Q) :
  0 < q ->
  pow2 (floor_log2 q) <= q /\ q < pow2 (floor_log2 q + 1).
Proof.
  intros Hq. unfold floor_log2.
  set (n := Qnum q). set (d := Zpos (Qden q)).
  assert (Hn : (0 < n)%Z).
  { unfold n. destruct q as [qn qd]. unfold Qlt in Hq. cbn in *. lia. }
  assert (Hd : (0 < d)%Z) by (unfold d; lia).
  destruct (log2_bounds n Hn) as [Hn1 Hn2].
  destruct (log2_bounds d Hd) as [Hd1 Hd2].
  set (a := Z.log2 n) in *. set (b := Z.log2 d) in *.
  pose proof (pow2_pos a). pose proof (pow2_pos b).
  pose proof (pow2_pos (a + 1)). pose proof (pow2_pos (b + 1)).
  assert (Hdq : 0 < inject_Z d) by (rewrite Zlt_Qlt in Hd; exact Hd).
  assert (Eq : q * inject_Z d == inject_Z n).
  { rewrite (Q_as_quotient q) at 1. fold n d. field.
    intros E. rewrite E in Hdq. discriminate. }
  assert (Hup : q < pow2 (a - b + 1)).
  { replace (a - b + 1)%Z with ((a + 1) - b)%Z by lia.
    rewrite pow2_minus. apply Qlt_shift_div_l; [assumption|].
    generalize dependent (pow2 (a + 1)). generalize dependent (pow2 b).
    generalize dependent (inject_Z d). generalize dependent (inject_Z n).
    intros. nra. }
  assert (Hdown : pow2 (a - b - 1) < q).
  { replace (a - b - 1)%Z with (a - (b + 1))%Z by lia.
    rewrite pow2_minus. apply Qlt_shift_div_r; [assumption|].
    generalize dependent (pow2 a). generalize dependent (pow2 (b + 1)).
    generalize dependent (inject_Z d). generalize dependent (inject_Z n).
    intros. nra. }
  fold a b. destruct (Qle_bool (pow2 (a - b)) q) eqn:E.
  - apply Qle_bool_iff in E. split; assumption.
  - replace (a - b - 1 + 1)%Z with (a - b)%Z by lia. split.
    + apply Qlt_le_weak, Hdown.
    + apply Qnot_le_lt. intros Hle. apply Qle_bool_iff in Hle. congruence.
Qed.

(** The integer nearest to [x]: no integer is nearer. *)
Lemma nearest_even_spec (x : Q) (z : Z) :
  Qabs (x - inject_Z (nearest_even x)) <= Qabs (x - inject_Z z).
Proof.
  unfold nearest_even.
  pose proof (Qfloor_le x) as Hlo. pose proof (Qlt_floor x) as Hhi.
  set (m := Qfloor x) in *.
  rewrite inject_Z_plus in Hhi. change (inject_Z 1) with 1 in Hhi.
  assert (Hz : (z <= m)%Z \/ (m + 1 <= z)%Z) by lia.
  assert (Hz' : inject_Z z <= inject_Z m \/ inject_Z m + 1 <= inject_Z z).
  { destruct Hz as [Hz|Hz]; [left | right].
    - rewrite <- Zle_Qle. exact Hz.
    - rewrite Zle_Qle, inject_Z_plus in Hz. exact Hz. }
  change (inject_Z 1) with 1 in Hz'.
  assert (Hcases :
            forall k : Z,
              (k = m /\ x - inject_Z m <= 1 # 2)
              \/ (k = (m + 1)%Z /\ 1 # 2 <= x - inject_Z m) ->
              Qabs (x - inject_Z k) <= Qabs (x - inject_Z z)).
  { change (inject_Z 1) with 1 in *.
    intros k [[-> Hk] | [-> Hk]]; rewrite ?inject_Z_plus;
      change (inject_Z 1) with 1;
      apply Qabs_case; intros; apply Qabs_case; intros;
      destruct Hz'; lra. }
  destruct (x - inject_Z m ?= 1 # 2) eqn:E.
  - apply Qeq_alt in E. destruct (Z.even m); apply Hcases; [left | right];
      split; try reflexivity; lra.
  - apply Qlt_alt in E. apply Hcases. left. split; [reflexivity | lra].
  - apply Qgt_alt in E. apply Hcases. right. split; [reflexivity | lra].
Qed.

Lemma nearest_even_floor (x : Q) :
  nearest_even x = Qfloor x \/ nearest_even x = (Qfloor x + 1)%Z.
Proof.
  unfold nearest_even.
  destruct (x - inject_Z (Qfloor x) ?= 1 # 2); auto.
  destruct (Z.even (Qfloor x)); auto.
Qed.

Lemma round_zero (q : Q) : q == 0 -> round q = 0.
Proof.
  intros H. unfold round. apply Qeq_bool_iff in H. rewrite H. reflexivity.
Qed.

Lemma round_eq (q : Q) :
  ~ q == 0 ->
  round q
  == inject_Z (nearest_even (q / pow2 (ulp_exponent q)))
     * pow2 (ulp_exponent q).
Proof.
  intros H. unfold round.
  destruct (Qeq_bool q 0) eqn:E; [apply Qeq_bool_iff in E; contradiction|].
  apply Qred_correct.
Qed.

Lemma Qabs_scale (a p : Q) : 0 < p -> Qabs (a * p) == Qabs a * p.
Proof.
  intros H. rewrite Qabs_Qmult, (Qabs_pos p) by lra. reflexivity.
Qed.

(** The rounded value is at least as near as every multiple of the unit
    in the last place. *)
Lemma round_grid (q : Q) (z : Z) :
  ~ q == 0 ->
  Qabs (q - round q) <= Qabs (q - inject_Z z * pow2 (ulp_exponent q)).
Proof.
  intros H. rewrite (round_eq q H).
  set (e := ulp_exponent q). pose proof (pow2_pos e) as He.
  set (x := q / pow2 e).
  assert (E : forall k : Z,
             q - inject_Z k * pow2 e == (x - inject_Z k) * pow2 e)
    by (intros k; unfold x; field; lra).
  rewrite !E.
  rewrite !Qabs_scale by exact He.
  apply Qmult_le_compat_r; [apply nearest_even_spec | lra].
Qed.

Lemma ulp_exponent_min (q : Q) : (-1074 <= ulp_exponent q)%Z.
Proof.
  unfold ulp_exponent. lia.
Qed.

Lemma ulp_exponent_upper (q : Q) :
  ~ q == 0 -> Qabs q < pow2 (ulp_exponent q + 53).
Proof.
  intros H.
  assert (Hq : 0 < Qabs q).
  { pose proof (Qabs_nonneg q). destruct (Qeq_dec (Qabs q) 0) as [E|E].
    - exfalso. apply H. revert E. apply Qabs_case; intros; lra.
    - lra. }
  destruct (floor_log2_spec _ Hq) as [_ Hhi].
  eapply Qlt_le_trans; [exact Hhi|]. apply pow2_le.
  unfold ulp_exponent. lia.
Qed.

Lemma ulp_exponent_lower (q : Q) :
  ~ q == 0 -> (-1074 < ulp_exponent q)%Z ->
  pow2 (ulp_exponent q + 52) <= Qabs q.
Proof.
  intros H He.
  assert (Hq : 0 < Qabs q).
  { pose proof (Qabs_nonneg q). destruct (Qeq_dec (Qabs q) 0) as [E|E].
    - exfalso. apply H. revert E. apply Qabs_case; intros; lra.
    - lra. }
  destruct (floor_log2_spec _ Hq) as [Hlo _].
  eapply Qle_trans; [|exact Hlo]. apply pow2_le.
  unfold ulp_exponent in *. lia.
Qed.

(** Rounding gives a nearest double. *)
Lemma round_nearest (q f : Q) :
  is_double f -> Qabs (q - round q) <= Qabs (q - f).
Proof.
  intros (mf & ef & Hef & Hmf & Ef).
  destruct (Qeq_dec q 0) as [E0|H].
  { rewrite (round_zero q E0), E0.
    apply Qabs_case; intros; apply Qabs_case; intros; lra. }
  set (e := ulp_exponent q). pose proof (pow2_pos e) as He.
  destruct (Z_le_gt_dec e ef) as [Hle|Hgt].
  - (* [f] is a multiple of the unit *)
    eapply Qle_trans; [apply (round_grid q (mf * 2 ^ (ef - e)) H)|].
    fold e.
    assert (E : inject_Z (mf * 2 ^ (ef - e)) * pow2 e == f).
    { rewrite Ef, inject_Z_mult, pow2_Z by lia.
      rewrite <- Qmult_assoc, <- pow2_plus.
      replace (ef - e + e)%Z with ef by lia. reflexivity. }
    rewrite E. apply Qle_refl.
  - (* [f] is smaller than the least double with this unit *)
    assert (Hlow : pow2 (e + 52) <= Qabs q).
    { apply ulp_exponent_lower; [exact H|]. fold e. lia. }
    assert (Hf : Qabs f < pow2 (e + 52)).
    { rewrite Ef, Qabs_scale by apply pow2_pos.
      apply Qlt_le_trans with (pow2 53 * pow2 ef).
      - apply Qmult_lt_r; [apply pow2_pos|].
        rewrite <- pow2_Z by lia.
        change (Qabs (inject_Z mf)) with (inject_Z (Z.abs mf)).
        rewrite <- Zlt_Qlt. exact Hmf.
      - rewrite <- pow2_plus. apply pow2_le. lia. }
    assert (E52 : inject_Z (2 ^ 52) * pow2 e == pow2 (e + 52)).
    { rewrite pow2_Z by lia. rewrite <- pow2_plus.
      replace (52 + e)%Z with (e + 52)%Z by lia. reflexivity. }
    destruct (Qlt_le_dec q 0) as [Hneg|Hpos].
    + eapply Qle_trans; [apply (round_grid q (- 2 ^ 52) H)|]. fold e.
      rewrite inject_Z_opp.
      assert (E52' : - inject_Z (2 ^ 52) * pow2 e == - pow2 (e + 52))
        by (rewrite <- E52; ring).
      rewrite E52'. revert Hlow Hf.
      generalize (pow2 (e + 52)). intros p.
      apply Qabs_case; intros; revert Hf; apply Qabs_case; intros;
        apply Qabs_case; intros; apply Qabs_case; intros; lra.
    + eapply Qle_trans; [apply (round_grid q (2 ^ 52) H)|]. fold e.
      rewrite E52. revert Hlow Hf.
      generalize (pow2 (e + 52)). intros p.
      apply Qabs_case; intros; revert Hf; apply Qabs_case; intros;
        apply Qabs_case; intros; apply Qabs_case; intros; lra.
Qed.

Lemma zero_is_double : is_double 0.
Proof.
  exists 0%Z, 0%Z. repeat split; try lia. 
Qed.

Lemma is_double_eq (a b : Q) : a == b -> is_double a -> is_double b.
Proof.
  intros E (m & e & He & Hm & Ea). exists m, e.
  split; [exact He|]. split; [exact Hm|]. rewrite <- E. exact Ea.
Qed.

(** The rounded value is a double. *)
Lemma round_is_double (q : Q) : is_double (round q).
Proof.
  destruct (Qeq_dec q 0) as [E0|H].
  { rewrite (round_zero q E0). apply zero_is_double. }
  set (e := ulp_exponent q). pose proof (pow2_pos e) as He.
  pose proof (ulp_exponent_upper q H) as Hup. fold e in Hup.
  pose proof (ulp_exponent_min q) as Hmin. fold e in Hmin.
  set (x := q / pow2 e).
  assert (Hx : Qabs x < pow2 53).
  { unfold x, Qdiv. rewrite Qabs_scale by (apply Qinv_lt_0_compat; exact He).
    apply Qlt_shift_div_r; [exact He|].
    rewrite <- pow2_plus. replace (53 + e)%Z with (e + 53)%Z by lia.
    exact Hup. }
  assert (Hk : (- 2 ^ 53 <= nearest_even x <= 2 ^ 53)%Z).
  { pose proof (Qfloor_le x) as Hlo. pose proof (Qlt_floor x) as Hhi.
    rewrite <- pow2_Z in Hx by lia.
    assert (Hf : (- 2 ^ 53 <= Qfloor x < 2 ^ 53)%Z).
    { split.
      - assert (inject_Z (- 2 ^ 53) < inject_Z (Qfloor x + 1)).
        { eapply Qle_lt_trans; [|exact Hhi]. rewrite inject_Z_opp.
          revert Hx. apply Qabs_case; intros; lra. }
        rewrite <- Zlt_Qlt in H0. lia.
      - rewrite Zlt_Qlt. eapply Qle_lt_trans; [exact Hlo|].
        revert Hx. apply Qabs_case; intros; lra. }
    destruct (nearest_even_floor x) as [-> | ->]; lia. }
  apply (is_double_eq (inject_Z (nearest_even x) * pow2 e));
    [symmetry; apply (round_eq q H)|].
  destruct (Z.eq_dec (Z.abs (nearest_even x)) (2 ^ 53)%Z) as [Eabs|Nabs].
  - exists (nearest_even x / 2)%Z, (e + 1)%Z.
    split; [lia|]. split.
    + assert ((nearest_even x = 2 ^ 53)%Z \/ (nearest_even x = - 2 ^ 53)%Z)
        as [-> | ->] by lia; reflexivity.
    + rewrite pow2_succ.
      assert (E : inject_Z (nearest_even x)
                  == inject_Z (nearest_even x / 2) * 2).
      { assert ((nearest_even x = 2 ^ 53)%Z \/ (nearest_even x = - 2 ^ 53)%Z)
          as [-> | ->] by lia; reflexivity. }
      rewrite E. ring.
  - exists (nearest_even x), e. split; [exact Hmin|]. split; [lia|].
    reflexivity.
Qed.

(** A double is its own rounding. *)
Lemma round_double (f : Q) : is_double f -> round f == f.
Proof.
  intros H. pose proof (round_nearest f f H) as Hn.
  revert Hn. apply Qabs_case; intros; revert Hn; apply Qabs_case; intros;
    lra.
Qed.

(** Adding what is not negative to a double does not give less, and
    taking it away does not give more. *)
Lemma round_add_ge (a b : Q) : is_double a -> 0 <= b -> a <= round (a + b).
Proof.
  intros Ha Hb. pose proof (round_nearest (a + b) a Ha) as Hn.
  revert Hn. apply Qabs_case; intros; revert Hn; apply Qabs_case; intros;
    lra.
Qed.

Lemma round_sub_le (a b : Q) : is_double a -> 0 <= b -> round (a - b) <= a.
Proof.
  intros Ha Hb. pose proof (round_nearest (a - b) a Ha) as Hn.
  revert Hn. apply Qabs_case; intros; revert Hn; apply Qabs_case; intros;
    lra.
Qed.

(** Rounding keeps the sign. *)
Lemma round_nonneg (q : Q) : 0 <= q -> 0 <= round q.
Proof.
  intros Hq. pose proof (round_nearest q 0 zero_is_double) as Hn.
  revert Hn. apply Qabs_case; intros; revert Hn; apply Qabs_case; intros;
    lra.
Qed.

(** *** Numbers *)

Lemma of_Q_cases (q : Q) :
  (of_Q q = PosInf /\ 0 <= q)
  \/ (of_Q q = NegInf /\ q < 0)
  \/ of_Q q = Num (round q).
Proof.
  unfold of_Q. destruct (Qle_bool (pow2 1024) (Qabs (round q))); [|auto].
  destruct (Qle_bool 0 q) eqn:E.
  - left. apply Qle_bool_iff in E. auto.
  - right. left. split; [reflexivity|]. apply Qnot_le_lt. intros H.
    apply Qle_bool_iff in H. congruence.
Qed.

(** The number of a rational that is not negative is a time. *)
Lemma of_Q_time (q : Q) : 0 <= q -> is_time (of_Q q).
Proof.
  intros H. destruct (of_Q_cases q) as [[-> _] | [[_ Hn] | ->]].
  - exact I.
  - lra.
  - split; [apply round_is_double | apply round_nonneg, H].
Qed.

(** The number of any rational is an infinity or a double. *)
Lemma of_Q_double (q : Q) :
  match of_Q q with
  | NaN => False
  | Num r => is_double r
  | _ => True
  end.
Proof.
  destruct (of_Q_cases q) as [[-> _] | [[-> _] | ->]]; try exact I.
  apply round_is_double.
Qed.

Lemma le_refl (x : number) : x <> NaN -> le x x.
Proof.
  unfold le. destruct x; cbn; try congruence.
  intros _. apply Qle_bool_iff, Qle_refl.
Qed.

Lemma le_trans (x y z : number) : le x y -> le y z -> le x z.
Proof.
  unfold le. destruct x, y, z; cbn; try congruence.
  rewrite !Qle_bool_iff. apply Qle_trans.
Qed.

Lemma le_inv (a b : Q) : le (Num a) (Num b) <-> a <= b.
Proof.
  unfold le. cbn. apply Qle_bool_iff.
Qed.

Lemma leb_false (x y : number) :
  x <> NaN -> y <> NaN -> leb x y = false -> le y x.
Proof.
  unfold le. destruct x, y; cbn; try congruence.
  intros _ _ H. apply Qle_bool_iff, Qlt_le_weak, Qnot_le_lt.
  intros Hle. apply Qle_bool_iff in Hle. congruence.
Qed.

Lemma is_time_not_NaN (x : number) : is_time x -> x <> NaN.
Proof.
  destruct x; cbn; try tauto; discriminate.
Qed.

(** [Math.max] of a time and of the number of a rational: a time, and
    not less than either. *)
Lemma max_time (x : number) (q : Q) :
  is_time x ->
  is_time (max x (of_Q q))
  /\ le x (max x (of_Q q))
  /\ le (of_Q q) (max x (of_Q q)).
Proof.
  intros Hx. pose proof (of_Q_double q) as Hq.
  pose proof (is_time_not_NaN x Hx) as Hn.
  assert (Hy : of_Q q <> NaN) by (destruct (of_Q q); [contradiction | discriminate..]).
  assert (E : max x (of_Q q) = if leb x (of_Q q) then of_Q q else x).
  { destruct x, (of_Q q); try reflexivity; congruence. }
  rewrite E. destruct (leb x (of_Q q)) eqn:El.
  - split; [|split; [exact El | apply le_refl, Hy]].
    destruct x as [| | |a], (of_Q q) as [| | |b]; cbn in *;
      try contradiction; try discriminate; try exact I.
    apply Qle_bool_iff in El. destruct Hx as [_ Ha]. split; [exact Hq | lra].
  - split; [exact Hx|]. split; [apply le_refl, Hn|].
    apply leb_false; assumption.
Qed.

(** Adding a duration to a time: a time, and not an earlier one. *)
Lemma add_time (x : number) (d : Q) :
  is_time x -> 0 <= d ->
  is_time (add x (of_Q d)) /\ le x (add x (of_Q d)).
Proof.
  intros Hx Hd. pose proof (of_Q_time d Hd) as Ht.
  destruct x as [| | |a]; cbn in Hx; try contradiction.
  - destruct (of_Q d); cbn in *; try contradiction;
      (split; [exact I | reflexivity]).
  - destruct Hx as [Ha Ha0].
    destruct (of_Q d) as [| | |b]; cbn in Ht |- *; try contradiction.
    + split; [exact I | reflexivity].
    + destruct Ht as [Hb Hb0].
      destruct (of_Q_cases (a + b)) as [[-> _] | [[_ Hn] | ->]].
      * split; [exact I | reflexivity].
      * lra.
      * split.
        -- split; [apply round_is_double | apply round_nonneg; lra].
        -- apply le_inv, round_add_ge; assumption.
Qed.

(** A double is a multiple of the smallest one. *)
Lemma double_on_grid (a : Q) :
  is_double a -> exists k : Z, a == inject_Z k * pow2 (-1074).
Proof.
  intros (m & e & He & _ & E). exists (m * 2 ^ (e + 1074))%Z.
  rewrite E, inject_Z_mult, pow2_Z by lia.
  replace e with (e + 1074 + -1074)%Z at 1 by lia.
  rewrite pow2_plus. ring.
Qed.

(** The nearest integer is within a half. *)
Lemma nearest_even_half (x : Q) :
  Qabs (x - inject_Z (nearest_even x)) <= 1 # 2.
Proof.
  pose proof (nearest_even_spec x (Qfloor x)) as Hlo.
  pose proof (nearest_even_spec x (Qfloor x + 1)) as Hhi.
  pose proof (Qfloor_le x) as Hfl. pose proof (Qlt_floor x) as Hfu.
  rewrite inject_Z_plus in Hhi, Hfu.
  change (inject_Z 1) with 1 in Hhi, Hfu.
  assert (H1 : Qabs (x - inject_Z (Qfloor x)) <= x - inject_Z (Qfloor x))
    by (apply Qabs_case; intros; lra).
  assert (H2 : Qabs (x - (inject_Z (Qfloor x) + 1))
               <= inject_Z (Qfloor x) + 1 - x)
    by (apply Qabs_case; intros; lra).
  lra.
Qed.

(** The sum of two doubles is rounded with a relative error of at most
    [2^-53]. *)
Lemma round_sum_error (a b : Q) :
  is_double a -> is_double b ->
  Qabs (a + b - round (a + b)) <= Qabs (a + b) * (1 # 9007199254740992).
Proof.
  intros Ha Hb. set (q := a + b).
  assert (Hp : 0 <= Qabs q * (1 # 9007199254740992)).
  { pose proof (Qabs_nonneg q). nra. }
  destruct (Qeq_dec q 0) as [E|E].
  { rewrite (round_zero q E).
    assert (E' : q - 0 == 0) by lra. rewrite E'. exact Hp. }
  destruct (Z_le_gt_dec (ulp_exponent q) (-1074)) as [Hsub|Hnorm].
  - assert (He : ulp_exponent q = (-1074)%Z)
      by (pose proof (ulp_exponent_min q); lia).
    destruct (double_on_grid a Ha) as [ka Eka].
    destruct (double_on_grid b Hb) as [kb Ekb].
    pose proof (round_grid q (ka + kb) E) as Hg.
    rewrite He, inject_Z_plus in Hg.
    assert (E0 : q - (inject_Z ka + inject_Z kb) * pow2 (-1074) == 0)
      by (unfold q; rewrite Eka, Ekb; ring).
    rewrite E0 in Hg. change (Qabs 0) with 0 in Hg. lra.
  - pose proof (ulp_exponent_lower q E ltac:(lia)) as Hlow.
    set (e := ulp_exponent q) in *. pose proof (pow2_pos e) as He.
    rewrite (round_eq q E). fold e.
    assert (Ex : q - inject_Z (nearest_even (q / pow2 e)) * pow2 e
                 == (q / pow2 e - inject_Z (nearest_even (q / pow2 e)))
                    * pow2 e)
      by (field; lra).
    rewrite Ex, Qabs_scale by exact He.
    pose proof (nearest_even_half (q / pow2 e)) as Hh.
    pose proof (Qabs_nonneg (q / pow2 e
                             - inject_Z (nearest_even (q / pow2 e)))) as Hn.
    assert (E52 : pow2 (e + 52) == pow2 e * 4503599627370496).
    { rewrite pow2_plus. apply Qmult_comp; [reflexivity|].
      vm_compute. reflexivity. }
    rewrite E52 in Hlow.
    set (r := Qabs (q / pow2 e - inject_Z (nearest_even (q / pow2 e)))) in *.
    set (p := pow2 e) in *. set (m := Qabs q) in *.
    assert (r * p <= (1 # 2) * p) by (apply Qmult_le_compat_r; lra).
    lra.
Qed.

Lemma zero_time : is_time (Num 0).
Proof.
  split; [apply zero_is_double | apply Qle_refl].
Qed.

End DoubleFacts.

(** The rounding of [Double] against the doubles of the kernel, on the
    literals and on sums and differences that the component meets. *)
Section KernelDoubles.
Import PrimFloat.
#[local] Set Warnings "-inexact-float".

Example literals_as_kernel :
  Double.of_float 0.02 = Double.of_Q 0.02
  /\ Double.of_float 0.04 = Double.of_Q 0.04
  /\ Double.of_float 0.10 = Double.of_Q 0.10
  /\ Double.of_float 0.039999999999999994 = Double.sub (Double.of_Q 0.06)
                                              (Double.of_Q 0.02)
  /\ Double.of_float 0x1p-1074 = Double.of_Q (Double.pow2 (-1074))
  /\ Double.of_float 0x1.fffffffffffffp+1023
     = Double.of_Q (Double.pow2 1024 - Double.pow2 971).
Proof.
  repeat split; vm_compute; reflexivity.
Qed.

Example sums_as_kernel :
  Double.of_float (0.06 + 0.02)
  = Double.add (Double.of_float 0.06) (Double.of_float 0.02)
  /\ Double.of_float (0.1 - 0.02)
     = Double.sub (Double.of_float 0.1) (Double.of_float 0.02)
  /\ Double.of_float (0.5 + 0.1)
     = Double.add (Double.of_float 0.5) (Double.of_float 0.1)
  /\ Double.of_float (0.1 + 0.2)
     = Double.add (Double.of_float 0.1) (Double.of_float 0.2)
  /\ Double.of_float (1 + 0x1p-53)
     = Double.add (Double.of_float 1) (Double.of_float 0x1p-53)
  /\ Double.of_float (1 + 0x1.8p-52)
     = Double.add (Double.of_float 1) (Double.of_float 0x1.8p-52)
  /\ Double.of_float (0x1p-1074 + 0x1p-1074)
     = Double.add (Double.of_float 0x1p-1074) (Double.of_float 0x1p-1074)
  /\ Double.of_float (0x1.fffffffffffffp+1023 + 0x1p+970)
     = Double.add (Double.of_float 0x1.fffffffffffffp+1023)
                  (Double.of_float 0x1p+970)
  /\ Double.of_float (0x1.fffffffffffffp+1023 + 0x1p+969)
     = Double.add (Double.of_float 0x1.fffffffffffffp+1023)
                  (Double.of_float 0x1p+969)
  /\ Double.of_float (2400 / 24000) = Double.of_Q (2400 / 24000)
  /\ Double.of_float (1 / 24000) = Double.of_Q (1 / 24000).
Proof.
  repeat split; vm_compute; reflexivity.
Qed.

End KernelDoubles.

(** ** The voice interface *)
Section VoiceInterfaceFacts.
Import Js AudioUtils VoiceInterface.
Local Open Scope Q_scope.

Lemma jsstring_eqb_eq (a b : jsstring) : jsstring_eqb a b = true <-> a = b.
Proof.
  revert b. induction a as [|x a IH]; intros [|y b]; cbn; try easy.
  rewrite andb_true_iff, N.eqb_eq, IH. split.
  - intros [-> ->]. reflexivity.
  - intros [= -> ->]. auto.
Qed.

(** Reading a field through the field updates. *)
Ltac fields :=
  cbn [isActive transcriptions isConnecting status selectedAccent
       isMicMuted showTranslations isTranslating detectedAccentConfidence
       typingSpeedDelay isAutoAccentDetectionEnabled mediaStreamRef
       nextStartTimeRef sourcesRef currentAiTranscription
       currentUserTranscription localStorage started sent fst snd
       set_isActive set_transcriptions set_isConnecting set_status
       set_selectedAccent set_isMicMuted set_showTranslations
       set_isTranslating set_detectedAccentConfidence set_typingSpeedDelay
       set_isAutoAccentDetectionEnabled set_mediaStreamRef
       set_nextStartTimeRef set_sourcesRef set_currentAiTranscription
       set_currentUserTranscription set_localStorage set_started set_sent
       sendToolResponse stopSession].

Ltac fields_in H :=
  cbn [isActive transcriptions isConnecting status selectedAccent
       isMicMuted showTranslations isTranslating detectedAccentConfidence
       typingSpeedDelay isAutoAccentDetectionEnabled mediaStreamRef
       nextStartTimeRef sourcesRef currentAiTranscription
       currentUserTranscription localStorage started sent fst snd
       set_isActive set_transcriptions set_isConnecting set_status
       set_selectedAccent set_isMicMuted set_showTranslations
       set_isTranslating set_detectedAccentConfidence set_typingSpeedDelay
       set_isAutoAccentDetectionEnabled set_mediaStreamRef
       set_nextStartTimeRef set_sourcesRef set_currentAiTranscription
       set_currentUserTranscription set_localStorage set_started set_sent
       sendToolResponse stopSession] in H.

Create Rewrite HintDb frame.

(** A field that a handler leaves alone: read it through the updates and
    through the handlers already treated, splitting on the tests met on
    the way. *)
Ltac frame :=
  cbn zeta;
  repeat first [ progress fields
               | progress autorewrite with frame
               | case_match ];
  try reflexivity.

(** *** Fields that the handlers leave alone *)

Section AddTranscriptionFrame.
Variables (env : Env) (t : jsstring) (r : Role) (v : option bool)
  (tr : option jsstring) (s : State).

Lemma addTranscription_typingSpeedDelay :
  typingSpeedDelay (addTranscription env t r v tr s) = typingSpeedDelay s.
Proof.
  unfold addTranscription. frame.
Qed.

Lemma addTranscription_localStorage :
  localStorage (addTranscription env t r v tr s) = localStorage s.
Proof.
  unfold addTranscription. frame.
Qed.

Lemma addTranscription_nextStartTimeRef :
  nextStartTimeRef (addTranscription env t r v tr s) = nextStartTimeRef s.
Proof.
  unfold addTranscription. frame.
Qed.

Lemma addTranscription_started :
  started (addTranscription env t r v tr s) = started s.
Proof.
  unfold addTranscription. frame.
Qed.

Lemma addTranscription_isMicMuted :
  isMicMuted (addTranscription env t r v tr s) = isMicMuted s.
Proof.
  unfold addTranscription. frame.
Qed.

Lemma addTranscription_selectedAccent :
  selectedAccent (addTranscription env t r v tr s) = selectedAccent s.
Proof.
  unfold addTranscription. frame.
Qed.

Lemma addTranscription_detectedAccentConfidence :
  detectedAccentConfidence (addTranscription env t r v tr s)
  = detectedAccentConfidence s.
Proof.
  unfold addTranscription. frame.
Qed.

Lemma addTranscription_mediaStreamRef :
  mediaStreamRef (addTranscription env t r v tr s) = mediaStreamRef s.
Proof.
  unfold addTranscription. frame.
Qed.

Lemma addTranscription_isActive :
  isActive (addTranscription env t r v tr s) = isActive s.
Proof.
  unfold addTranscription. frame.
Qed.

Lemma addTranscription_isConnecting :
  isConnecting (addTranscription env t r v tr s) = isConnecting s.
Proof.
  unfold addTranscription. frame.
Qed.

Lemma addTranscription_status :
  status (addTranscription env t r v tr s) = status s.
Proof.
  unfold addTranscription. frame.
Qed.

End AddTranscriptionFrame.

Hint Rewrite addTranscription_typingSpeedDelay addTranscription_localStorage
  addTranscription_nextStartTimeRef addTranscription_started
  addTranscription_isMicMuted addTranscription_selectedAccent
  addTranscription_detectedAccentConfidence addTranscription_mediaStreamRef
  addTranscription_isActive addTranscription_isConnecting
  addTranscription_status : frame.

Section TranslateFullConversationFrame.
Variables (env : Env) (s : State).

Lemma translateFullConversation_typingSpeedDelay :
  typingSpeedDelay (translateFullConversation env s) = typingSpeedDelay s.
Proof.
  unfold translateFullConversation. frame.
Qed.

Lemma translateFullConversation_localStorage :
  localStorage (translateFullConversation env s) = localStorage s.
Proof.
  unfold translateFullConversation. frame.
Qed.

Lemma translateFullConversation_nextStartTimeRef :
  nextStartTimeRef (translateFullConversation env s) = nextStartTimeRef s.
Proof.
  unfold translateFullConversation. frame.
Qed.

Lemma translateFullConversation_started :
  started (translateFullConversation env s) = started s.
Proof.
  unfold translateFullConversation. frame.
Qed.

Lemma translateFullConversation_isMicMuted :
  isMicMuted (translateFullConversation env s) = isMicMuted s.
Proof.
  unfold translateFullConversation. frame.
Qed.

Lemma translateFullConversation_selectedAccent :
  selectedAccent (translateFullConversation env s) = selectedAccent s.
Proof.
  unfold translateFullConversation. frame.
Qed.

Lemma translateFullConversation_detectedAccentConfidence :
  detectedAccentConfidence (translateFullConversation env s)
  = detectedAccentConfidence s.
Proof.
  unfold translateFullConversation. frame.
Qed.

Lemma translateFullConversation_mediaStreamRef :
  mediaStreamRef (translateFullConversation env s) = mediaStreamRef s.
Proof.
  unfold translateFullConversation. frame.
Qed.

End TranslateFullConversationFrame.

Hint Rewrite translateFullConversation_typingSpeedDelay
  translateFullConversation_localStorage
  translateFullConversation_nextStartTimeRef
  translateFullConversation_started translateFullConversation_isMicMuted
  translateFullConversation_selectedAccent
  translateFullConversation_detectedAccentConfidence
  translateFullConversation_mediaStreamRef : frame.

Section HandleFunctionCallFrame.
Variables (env : Env) (s : State) (fc : FunctionCall).

Lemma handleFunctionCall_localStorage :
  localStorage (handleFunctionCall env s fc) = localStorage s.
Proof.
  unfold handleFunctionCall. frame.
Qed.

Lemma handleFunctionCall_nextStartTimeRef :
  nextStartTimeRef (handleFunctionCall env s fc) = nextStartTimeRef s.
Proof.
  unfold handleFunctionCall. frame.
Qed.

Lemma handleFunctionCall_started :
  started (handleFunctionCall env s fc) = started s.
Proof.
  unfold handleFunctionCall. frame.
Qed.

End HandleFunctionCallFrame.

Hint Rewrite handleFunctionCall_localStorage
  handleFunctionCall_nextStartTimeRef handleFunctionCall_started : frame.

Section OnTurnCompleteFrame.
Variables (env : Env) (s : State).

Lemma onTurnComplete_typingSpeedDelay :
  typingSpeedDelay (onTurnComplete env s) = typingSpeedDelay s.
Proof.
  unfold onTurnComplete. frame.
Qed.

Lemma onTurnComplete_localStorage :
  localStorage (onTurnComplete env s) = localStorage s.
Proof.
  unfold onTurnComplete. frame.
Qed.

Lemma onTurnComplete_nextStartTimeRef :
  nextStartTimeRef (onTurnComplete env s) = nextStartTimeRef s.
Proof.
  unfold onTurnComplete. frame.
Qed.

Lemma onTurnComplete_started :
  started (onTurnComplete env s) = started s.
Proof.
  unfold onTurnComplete. frame.
Qed.

End OnTurnCompleteFrame.

Hint Rewrite onTurnComplete_typingSpeedDelay onTurnComplete_localStorage
  onTurnComplete_nextStartTimeRef onTurnComplete_started : frame.

Section OnTranscriptionFrame.
Variables (message : Message) (s : State).

Lemma onTranscription_typingSpeedDelay :
  typingSpeedDelay (onTranscription message s) = typingSpeedDelay s.
Proof.
  unfold onTranscription. frame.
Qed.

Lemma onTranscription_localStorage :
  localStorage (onTranscription message s) = localStorage s.
Proof.
  unfold onTranscription. frame.
Qed.

Lemma onTranscription_nextStartTimeRef :
  nextStartTimeRef (onTranscription message s) = nextStartTimeRef s.
Proof.
  unfold onTranscription. frame.
Qed.

Lemma onTranscription_started :
  started (onTranscription message s) = started s.
Proof.
  unfold onTranscription. frame.
Qed.

Lemma onTranscription_transcriptions :
  transcriptions (onTranscription message s) = transcriptions s.
Proof.
  unfold onTranscription. frame.
Qed.

End OnTranscriptionFrame.

Hint Rewrite onTranscription_typingSpeedDelay onTranscription_localStorage
  onTranscription_nextStartTimeRef onTranscription_started
  onTranscription_transcriptions : frame.

Section OnStartFailureFrame.
Variables (env : Env) (err : Failure) (s : State).

Lemma onStartFailure_typingSpeedDelay :
  typingSpeedDelay (onStartFailure env err s) = typingSpeedDelay s.
Proof.
  unfold onStartFailure. frame.
Qed.

Lemma onStartFailure_localStorage :
  localStorage (onStartFailure env err s) = localStorage s.
Proof.
  unfold onStartFailure. frame.
Qed.

Lemma onStartFailure_nextStartTimeRef :
  nextStartTimeRef (onStartFailure env err s) = nextStartTimeRef s.
Proof.
  unfold onStartFailure. frame.
Qed.

Lemma onStartFailure_started :
  started (onStartFailure env err s) = started s.
Proof.
  unfold onStartFailure. frame.
Qed.

End OnStartFailureFrame.

Hint Rewrite onStartFailure_typingSpeedDelay onStartFailure_localStorage
  onStartFailure_nextStartTimeRef onStartFailure_started : frame.

Section StartSessionFrame.
Variables (seen : State) (env : Env) (startup : Startup) (s : State).

Lemma startSession_typingSpeedDelay :
  typingSpeedDelay (startSession seen env startup s) = typingSpeedDelay s.
Proof.
  unfold startSession. frame.
Qed.

Lemma startSession_localStorage :
  localStorage (startSession seen env startup s) = localStorage s.
Proof.
  unfold startSession. frame.
Qed.

Lemma startSession_nextStartTimeRef :
  nextStartTimeRef (startSession seen env startup s) = nextStartTimeRef s.
Proof.
  unfold startSession. frame.
Qed.

Lemma startSession_started :
  started (startSession seen env startup s) = started s.
Proof.
  unfold startSession. frame.
Qed.

End StartSessionFrame.

Hint Rewrite startSession_typingSpeedDelay startSession_localStorage
  startSession_nextStartTimeRef startSession_started : frame.

Section OnopenFrame.
Variables (env : Env) (initialText : option jsstring) (s : State).

Lemma onopen_typingSpeedDelay :
  typingSpeedDelay (onopen env initialText s) = typingSpeedDelay s.
Proof.
  unfold onopen. frame.
Qed.

Lemma onopen_localStorage :
  localStorage (onopen env initialText s) = localStorage s.
Proof.
  unfold onopen. frame.
Qed.

Lemma onopen_nextStartTimeRef :
  nextStartTimeRef (onopen env initialText s) = nextStartTimeRef s.
Proof.
  unfold onopen. frame.
Qed.

Lemma onopen_started :
  started (onopen env initialText s) = started s.
Proof.
  unfold onopen. frame.
Qed.

End OnopenFrame.

Hint Rewrite onopen_typingSpeedDelay onopen_localStorage
  onopen_nextStartTimeRef onopen_started : frame.


(** The state in which the audio part leaves the handler, thrown or
    not. *)
Lemma onAudio_frame (env : Env) (message : Message) (s r : State) :
  onAudio env message s = inl r \/ onAudio env message s = inr r ->
  typingSpeedDelay r = typingSpeedDelay s
  /\ localStorage r = localStorage s
  /\ transcriptions r = transcriptions s.
Proof.
  unfold onAudio, playAudio. cbn zeta.
  intros [H|H]; repeat case_match; simplify_eq; fields; auto.
Qed.

Lemma fold_handleFunctionCall (P : State -> Prop) (Q : FunctionCall -> Prop)
    (env : Env) (calls : list FunctionCall) (s : State) :
  (forall s fc, Q fc -> P s -> P (handleFunctionCall env s fc)) ->
  Forall Q calls ->
  P s -> P (fold_left (handleFunctionCall env) calls s).
Proof.
  intros Hstep Hcalls. revert s.
  induction Hcalls as [|fc calls Hfc _ IH]; intros s Hs; [exact Hs|].
  cbn [fold_left]. apply IH, Hstep; assumption.
Qed.

(** A property of the state that each part of [onmessage] keeps is kept
    by [onmessage]; [Q] is what is known of the function calls of the
    message. *)
Lemma onmessage_keeps_calls (P : State -> Prop) (Q : FunctionCall -> Prop)
    (env : Env) (message : Message) (s : State) :
  (forall s fc, Q fc -> P s -> P (handleFunctionCall env s fc)) ->
  (forall calls, toolCall message = Some calls -> Forall Q calls) ->
  (forall s, P s -> P (onTranscription message s)) ->
  (forall s r, P s ->
     onAudio env message s = inl r \/ onAudio env message s = inr r -> P r) ->
  (forall s, P s -> P (onTurnComplete env s)) ->
  P s -> P (onmessage env message s).
Proof.
  intros Hcall HQ Htr Haudio Hturn Hs. unfold onmessage. cbn zeta.
  assert (H1 : P (onToolCall env message s)).
  { unfold onToolCall. destruct (toolCall message) as [calls|]; [|exact Hs].
    apply (fold_handleFunctionCall P Q); auto. }
  apply Htr in H1.
  destruct (onAudio env message (onTranscription message
                                   (onToolCall env message s)))
    as [r|r] eqn:E.
  - apply (Haudio _ r H1). left. exact E.
  - assert (P r) by (apply (Haudio _ r H1); right; exact E).
    destruct (turnComplete message); auto.
Qed.

Lemma onmessage_keeps (P : State -> Prop) (env : Env) (message : Message)
    (s : State) :
  (forall s fc, P s -> P (handleFunctionCall env s fc)) ->
  (forall s, P s -> P (onTranscription message s)) ->
  (forall s r, P s ->
     onAudio env message s = inl r \/ onAudio env message s = inr r -> P r) ->
  (forall s, P s -> P (onTurnComplete env s)) ->
  P s -> P (onmessage env message s).
Proof.
  intros Hcall. apply (onmessage_keeps_calls P (fun _ => True)).
  - intros s0 fc _. apply Hcall.
  - intros calls _. apply Forall_forall. auto.
Qed.

(** A property that every transition keeps holds along every run. *)
Lemma run_invariant (P : State -> Prop) :
  (forall s ev, P s -> P (step s ev)) ->
  forall s evs, P s -> P (run s evs).
Proof.
  intros Hstep s evs. revert s.
  induction evs as [|ev evs IH]; intros s H; [exact H|].
  cbn [run fold_left]. apply IH, Hstep, H.
Qed.

(** Comparisons of two literal names are decided by computation. *)
Ltac literal_names :=
  repeat match goal with
         | |- context [jsstring_eqb (js ?a) (js ?b)] =>
             let v := eval vm_compute in (jsstring_eqb (js a) (js b)) in
             change (jsstring_eqb (js a) (js b)) with v
         end.

(** A message that carries function calls only runs the calls. *)
Lemma onmessage_toolCalls (env : Env) (calls : list FunctionCall)
    (s : State) :
  onmessage env (toolCallMessage calls) s
  = fold_left (handleFunctionCall env) calls s.
Proof.
  reflexivity.
Qed.

Lemma run_app (s : State) (a b : list (Env * Event)) :
  run s (a ++ b) = run (run s a) b.
Proof.
  apply fold_left_app.
Qed.

(** *** Handlers that wait *)

Lemma translateFullConversation_halves (env : Env) (s : State) :
  translateFullConversation env s
  = translationAnswered env (translationAsked s).
Proof.
  reflexivity.
Qed.

(** The branch of [translate_conversation] in the loop, the answer being
    there at once. *)
Lemma handleFunctionCall_translate (env : Env) (s : State)
    (fc : FunctionCall) :
  name fc = js "translate_conversation" ->
  handleFunctionCall env s fc
  = sendToolResponse fc (TextResult (js "translated"))
      (translationAnswered env (translationAsked s)).
Proof.
  intros Hn. unfold handleFunctionCall. rewrite Hn. literal_names.
  reflexivity.
Qed.

Lemma onmessage_afterToolCalls (env : Env) (message : Message) (s : State) :
  onmessage env message s
  = afterToolCalls env message (onToolCall env message s).
Proof.
  reflexivity.
Qed.

Lemma live_run_app (l : Live) (a b : list (Env * LiveEvent)) :
  live_run l (a ++ b) = live_run (live_run l a) b.
Proof.
  apply fold_left_app.
Qed.

(** When each translation is answered as soon as it is asked for, the
    handler does what [onmessage] does in one step. *)
Lemma answered_at_once (env : Env) (message : Message)
    (calls : list FunctionCall) (l : Live) :
  live_run (callsFrom env message calls l)
    (repeat (env, TranslationAnswered (List.length (waiting l)))
       (List.length
          (List.filter
             (fun fc => jsstring_eqb (name fc) (js "translate_conversation"))
             calls)))
  = {| current := afterToolCalls env message
                    (fold_left (handleFunctionCall env) calls (current l));
       waiting := waiting l;
       handled := handled l ++ calls |}.
Proof.
  revert l. induction calls as [|fc rest IH]; intros l.
  - cbn. rewrite app_nil_r. reflexivity.
  - cbn [callsFrom List.filter fold_left].
    specialize (IH {| current := handleFunctionCall env (current l) fc;
                      waiting := waiting l;
                      handled := handled l ++ [fc] |}).
    cbn [current waiting handled] in IH.
    rewrite <- app_assoc in IH. cbn [app] in IH.
    destruct (jsstring_eqb (name fc) (js "translate_conversation")) eqn:E.
    + apply jsstring_eqb_eq in E.
      cbn [List.length repeat live_run fold_left live_step fst snd].
      unfold translationArrives. cbn [current waiting handled].
      rewrite list_lookup_middle by reflexivity.
      cbn zeta. cbn [asking behind waiting_message].
      rewrite delete_middle, app_nil_r.
      rewrite <- (handleFunctionCall_translate env (current l) fc E).
      exact IH.
    + exact IH.
Qed.

(** A message without a [translate_conversation] call is handled in one
    step. *)
Lemma callsFrom_no_translation (env : Env) (message : Message)
    (calls : list FunctionCall) (l : Live) :
  existsb (fun fc => jsstring_eqb (name fc) (js "translate_conversation"))
          calls = false ->
  callsFrom env message calls l
  = {| current := afterToolCalls env message
                    (fold_left (handleFunctionCall env) calls (current l));
       waiting := waiting l;
       handled := handled l ++ calls |}.
Proof.
  intros H. rewrite <- (answered_at_once env message calls l).
  replace (List.filter _ calls) with (@nil FunctionCall); [reflexivity|].
  symmetry. induction calls as [|fc rest IH]; [reflexivity|].
  cbn [existsb List.filter] in *. apply orb_false_iff in H as [-> H].
  apply IH, H.
Qed.

Lemma live_step_no_translation (l : Live) (env : Env) (e : Event) :
  translates e = false ->
  live_step l (env, Occurs e)
  = {| current := step (current l) (env, e);
       waiting := waiting l;
       handled := handled l ++ calls_in [(env, e)] |}.
Proof.
  intros H.
  destruct e as [startup | initialText | message | k | | |
                 | a | checked startup];
    cbn [live_step fst snd calls_in map List.concat app];
    rewrite ?app_nil_r; try reflexivity.
  unfold messageArrives. cbn [translates] in H. cbn [step fst snd].
  rewrite onmessage_afterToolCalls. unfold onToolCall.
  destruct (toolCall message) as [calls|].
  - apply callsFrom_no_translation, H.
  - cbn [callsFrom]. rewrite app_nil_r. reflexivity.
Qed.

Lemma live_calls_in_cons (ev : Env * LiveEvent)
    (evs : list (Env * LiveEvent)) :
  live_calls_in (ev :: evs) = live_calls_in [ev] ++ live_calls_in evs.
Proof.
  unfold live_calls_in. cbn [map List.concat]. rewrite app_nil_r.
  reflexivity.
Qed.

Lemma occurred_cons (ev : Env * LiveEvent) (evs : list (Env * LiveEvent)) :
  occurred (ev :: evs) = occurred [ev] ++ occurred evs.
Proof.
  unfold occurred. cbn [map List.concat]. rewrite app_nil_r.
  reflexivity.
Qed.

(** A run without a translation goes as [run] does. *)
Lemma live_run_no_translation (evs : list (Env * LiveEvent)) (l : Live) :
  no_translation evs -> waiting l = [] ->
  live_run l evs
  = {| current := run (current l) (occurred evs);
       waiting := [];
       handled := handled l ++ live_calls_in evs |}.
Proof.
  unfold no_translation. revert l.
  induction evs as [|ev evs IH]; intros l H Hw.
  - destruct l as [s w h]. cbn in *. subst w. rewrite app_nil_r.
    reflexivity.
  - rewrite occurred_cons in H |- *. apply Forall_app in H as [He H].
    rewrite live_calls_in_cons. cbn [live_run fold_left].
    fold (live_run (live_step l ev) evs).
    destruct ev as [env [e|k]].
    + assert (He' : translates e = false)
        by (apply (Forall_singleton _ (env, e)) in He; exact He).
      rewrite (live_step_no_translation l env e He').
      rewrite IH by assumption. cbn [current waiting handled].
      rewrite run_app, <- app_assoc.
      change (live_calls_in [(env, Occurs e)])
        with (calls_in [(env, e)] ++ []).
      rewrite app_nil_r. reflexivity.
    + assert (E : live_step l (env, TranslationAnswered k) = l).
      { cbn [live_step fst snd]. unfold translationArrives. rewrite Hw.
        reflexivity. }
      rewrite E, IH by assumption. reflexivity.
Qed.

(** The handlers that wait do so at a [translate_conversation] call. *)
Lemma callsFrom_asks (env : Env) (message : Message)
    (calls : list FunctionCall) (l : Live) :
  Forall (fun w => name (asking w) = js "translate_conversation")
         (waiting l) ->
  Forall (fun w => name (asking w) = js "translate_conversation")
         (waiting (callsFrom env message calls l)).
Proof.
  revert l. induction calls as [|fc rest IH]; intros l Hw; [exact Hw|].
  cbn [callsFrom].
  destruct (jsstring_eqb (name fc) (js "translate_conversation")) eqn:E.
  - apply jsstring_eqb_eq in E. cbn [waiting]. apply Forall_app.
    split; [exact Hw|]. apply Forall_singleton. exact E.
  - apply IH. exact Hw.
Qed.

Lemma live_step_asks (l : Live) (ev : Env * LiveEvent) :
  Forall (fun w => name (asking w) = js "translate_conversation")
         (waiting l) ->
  Forall (fun w => name (asking w) = js "translate_conversation")
         (waiting (live_step l ev)).
Proof.
  intros Hw. destruct ev as [env [e|k]]; cbn [live_step fst snd].
  - destruct e; try exact Hw. unfold messageArrives.
    destruct (toolCall message); apply callsFrom_asks, Hw.
  - unfold translationArrives. destruct (waiting l !! k); [|exact Hw].
    cbn zeta. apply callsFrom_asks. cbn [waiting].
    rewrite delete_take_drop. apply Forall_app. split.
    + apply Forall_take, Hw.
    + apply Forall_drop, Hw.
Qed.

(** [translateFullConversation] from the answer on does not read
    [isTranslating]. *)
Lemma translationAnswered_asked (env : Env) (s : State) :
  translationAnswered env (translationAsked s) = translationAnswered env s.
Proof.
  unfold translationAnswered, translationAsked, addTranscription.
  destruct s. cbn. repeat case_match; reflexivity.
Qed.

(** A property of the state that every handler keeps, and that does not
    depend on [isTranslating], holds along every run, handlers waiting
    or not. *)
Lemma callsFrom_keeps (P : State -> Prop) (env : Env) (message : Message)
    (calls : list FunctionCall) (l : Live) :
  (forall s ev, P s -> P (step s ev)) ->
  (forall s, P s -> P (translationAsked s)) ->
  P (current l) -> P (current (callsFrom env message calls l)).
Proof.
  intros Hstep Hasked. revert l.
  induction calls as [|fc rest IH]; intros l Hl.
  - cbn [callsFrom current].
    change (afterToolCalls env message (current l))
      with (step (current l)
              (env, MessageReceived
                      {| toolCall := None;
                         outputTranscription := outputTranscription message;
                         inputTranscription := inputTranscription message;
                         base64Audio := base64Audio message;
                         turnComplete := turnComplete message |})).
    apply Hstep, Hl.
  - cbn [callsFrom].
    destruct (jsstring_eqb (name fc) (js "translate_conversation")).
    + cbn [current]. apply Hasked, Hl.
    + apply IH. cbn [current].
      change (handleFunctionCall env (current l) fc)
        with (step (current l)
                (env, MessageReceived (toolCallMessage [fc]))).
      apply Hstep, Hl.
Qed.

Lemma live_step_keeps (P : State -> Prop) (l : Live)
    (ev : Env * LiveEvent) :
  (forall s ev, P s -> P (step s ev)) ->
  (forall s, P s -> P (translationAsked s)) ->
  Forall (fun w => name (asking w) = js "translate_conversation")
         (waiting l) ->
  P (current l) -> P (current (live_step l ev)).
Proof.
  intros Hstep Hasked Hw Hl. destruct ev as [env [e|k]];
    cbn [live_step fst snd].
  - destruct e; try (cbn [current]; apply Hstep, Hl).
    unfold messageArrives.
    destruct (toolCall message); apply callsFrom_keeps; assumption.
  - unfold translationArrives.
    destruct (waiting l !! k) as [w|] eqn:E; [|exact Hl].
    cbn zeta. apply callsFrom_keeps; [assumption..|]. cbn [current].
    assert (Hn : name (asking w) = js "translate_conversation").
    { rewrite Forall_lookup in Hw. exact (Hw k w E). }
    rewrite <- translationAnswered_asked.
    rewrite <- (handleFunctionCall_translate env (current l) (asking w) Hn).
    change (handleFunctionCall env (current l) (asking w))
      with (step (current l)
              (env, MessageReceived (toolCallMessage [asking w]))).
    apply Hstep, Hl.
Qed.

Lemma live_run_keeps (P : State -> Prop) :
  (forall s ev, P s -> P (step s ev)) ->
  (forall s, P s -> P (translationAsked s)) ->
  forall (evs : list (Env * LiveEvent)) (l : Live),
    Forall (fun w => name (asking w) = js "translate_conversation")
           (waiting l) ->
    P (current l) -> P (current (live_run l evs)).
Proof.
  intros Hstep Hasked evs.
  induction evs as [|ev evs IH]; intros l Hw Hl; [exact Hl|].
  cbn [live_run fold_left]. apply IH.
  - apply live_step_asks, Hw.
  - apply live_step_keeps; assumption.
Qed.

(** What holds along every run from the mounted component. *)
Lemma reached_keeps (P : State -> Prop) (readable : bool)
    (storage : gmap jsstring jsstring) (evs : list (Env * LiveEvent)) :
  (forall s ev, P s -> P (step s ev)) ->
  (forall s, P s -> P (translationAsked s)) ->
  P (mount readable storage) ->
  P (current (live_run (at_rest (mount readable storage)) evs)).
Proof.
  intros Hstep Hasked H0.
  apply (live_run_keeps P Hstep Hasked evs (at_rest (mount readable storage)));
    [apply Forall_nil_2 | exact H0].
Qed.

(** A run in which each translation is answered as soon as it is asked
    for goes as [run] does. *)
Lemma run_at_once (evs : list (Env * Event)) (l : Live) :
  current (live_run l (at_once (List.length (waiting l)) evs))
  = run (current l) evs
  /\ waiting (live_run l (at_once (List.length (waiting l)) evs))
     = waiting l.
Proof.
  revert l. induction evs as [|[env e] evs IH]; intros l; [auto|].
  unfold at_once. cbn [map List.concat fst snd]. fold (at_once (List.length (waiting l)) evs).
  change ((env, Occurs e) :: ?a ++ ?b) with (((env, Occurs e) :: a) ++ b).
  rewrite live_run_app.
  assert (E : live_run l
                ((env, Occurs e)
                 :: repeat (env, TranslationAnswered (List.length (waiting l)))
                      (translations e))
              = {| current := step (current l) (env, e);
                   waiting := waiting l;
                   handled := handled l ++ calls_in [(env, e)] |}).
  { destruct e as [startup | initialText | message | k | | |
                   | a | checked startup];
      cbn [translations repeat live_run fold_left live_step fst snd
           calls_in map List.concat app];
      rewrite ?app_nil_r; try reflexivity.
    unfold messageArrives. cbn [step fst snd].
    rewrite onmessage_afterToolCalls. unfold onToolCall.
    destruct (toolCall message) as [calls|].
    - apply (answered_at_once env message calls l).
    - cbn [List.length repeat fold_left callsFrom]. rewrite app_nil_r.
      reflexivity. }
  rewrite E.
  specialize (IH {| current := step (current l) (env, e);
                    waiting := waiting l;
                    handled := handled l ++ calls_in [(env, e)] |}).
  cbn [current waiting] in IH. exact IH.
Qed.

(** *** The typing delay *)

(** What [slow_typing_speed] does to each delay that can be reached:
    the new delay can be reached too, it is not below the old one nor
    above the maximum, and it exceeds the old one by no more than the
    step and a rounding error. *)
Lemma slow_delays (d : number) :
  In d typing_delays ->
  let d' := Double.min (Double.add d TYPING_SPEED_STEP)
                       MAX_TYPING_SPEED_DELAY in
  In d' typing_delays
  /\ Double.le d d'
  /\ exists q q' : Q,
       d = Num q /\ d' = Num q'
       /\ q' - q <= 0.02 + (1 # 144115188075855872).
Proof.
  unfold typing_delays. cbn [In]. cbn zeta.
  intros [<-|[<-|[<-|[<-|[<-|[<-|[]]]]]]];
    (split; [vm_compute; auto 10|]);
    (split; [vm_compute; reflexivity|]);
    eexists _, _;
    (split; [reflexivity|]);
    (split; [vm_compute; reflexivity|]);
    apply Qle_bool_imp_le; vm_compute; reflexivity.
Qed.

(** And [speed_up_typing_speed]. *)
Lemma speed_up_delays (d : number) :
  In d typing_delays ->
  let d' := Double.max (Double.sub d TYPING_SPEED_STEP)
                       MIN_TYPING_SPEED_DELAY in
  In d' typing_delays
  /\ Double.le d' d
  /\ exists q q' : Q,
       d = Num q /\ d' = Num q'
       /\ q - q' <= 0.02 + (1 # 144115188075855872).
Proof.
  unfold typing_delays. cbn [In]. cbn zeta.
  intros [<-|[<-|[<-|[<-|[<-|[<-|[]]]]]]];
    (split; [vm_compute; auto 10|]);
    (split; [vm_compute; reflexivity|]);
    eexists _, _;
    (split; [reflexivity|]);
    (split; [vm_compute; reflexivity|]);
    apply Qle_bool_imp_le; vm_compute; reflexivity.
Qed.

(** Every delay that can be reached lies between the two bounds. *)
Lemma delays_bounded (d : number) :
  In d typing_delays ->
  Double.le MIN_TYPING_SPEED_DELAY d /\ Double.le d MAX_TYPING_SPEED_DELAY.
Proof.
  unfold typing_delays. cbn [In].
  intros [<-|[<-|[<-|[<-|[<-|[<-|[]]]]]]];
    split; vm_compute; reflexivity.
Qed.

Lemma initial_delay : In (Double.of_Q 0.04) typing_delays.
Proof.
  vm_compute. auto.
Qed.

Lemma slow_call_delay (env : Env) (s : State) (fc : FunctionCall) :
  name fc = js "slow_typing_speed" ->
  typingSpeedDelay (handleFunctionCall env s fc)
  = Double.min (Double.add (typingSpeedDelay s) TYPING_SPEED_STEP)
               MAX_TYPING_SPEED_DELAY.
Proof.
  intros Hn. unfold handleFunctionCall. rewrite Hn. reflexivity.
Qed.

Lemma speed_up_call_delay (env : Env) (s : State) (fc : FunctionCall) :
  name fc = js "speed_up_typing_speed" ->
  typingSpeedDelay (handleFunctionCall env s fc)
  = Double.max (Double.sub (typingSpeedDelay s) TYPING_SPEED_STEP)
               MIN_TYPING_SPEED_DELAY.
Proof.
  intros Hn. unfold handleFunctionCall. rewrite Hn. reflexivity.
Qed.

Lemma other_call_delay (env : Env) (s : State) (fc : FunctionCall) :
  name fc <> js "slow_typing_speed" ->
  name fc <> js "speed_up_typing_speed" ->
  typingSpeedDelay (handleFunctionCall env s fc) = typingSpeedDelay s.
Proof.
  intros Hslow Hfast. unfold handleFunctionCall.
  destruct (jsstring_eqb (name fc) (js "slow_typing_speed")) eqn:Es;
    [apply jsstring_eqb_eq in Es; contradiction|].
  destruct (jsstring_eqb (name fc) (js "speed_up_typing_speed")) eqn:Ef;
    [apply jsstring_eqb_eq in Ef; contradiction|].
  frame.
Qed.

Lemma handleFunctionCall_delay_ok (env : Env) (s : State) (fc : FunctionCall) :
  delay_ok s -> delay_ok (handleFunctionCall env s fc).
Proof.
  unfold delay_ok. intros H.
  destruct (jsstring_eqb (name fc) (js "slow_typing_speed")) eqn:Es.
  { apply jsstring_eqb_eq in Es. rewrite (slow_call_delay env s fc Es).
    apply (slow_delays _ H). }
  destruct (jsstring_eqb (name fc) (js "speed_up_typing_speed")) eqn:Ef.
  { apply jsstring_eqb_eq in Ef. rewrite (speed_up_call_delay env s fc Ef).
    apply (speed_up_delays _ H). }
  rewrite other_call_delay; [exact H| |].
  - intros E. apply jsstring_eqb_eq in E. congruence.
  - intros E. apply jsstring_eqb_eq in E. congruence.
Qed.

Lemma delay_ok_frame (s s' : State) :
  typingSpeedDelay s' = typingSpeedDelay s -> delay_ok s -> delay_ok s'.
Proof.
  unfold delay_ok. intros ->. auto.
Qed.

Lemma stopSession_delay_ok (s : State) : delay_ok (stopSession s).
Proof.
  unfold delay_ok. fields. exact initial_delay.
Qed.

Lemma onmessage_delay_ok (env : Env) (message : Message) (s : State) :
  delay_ok s -> delay_ok (onmessage env message s).
Proof.
  apply onmessage_keeps.
  - intros. apply handleFunctionCall_delay_ok. assumption.
  - intros s0. apply delay_ok_frame, onTranscription_typingSpeedDelay.
  - intros s0 r H0 Hr. apply (delay_ok_frame s0); [|exact H0].
    apply (onAudio_frame env message s0 r Hr).
  - intros s0. apply delay_ok_frame, onTurnComplete_typingSpeedDelay.
Qed.

Lemma step_delay_ok (s : State) (ev : Env * Event) :
  delay_ok s -> delay_ok (step s ev).
Proof.
  intros H. destruct ev as [env [startup | initialText | message | k | | |
                                 | a | checked startup]];
    cbn [step fst snd].
  - revert H. apply delay_ok_frame, startSession_typingSpeedDelay.
  - revert H. apply delay_ok_frame, onopen_typingSpeedDelay.
  - apply onmessage_delay_ok, H.
  - pose proof (stopSession_delay_ok
                  (set_sourcesRef (delete k (sourcesRef s)) s)) as Hstop.
    unfold onended, delay_ok in *. cbn zeta. repeat case_match.
    + exact Hstop.
    + fields. exact H.
    + fields. exact H.
  - unfold onerror, delay_ok. fields. exact initial_delay.
  - apply stopSession_delay_ok.
  - apply stopSession_delay_ok.
  - unfold delay_ok in *. fields. exact H.
  - unfold handleToggleAutoAccentDetection. cbn zeta. case_match.
    + unfold delay_ok. rewrite startSession_typingSpeedDelay.
      apply stopSession_delay_ok.
    + unfold saveAutoAccentDetectionState, delay_ok in *.
      case_match; fields; exact H.
Qed.

Lemma run_delay_ok (s : State) (evs : list (Env * Event)) :
  delay_ok s -> delay_ok (run s evs).
Proof.
  apply run_invariant, step_delay_ok.
Qed.

Lemma mount_delay_ok (readable : bool) (storage : gmap jsstring jsstring) :
  delay_ok (mount readable storage).
Proof.
  unfold delay_ok. cbn. exact initial_delay.
Qed.

Lemma reached_delay_ok (readable : bool) (storage : gmap jsstring jsstring)
    (evs : list (Env * LiveEvent)) :
  delay_ok (current (live_run (at_rest (mount readable storage)) evs)).
Proof.
  apply reached_keeps.
  - apply step_delay_ok.
  - intros s H. exact H.
  - apply mount_delay_ok.
Qed.

(** C9.  The typing delay starts at the double 0.04 and, after any
    sequence of events of the component, handlers waiting for a
    translation or not, is one of the doubles 0.02,
    0.039999999999999994, 0.04, 0.06, 0.08 and 0.1, so that it lies
    between the constants 0.02 and 0.10.  From such a state, with [d]
    the delay, a message with one [slow_typing_speed] call sets the
    delay to [min(d + 0.02, 0.10)], which is not below [d] and not above
    0.10; one with a [speed_up_typing_speed] call sets it to
    [max(d - 0.02, 0.02)], which is not above [d] and not below 0.02;
    one with a call of another name leaves it as it is.  The sum and the
    difference are rounded to double precision, so that the delay moves
    by no more than 0.02 and a rounding error of [2^-57]. *)
Theorem typing_delay_bounded (readable : bool)
    (storage : gmap (list N) (list N))
    (evs : list (VoiceInterface.Env * VoiceInterface.LiveEvent))
    (env : VoiceInterface.Env) (fc : VoiceInterface.FunctionCall) :
  let s := VoiceInterface.current
             (VoiceInterface.live_run
                (VoiceInterface.at_rest
                   (VoiceInterface.mount readable storage)) evs) in
  let d := VoiceInterface.typingSpeedDelay s in
  let d' := VoiceInterface.typingSpeedDelay
              (VoiceInterface.step s
                 (env, VoiceInterface.MessageReceived
                         (VoiceInterface.toolCallMessage [fc]))) in
  VoiceInterface.typingSpeedDelay (VoiceInterface.mount readable storage)
  = Double.of_Q 0.04
  /\ In d VoiceInterface.typing_delays
  /\ Double.le VoiceInterface.MIN_TYPING_SPEED_DELAY d
  /\ Double.le d VoiceInterface.MAX_TYPING_SPEED_DELAY
  /\ (VoiceInterface.name fc = Js.js "slow_typing_speed" ->
      d' = Double.min (Double.add d VoiceInterface.TYPING_SPEED_STEP)
                      VoiceInterface.MAX_TYPING_SPEED_DELAY
      /\ Double.le d d'
      /\ Double.le d' VoiceInterface.MAX_TYPING_SPEED_DELAY
      /\ exists q q' : Q,
           d = Js.Num q /\ d' = Js.Num q'
           /\ q' - q <= 0.02 + (1 # 144115188075855872))
  /\ (VoiceInterface.name fc = Js.js "speed_up_typing_speed" ->
      d' = Double.max (Double.sub d VoiceInterface.TYPING_SPEED_STEP)
                      VoiceInterface.MIN_TYPING_SPEED_DELAY
      /\ Double.le d' d
      /\ Double.le VoiceInterface.MIN_TYPING_SPEED_DELAY d'
      /\ exists q q' : Q,
           d = Js.Num q /\ d' = Js.Num q'
           /\ q - q' <= 0.02 + (1 # 144115188075855872))
  /\ (VoiceInterface.name fc <> Js.js "slow_typing_speed" ->
      VoiceInterface.name fc <> Js.js "speed_up_typing_speed" ->
      d' = d).
Proof.
  cbn zeta. cbn [step fst snd]. rewrite onmessage_toolCalls.
  cbn [fold_left].
  pose proof (reached_delay_ok readable storage evs) as H.
  set (s := current (live_run (at_rest (mount readable storage)) evs)) in *.
  unfold delay_ok in H.
  split; [reflexivity|]. split; [exact H|].
  split; [exact (proj1 (delays_bounded _ H))|].
  split; [exact (proj2 (delays_bounded _ H))|].
  split; [|split].
  - intros Hn. rewrite (slow_call_delay env s fc Hn).
    destruct (slow_delays _ H) as (Hin & Hle & Hq).
    split; [reflexivity|]. split; [exact Hle|].
    split; [exact (proj2 (delays_bounded _ Hin)) | exact Hq].
  - intros Hn. rewrite (speed_up_call_delay env s fc Hn).
    destruct (speed_up_delays _ H) as (Hin & Hle & Hq).
    split; [reflexivity|]. split; [exact Hle|].
    split; [exact (proj1 (delays_bounded _ Hin)) | exact Hq].
  - apply other_call_delay.
Qed.
Lemma typing_delay_bounded_witness :
  let env := VoiceInterface.sample_env 0 None in
  let slow := {| VoiceInterface.fc_id := Js.js "1";
                 VoiceInterface.name := Js.js "slow_typing_speed";
                 VoiceInterface.should_mute := false;
                 VoiceInterface.accent := [];
                 VoiceInterface.arg_confidence := None |} in
  let s := VoiceInterface.current
             (VoiceInterface.live_run
                (VoiceInterface.at_rest (VoiceInterface.mount true ∅))
                [(env, VoiceInterface.Occurs
                         (VoiceInterface.MessageReceived
                            (VoiceInterface.toolCallMessage
                               [slow; slow])))]) in
  VoiceInterface.name slow = Js.js "slow_typing_speed"
  /\ VoiceInterface.typingSpeedDelay s
     = Js.Num (5764607523034235 # 72057594037927936)
  /\ VoiceInterface.typingSpeedDelay
       (VoiceInterface.step s
          (env, VoiceInterface.MessageReceived
                  (VoiceInterface.toolCallMessage [slow])))
     = Double.min
         (Double.add (VoiceInterface.typingSpeedDelay s)
                     VoiceInterface.TYPING_SPEED_STEP)
         VoiceInterface.MAX_TYPING_SPEED_DELAY.
Proof.
  cbn zeta. split; [reflexivity|]. split; [vm_compute; reflexivity|].
  exact (proj1 (proj1 (proj2 (proj2 (proj2 (proj2
    (typing_delay_bounded true ∅
       [(sample_env 0 None,
         Occurs
           (MessageReceived
              (toolCallMessage
                 [ {| fc_id := js "1"; name := js "slow_typing_speed";
                      should_mute := false; accent := [];
                      arg_confidence := None |};
                   {| fc_id := js "1"; name := js "slow_typing_speed";
                      should_mute := false; accent := [];
                      arg_confidence := None |} ])))]
       (sample_env 0 None)
       {| fc_id := js "1"; name := js "slow_typing_speed";
          should_mute := false; accent := []; arg_confidence := None |})))))
    eq_refl)).
Defined.

(** The step of the delay from 0.06 to 0.08 is larger than 0.02, and
    that from 0.1 to 0.08 too. *)
Lemma typing_delay_moves_more_than_step :
  let env := VoiceInterface.sample_env 0 None in
  let call := fun n => {| VoiceInterface.fc_id := Js.js "1";
                          VoiceInterface.name := Js.js n;
                          VoiceInterface.should_mute := false;
                          VoiceInterface.accent := [];
                          VoiceInterface.arg_confidence := None |} in
  let received := fun n =>
    (env, VoiceInterface.Occurs
            (VoiceInterface.MessageReceived
               (VoiceInterface.toolCallMessage [call n]))) in
  let slow := received "slow_typing_speed" in
  let speed_up := received "speed_up_typing_speed" in
  let delay_after := fun evs =>
    VoiceInterface.typingSpeedDelay
      (VoiceInterface.current
         (VoiceInterface.live_run
            (VoiceInterface.at_rest (VoiceInterface.mount true ∅)) evs)) in
  (exists d d' : Q,
     delay_after [slow] = Js.Num d
     /\ delay_after [slow; slow] = Js.Num d'
     /\ d + 0.02 < d')
  /\ (exists d d' : Q,
        delay_after [slow; slow; slow] = Js.Num d
        /\ delay_after [slow; slow; slow; speed_up] = Js.Num d'
        /\ d' < d - 0.02).
Proof.
  cbn zeta. split; eexists _, _.
  - split; [vm_compute; reflexivity|]. split; [vm_compute; reflexivity|].
    reflexivity.
  - split; [vm_compute; reflexivity|]. split; [vm_compute; reflexivity|].
    reflexivity.
Qed.

(** *** Durable storage *)

Lemma onmessage_localStorage (env : Env) (message : Message) (s : State) :
  localStorage (onmessage env message s) = localStorage s.
Proof.
  apply (onmessage_keeps (fun s' => localStorage s' = localStorage s)).
  - intros s0 fc <-. apply handleFunctionCall_localStorage.
  - intros s0 <-. apply onTranscription_localStorage.
  - intros s0 r <- Hr. apply (onAudio_frame env message s0 r Hr).
  - intros s0 <-. apply onTurnComplete_localStorage.
  - reflexivity.
Qed.

Lemma handleToggle_localStorage (env : Env) (checked : bool)
    (startup : Startup) (s : State) :
  localStorage (handleToggleAutoAccentDetection env checked startup s)
  = if storageWorks env
    then <[ ACCENT_DETECTION_KEY := String_of_bool checked ]> (localStorage s)
    else localStorage s.
Proof.
  unfold handleToggleAutoAccentDetection, saveAutoAccentDetectionState.
  frame.
Qed.

Lemma step_localStorage (s : State) (env : Env) (e : Event) :
  (forall checked startup, e <> AutoAccentToggled checked startup) ->
  localStorage (step s (env, e)) = localStorage s.
Proof.
  intros He. destruct e as [startup | initialText | message | k | | |
                            | a | checked startup];
    cbn [step fst snd].
  - apply startSession_localStorage.
  - apply onopen_localStorage.
  - apply onmessage_localStorage.
  - unfold onended. frame.
  - unfold onerror. frame.
  - unfold onclose. frame.
  - frame.
  - frame.
  - destruct (He checked startup). reflexivity.
Qed.

Lemma load_saved (checked : bool) (storage : gmap jsstring jsstring) :
  loadAutoAccentDetectionState true
    (<[ ACCENT_DETECTION_KEY := String_of_bool checked ]> storage)
  = checked.
Proof.
  unfold loadAutoAccentDetectionState. rewrite lookup_insert_eq.
  destruct checked; reflexivity.
Qed.

(** C4, as the code has it.  The state of the voice interface is
    ephemeral except for the automatic accent detection setting: the
    handler of its toggle writes it to [localStorage] under the key
    [autoAccentDetectionEnabled], where a component mounted later reads it
    back; no other operation of the component writes to [localStorage],
    and no operation writes under another key. *)
Theorem storage_written_by_toggle_only (s : VoiceInterface.State)
    (env : VoiceInterface.Env) (e : VoiceInterface.Event) :
  let s' := VoiceInterface.step s (env, e) in
  (forall k : list N,
     k <> VoiceInterface.ACCENT_DETECTION_KEY ->
     VoiceInterface.localStorage s' !! k = VoiceInterface.localStorage s !! k)
  /\ ((forall checked startup,
        e <> VoiceInterface.AutoAccentToggled checked startup) ->
      VoiceInterface.localStorage s' = VoiceInterface.localStorage s)
  /\ (forall checked startup,
        e = VoiceInterface.AutoAccentToggled checked startup ->
        VoiceInterface.storageWorks env = true ->
        VoiceInterface.localStorage s'
        = <[ VoiceInterface.ACCENT_DETECTION_KEY
             := VoiceInterface.String_of_bool checked ]>
            (VoiceInterface.localStorage s)
        /\ VoiceInterface.isAutoAccentDetectionEnabled
             (VoiceInterface.mount true (VoiceInterface.localStorage s'))
           = checked).
Proof.
  cbn zeta. split; [|split].
  - intros k Hk.
    destruct e as [startup | initialText | message | j | | |
                   | a | checked startup];
      try (rewrite step_localStorage by discriminate; reflexivity).
    cbn [step fst snd]. rewrite handleToggle_localStorage.
    destruct (storageWorks env); [|reflexivity].
    apply lookup_insert_ne. congruence.
  - apply step_localStorage.
  - intros checked startup -> Hw. cbn [step fst snd].
    rewrite handleToggle_localStorage, Hw. split; [reflexivity|].
    cbn [mount isAutoAccentDetectionEnabled]. apply load_saved.
Qed.

Lemma storage_written_by_toggle_only_witness :
  Js.js "other" <> VoiceInterface.ACCENT_DETECTION_KEY
  /\ VoiceInterface.localStorage
       (VoiceInterface.step (VoiceInterface.mount true ∅)
          (VoiceInterface.sample_env 0 None,
           VoiceInterface.StopClicked)) !! Js.js "other"
     = VoiceInterface.localStorage (VoiceInterface.mount true ∅)
       !! Js.js "other".
Proof.
  assert (H : Js.js "other" <> VoiceInterface.ACCENT_DETECTION_KEY)
    by (vm_compute; discriminate).
  split; [exact H|].
  exact (proj1 (storage_written_by_toggle_only (mount true ∅)
                  (sample_env 0 None)
                  StopClicked) (js "other") H).
Defined.

(** C4 as stated fails on the toggle of the automatic accent detection:
    it leaves the setting in [localStorage], and a component mounted in a
    later session starts from it. *)
Lemma toggle_survives_session :
  let env := VoiceInterface.sample_env 0 None in
  let s := VoiceInterface.mount true ∅ in
  let s' := VoiceInterface.step s
              (env, VoiceInterface.AutoAccentToggled true
                      VoiceInterface.NoAudioInput) in
  VoiceInterface.localStorage s !! VoiceInterface.ACCENT_DETECTION_KEY = None
  /\ VoiceInterface.localStorage s' !! VoiceInterface.ACCENT_DETECTION_KEY
     = Some (Js.js "true")
  /\ VoiceInterface.localStorage s' <> VoiceInterface.localStorage s
  /\ VoiceInterface.isAutoAccentDetectionEnabled
       (VoiceInterface.mount true (VoiceInterface.localStorage s)) = false
  /\ VoiceInterface.isAutoAccentDetectionEnabled
       (VoiceInterface.mount true (VoiceInterface.localStorage s')) = true.
Proof.
  cbn zeta. cbn [step fst snd]. rewrite handleToggle_localStorage.
  cbn [storageWorks localStorage mount sample_env].
  split; [apply lookup_empty|].
  split; [apply lookup_insert_eq|].
  split.
  - intros E.
    assert (H : (<[ACCENT_DETECTION_KEY := String_of_bool true]>
                   (∅ : gmap jsstring jsstring))
                !! ACCENT_DETECTION_KEY = None)
      by (rewrite E; apply lookup_empty).
    rewrite lookup_insert_eq in H. discriminate H.
  - split.
    + cbn [isAutoAccentDetectionEnabled mount].
      unfold loadAutoAccentDetectionState.
      rewrite (lookup_empty (M := gmap jsstring)). reflexivity.
    + cbn [isAutoAccentDetectionEnabled mount]. apply (load_saved true).
Qed.

(** *** The transcript *)

Lemma same_but_translation_refl (a : TranscriptItem) :
  same_but_translation a a.
Proof.
  repeat split.
Qed.

Lemma same_but_translation_trans (a b c : TranscriptItem) :
  same_but_translation a b -> same_but_translation b c ->
  same_but_translation a c.
Proof.
  unfold same_but_translation. intros (?&?&?&?) (?&?&?&?).
  repeat split; congruence.
Qed.

Lemma appended_refl (l : list TranscriptItem) : appended l l.
Proof.
  exists []. rewrite app_nil_r. reflexivity.
Qed.

Lemma appended_trans (a b c : list TranscriptItem) :
  appended a b -> appended b c -> appended a c.
Proof.
  intros [x ->] [y ->]. exists (x ++ y). rewrite app_assoc. reflexivity.
Qed.

Lemma appended_kept (old new : list TranscriptItem) :
  appended old new -> kept old new.
Proof.
  intros [added ->]. exists old, added. split; [reflexivity|].
  apply Forall2_same_length_lookup_2; [reflexivity|].
  intros i a b Ha Hb. assert (a = b) as -> by congruence.
  apply same_but_translation_refl.
Qed.

Lemma kept_refl (l : list TranscriptItem) : kept l l.
Proof.
  apply appended_kept, appended_refl.
Qed.

Lemma kept_trans (a b c : list TranscriptItem) :
  kept a b -> kept b c -> kept a c.
Proof.
  intros (ib & xb & -> & Hab) (ic & xc & -> & Hbc).
  apply Forall2_app_inv_l in Hbc as (ic1 & ic2 & H1 & H2 & ->).
  exists ic1, (ic2 ++ xc). split; [rewrite app_assoc; reflexivity|].
  clear H2. revert ic1 H1.
  induction Hab as [|x y l l' Hxy _ IH]; intros ic1 H1.
  - apply Forall2_nil_inv_l in H1 as ->. constructor.
  - apply Forall2_cons_inv_l in H1 as (z & l'' & Hyz & Hl & ->).
    constructor; [eapply same_but_translation_trans; eassumption|].
    apply IH, Hl.
Qed.

Lemma addTranscription_appended (env : Env) (t : jsstring) (r : Role)
    (v : option bool) (tr : option jsstring) (s : State) :
  appended (transcriptions s)
           (transcriptions (addTranscription env t r v tr s)).
Proof.
  unfold addTranscription. cbn zeta. case_match; fields.
  - apply appended_refl.
  - eexists. reflexivity.
Qed.

(** A map over the items that changes translations only keeps the
    items. *)
Lemma imap_kept (f : nat -> TranscriptItem -> TranscriptItem)
    (l : list TranscriptItem) :
  (forall i x, same_but_translation x (f i x)) ->
  Forall2 same_but_translation l (imap f l).
Proof.
  revert f. induction l as [|x l IH]; intros f Hf; [constructor|].
  cbn [imap]. constructor; [apply Hf|]. apply IH. intros i y. apply Hf.
Qed.

Lemma translateFullConversation_kept (env : Env) (s : State) :
  kept (transcriptions s)
       (transcriptions (translateFullConversation env s)).
Proof.
  unfold translateFullConversation. cbn zeta.
  destruct (translationReply env) as [translatedText|].
  - fields. eexists _, []. split; [rewrite app_nil_r; reflexivity|].
    apply imap_kept. intros i x. repeat case_match;
      try apply same_but_translation_refl.
    repeat split.
  - pose proof (addTranscription_appended env
                  (js "Translation failed. Please try again.") ai None None
                  (set_isTranslating true s)) as H.
    fields_in H. fields. apply appended_kept, H.
Qed.

Lemma handleFunctionCall_transcriptions (env : Env) (s : State)
    (fc : FunctionCall) :
  jsstring_eqb (name fc) (js "translate_conversation") = false ->
  transcriptions (handleFunctionCall env s fc) = transcriptions s.
Proof.
  intros Hn. unfold handleFunctionCall. rewrite Hn. frame.
Qed.

Lemma handleFunctionCall_kept (env : Env) (s : State) (fc : FunctionCall) :
  kept (transcriptions s) (transcriptions (handleFunctionCall env s fc)).
Proof.
  destruct (jsstring_eqb (name fc) (js "translate_conversation")) eqn:Hn.
  - pose proof (translateFullConversation_kept env s) as H.
    unfold handleFunctionCall. rewrite Hn.
    repeat case_match; fields; solve [apply kept_refl | exact H].
  - rewrite handleFunctionCall_transcriptions by exact Hn. apply kept_refl.
Qed.

Lemma onTurnComplete_appended (env : Env) (s : State) :
  appended (transcriptions s) (transcriptions (onTurnComplete env s)).
Proof.
  unfold onTurnComplete. cbn zeta.
  set (s1 := if truthy (currentUserTranscription s) then _ else s).
  assert (H1 : appended (transcriptions s) (transcriptions s1)).
  { unfold s1. case_match; [|apply appended_refl]. fields.
    apply addTranscription_appended. }
  clearbody s1. case_match; [|exact H1]. fields.
  eapply appended_trans; [exact H1|]. apply addTranscription_appended.
Qed.

Lemma onStartFailure_appended (env : Env) (err : Failure) (s : State) :
  appended (transcriptions s) (transcriptions (onStartFailure env err s)).
Proof.
  pose proof (addTranscription_appended env (failure_message err) ai
                None None (set_status Error s)) as H.
  fields_in H. unfold onStartFailure. fields. exact H.
Qed.

Lemma startSession_appended (seen : State) (env : Env) (startup : Startup)
    (s : State) :
  appended (transcriptions s)
           (transcriptions (startSession seen env startup s)).
Proof.
  unfold startSession. cbn zeta. case_match; [apply appended_refl|].
  destruct startup as [err | | err | stream err | stream].
  - pose proof (onStartFailure_appended env err
                  (set_status Initializing (set_isConnecting true s))) as Hadd.
    fields_in Hadd. exact Hadd.
  - pose proof (addTranscription_appended env
                  no_device_text
                  ai None None
                  (set_status Error
                     (set_status Initializing (set_isConnecting true s))))
      as Hadd.
    fields_in Hadd. fields. exact Hadd.
  - pose proof (onStartFailure_appended env err
                  (set_status Initializing (set_isConnecting true s))) as Hadd.
    fields_in Hadd. exact Hadd.
  - pose proof (onStartFailure_appended env err
                  (set_mediaStreamRef (Some stream)
                     (set_status Initializing (set_isConnecting true s))))
      as Hadd.
    fields_in Hadd. exact Hadd.
  - fields. apply appended_refl.
Qed.

Lemma onopen_appended (env : Env) (initialText : option jsstring)
    (s : State) :
  appended (transcriptions s) (transcriptions (onopen env initialText s)).
Proof.
  unfold onopen. cbn zeta.
  destruct initialText as [t|]; [destruct (truthy t)|]; fields;
    try apply appended_refl.
  pose proof (addTranscription_appended env t user None None
                (set_status Listening
                   (set_isConnecting false (set_isActive true s)))) as Hadd.
  fields_in Hadd. exact Hadd.
Qed.

Lemma onmessage_kept (env : Env) (message : Message) (s : State) :
  kept (transcriptions s) (transcriptions (onmessage env message s)).
Proof.
  apply (onmessage_keeps (fun s' => kept (transcriptions s)
                                         (transcriptions s'))).
  - intros s0 fc H. eapply kept_trans; [exact H|].
    apply handleFunctionCall_kept.
  - intros s0 H. rewrite onTranscription_transcriptions. exact H.
  - intros s0 r H Hr.
    destruct (onAudio_frame env message s0 r Hr) as (_ & _ & ->). exact H.
  - intros s0 H. eapply kept_trans; [exact H|].
    apply appended_kept, onTurnComplete_appended.
  - apply kept_refl.
Qed.

Lemma onmessage_appended (env : Env) (message : Message) (s : State) :
  translates (MessageReceived message) = false ->
  appended (transcriptions s) (transcriptions (onmessage env message s)).
Proof.
  intros Ht.
  apply (onmessage_keeps_calls
           (fun s' => appended (transcriptions s) (transcriptions s'))
           (fun fc => jsstring_eqb (name fc) (js "translate_conversation")
                      = false)).
  - intros s0 fc Hfc H.
    rewrite handleFunctionCall_transcriptions by exact Hfc. exact H.
  - intros calls Hcalls. cbn [translates] in Ht. rewrite Hcalls in Ht.
    apply Forall_forall. intros fc Hin.
    destruct (jsstring_eqb (name fc) (js "translate_conversation")) eqn:E;
      [|reflexivity].
    assert (existsb (fun fc => jsstring_eqb (name fc)
                                 (js "translate_conversation")) calls = true)
      as Hex; [|congruence].
    apply existsb_exists. exists fc. split; [|exact E].
    apply list_elem_of_In, Hin.
  - intros s0 H. rewrite onTranscription_transcriptions. exact H.
  - intros s0 r H Hr.
    destruct (onAudio_frame env message s0 r Hr) as (_ & _ & ->). exact H.
  - intros s0 H. eapply appended_trans; [exact H|].
    apply onTurnComplete_appended.
  - apply appended_refl.
Qed.

(** Every event other than a translation adds items at the end of the
    transcript, if it changes it at all. *)
Lemma step_appended (s : State) (env : Env) (e : Event) :
  translates e = false ->
  appended (transcriptions s) (transcriptions (step s (env, e))).
Proof.
  intros Ht. destruct e as [startup | initialText | message | k | | |
                            | a | checked startup];
    cbn [step fst snd].
  - apply startSession_appended.
  - apply onopen_appended.
  - apply onmessage_appended, Ht.
  - unfold onended. cbn zeta. repeat case_match; fields;
      apply appended_refl.
  - unfold onerror. fields. apply appended_refl.
  - unfold onclose. fields. apply appended_refl.
  - fields. apply appended_refl.
  - fields. apply appended_refl.
  - unfold handleToggleAutoAccentDetection, saveAutoAccentDetectionState.
    cbn zeta. repeat case_match.
    + pose proof (startSession_appended s env startup
                    (stopSession
                       (set_localStorage
                          (<[ACCENT_DETECTION_KEY:=String_of_bool checked]>
                             (localStorage
                                (set_isAutoAccentDetectionEnabled checked s)))
                          (set_isAutoAccentDetectionEnabled checked s))))
        as Hadd.
      fields_in Hadd. exact Hadd.
    + pose proof (startSession_appended s env startup
                    (stopSession
                       (set_isAutoAccentDetectionEnabled checked s))) as Hadd.
      fields_in Hadd. exact Hadd.
    + fields. apply appended_refl.
    + fields. apply appended_refl.
Qed.

(** C5, as the code has it.  Every operation of the component keeps all
    the items the transcript had, in their order and with their id, text,
    role and verification mark, and puts any new item at the end; the
    translation of the conversation is the one operation that changes
    items already there, and it changes their translation only; every
    other operation leaves them as they were. *)
Theorem transcript_items_kept (s : VoiceInterface.State)
    (env : VoiceInterface.Env) (e : VoiceInterface.Event) :
  let old := VoiceInterface.transcriptions s in
  let new := VoiceInterface.transcriptions (VoiceInterface.step s (env, e)) in
  (exists items added : list VoiceInterface.TranscriptItem,
     new = items ++ added
     /\ Forall2 VoiceInterface.same_but_translation old items)
  /\ (VoiceInterface.translates e = false ->
      exists added : list VoiceInterface.TranscriptItem,
        new = old ++ added).
Proof.
  cbn zeta. split; [|apply step_appended].
  destruct (translates e) eqn:Ht.
  - destruct e; try discriminate Ht. cbn [step fst snd].
    apply onmessage_kept.
  - apply appended_kept, step_appended, Ht.
Qed.

Lemma transcript_items_kept_witness :
  VoiceInterface.translates VoiceInterface.StopClicked = false
  /\ exists added : list VoiceInterface.TranscriptItem,
      VoiceInterface.transcriptions
        (VoiceInterface.step (VoiceInterface.mount true ∅)
           (VoiceInterface.sample_env 0 None,
            VoiceInterface.StopClicked))
      = VoiceInterface.transcriptions (VoiceInterface.mount true ∅) ++ added.
Proof.
  split; [reflexivity|].
  exact (proj2 (transcript_items_kept (mount true ∅)
                  (sample_env 0 None)
                  StopClicked) eq_refl).
Defined.

(** C5 as stated fails on the translation of the conversation: it
    rewrites an item that is already in the transcript. *)
Lemma translation_rewrites_item :
  let env := VoiceInterface.sample_env 0 (Some (Js.js "User: hello")) in
  let s := VoiceInterface.step (VoiceInterface.mount true ∅)
             (env, VoiceInterface.Opened (Some (Js.js "hola"))) in
  let s' := VoiceInterface.step s
              (env, VoiceInterface.MessageReceived
                      (VoiceInterface.toolCallMessage
                         [ {| VoiceInterface.fc_id := Js.js "1";
                              VoiceInterface.name :=
                                Js.js "translate_conversation";
                              VoiceInterface.should_mute := false;
                              VoiceInterface.accent := [];
                              VoiceInterface.arg_confidence := None |} ])) in
  VoiceInterface.transcriptions s
  = [ {| VoiceInterface.text := Js.js "hola";
         VoiceInterface.role := Translation.user;
         VoiceInterface.id := Js.js "id";
         VoiceInterface.isVerified := None;
         VoiceInterface.translation := None |} ]
  /\ VoiceInterface.transcriptions s'
     = [ {| VoiceInterface.text := Js.js "hola";
            VoiceInterface.role := Translation.user;
            VoiceInterface.id := Js.js "id";
            VoiceInterface.isVerified := None;
            VoiceInterface.translation := Some (Js.js "hello") |} ]
  /\ ~ (exists added : list VoiceInterface.TranscriptItem,
          VoiceInterface.transcriptions s'
          = VoiceInterface.transcriptions s ++ added).
Proof.
  cbn zeta.
  match goal with
  | |- ?a = _ /\ ?b = _ /\ _ =>
      assert (Ha : a = [ {| text := js "hola"; role := user; id := js "id";
                            isVerified := None; translation := None |} ])
        by (vm_compute; reflexivity);
      assert (Hb : b = [ {| text := js "hola"; role := user; id := js "id";
                            isVerified := None;
                            translation := Some (js "hello") |} ])
        by (vm_compute; reflexivity);
      rewrite Ha, Hb
  end.
  split; [reflexivity|]. split; [reflexivity|].
  intros [added H]. discriminate H.
Qed.
(** *** The playback schedule *)

Lemma schedule_ok_frame (s s' : State) :
  nextStartTimeRef s' = nextStartTimeRef s -> started s' = started s ->
  schedule_ok s -> schedule_ok s'.
Proof.
  unfold schedule_ok. intros -> ->. auto.
Qed.

Lemma in_sequence_snoc (l : list Source) (src : Source) :
  in_sequence l -> Forall (fun a => Double.le (ends a) (when src)) l ->
  in_sequence (l ++ [src]).
Proof.
  intros Hseq Hends i j a b Hij Ha Hb.
  assert (Hj : (j < List.length (l ++ [src]))%nat)
    by (eapply lookup_lt_Some; eassumption).
  rewrite length_app in Hj. cbn in Hj.
  destruct (decide (j < List.length l)%nat) as [Hlt|Hge].
  - rewrite lookup_app_l in Ha, Hb by lia. exact (Hseq i j a b Hij Ha Hb).
  - rewrite lookup_app_l in Ha by lia.
    rewrite lookup_app_r in Hb by lia.
    replace (j - List.length l)%nat with 0%nat in Hb by lia.
    cbn in Hb. injection Hb as <-.
    rewrite Forall_lookup in Hends. exact (Hends i a Ha).
Qed.

(** Moving [nextStartTime] to a later time keeps the schedule. *)
Lemma schedule_ok_later (s : State) (t : number) :
  Double.is_time t -> Double.le (nextStartTimeRef s) t ->
  schedule_ok s -> schedule_ok (set_nextStartTimeRef t s).
Proof.
  intros Ht Hle (Hnext & Hseq & Hends & Hsrc). unfold schedule_ok. fields.
  split; [exact Ht|]. split; [exact Hseq|]. split; [|exact Hsrc].
  eapply Forall_impl; [exact Hends|]. cbn. intros a Ha.
  eapply le_trans; [exact Ha | exact Hle].
Qed.

(** Starting a source at [nextStartTime] and moving [nextStartTime] to
    its end keeps the schedule. *)
Lemma schedule_ok_start (s : State) (w d : Q) :
  nextStartTimeRef s = Num w -> 0 <= d -> schedule_ok s ->
  let src := {| when := Num w; bufferDuration := Double.of_Q d |} in
  let next := Double.add (Num w) (Double.of_Q d) in
  Double.is_time next
  /\ in_sequence (started s ++ [src])
  /\ Forall (fun a => Double.le (ends a) next) (started s ++ [src])
  /\ Forall source_ok (started s ++ [src]).
Proof.
  intros Ew Hd (Hnext & Hseq & Hends & Hsrc). cbn zeta.
  rewrite Ew in Hnext, Hends.
  destruct (add_time (Num w) d Hnext Hd) as [Ht Hle].
  split; [exact Ht|]. split; [|split].
  - apply in_sequence_snoc; [exact Hseq | exact Hends].
  - apply Forall_app. split.
    + eapply Forall_impl; [exact Hends|]. cbn. intros a Ha.
      eapply le_trans; [exact Ha | exact Hle].
    + apply Forall_singleton. unfold ends. cbn [when bufferDuration].
      apply le_refl, is_time_not_NaN, Ht.
  - apply Forall_app. split; [exact Hsrc|].
    apply Forall_singleton. split; cbn [when bufferDuration].
    + exists w. destruct Hnext. auto.
    + apply of_Q_time, Hd.
Qed.

(** What the audio part does to the schedule.  A chunk that decodes to a
    buffer has a source started at [max(nextStartTime, currentTime)],
    behind the sources already started, and [nextStartTime] moves to the
    double nearest to that start plus the duration of the buffer; for a
    chunk that does not, and when the start is not finite,
    [nextStartTime] moves to [max(nextStartTime, currentTime)] and no
    source is started. *)
Lemma playAudio_schedule (env : Env) (audio : jsstring) (s r : State) :
  playAudio env audio s = inl r \/ playAudio env audio s = inr r ->
  let start := Double.max (nextStartTimeRef s)
                          (Double.of_Q (currentTime env)) in
  match decode audio with
  | inr data =>
      match decodeAudioData data (outputCtx env) 24000 1, start with
      | inr buffer, Num _ =>
          started r
          = started s
            ++ [ {| when := start;
                    bufferDuration := Double.of_Q (duration buffer) |} ]
          /\ nextStartTimeRef r
             = Double.add start (Double.of_Q (duration buffer))
      | _, _ => started r = started s /\ nextStartTimeRef r = start
      end
  | inl _ => started r = started s /\ nextStartTimeRef r = start
  end.
Proof.
  unfold playAudio. cbn zeta.
  destruct (decode audio) as [e|data] eqn:Ed.
  - intros [H|H]; simplify_eq. fields. auto.
  - destruct (decodeAudioData data (outputCtx env) 24000 1) as [e|buffer] eqn:Eb.
    + intros [H|H]; simplify_eq. fields. auto.
    + fields.
      destruct (Double.max (nextStartTimeRef s)
                           (Double.of_Q (currentTime env))) eqn:Em;
        intros [H|H]; simplify_eq; fields; auto.
Qed.

Lemma playAudio_schedule_ok (env : Env) (audio : jsstring) (s r : State) :
  playAudio env audio s = inl r \/ playAudio env audio s = inr r ->
  schedule_ok s ->
  schedule_ok r /\ Double.le (nextStartTimeRef s) (nextStartTimeRef r).
Proof.
  intros Hr Hs. pose proof (playAudio_schedule env audio s r Hr) as H.
  cbn zeta in H.
  destruct (max_time (nextStartTimeRef s) (currentTime env))
    as (Ht & Hle & _); [apply Hs|].
  set (start := Double.max (nextStartTimeRef s)
                           (Double.of_Q (currentTime env))) in *.
  pose proof (schedule_ok_later s start Ht Hle Hs) as Hlater.
  assert (Hno : started r = started s /\ nextStartTimeRef r = start ->
                schedule_ok r
                /\ Double.le (nextStartTimeRef s) (nextStartTimeRef r)).
  { intros [Hst Hnext]. rewrite Hnext. split; [|exact Hle].
    revert Hlater. apply schedule_ok_frame; fields; assumption. }
  destruct (decode audio) as [e|data]; [exact (Hno H)|].
  destruct (decodeAudioData data (outputCtx env) 24000 1) as [e|buffer];
    [exact (Hno H)|].
  destruct start as [| | |w] eqn:Es; try exact (Hno H).
  destruct H as [Hst Hnext].
  pose proof (schedule_ok_start (set_nextStartTimeRef (Num w) s) w
                (duration buffer) eq_refl
                (duration_nonneg buffer) Hlater) as Hstart.
  cbn zeta in Hstart. fields_in Hstart.
  split.
  - unfold schedule_ok. rewrite Hst, Hnext. exact Hstart.
  - rewrite Hnext. eapply le_trans; [exact Hle|].
    apply add_time; [exact Ht | apply duration_nonneg].
Qed.

Lemma onAudio_schedule_ok (env : Env) (message : Message) (s r : State) :
  onAudio env message s = inl r \/ onAudio env message s = inr r ->
  schedule_ok s -> schedule_ok r.
Proof.
  unfold onAudio. destruct (base64Audio message) as [audio|].
  - destruct (truthy audio).
    + intros Hr Hs. apply (playAudio_schedule_ok env audio s r Hr Hs).
    + intros [H|H]; simplify_eq. auto.
  - intros [H|H]; simplify_eq. auto.
Qed.

Lemma no_source_in_sequence : in_sequence [].
Proof.
  intros i j a b _ Ha. discriminate Ha.
Qed.

Lemma stopSession_schedule_ok (s : State) : schedule_ok (stopSession s).
Proof.
  unfold schedule_ok. fields.
  split; [exact zero_time|].
  split; [apply no_source_in_sequence|]. split; constructor.
Qed.

Lemma onmessage_schedule_ok (env : Env) (message : Message) (s : State) :
  schedule_ok s -> schedule_ok (onmessage env message s).
Proof.
  apply onmessage_keeps.
  - intros s0 fc. apply schedule_ok_frame.
    + apply handleFunctionCall_nextStartTimeRef.
    + apply handleFunctionCall_started.
  - intros s0. apply schedule_ok_frame.
    + apply onTranscription_nextStartTimeRef.
    + apply onTranscription_started.
  - intros s0 r H Hr. exact (onAudio_schedule_ok env message s0 r Hr H).
  - intros s0. apply schedule_ok_frame.
    + apply onTurnComplete_nextStartTimeRef.
    + apply onTurnComplete_started.
Qed.

Lemma step_schedule_ok (s : State) (ev : Env * Event) :
  schedule_ok s -> schedule_ok (step s ev).
Proof.
  intros H. destruct ev as [env [startup | initialText | message | k | | |
                                 | a | checked startup]];
    cbn [step fst snd].
  - revert H. apply schedule_ok_frame.
    + apply startSession_nextStartTimeRef.
    + apply startSession_started.
  - revert H. apply schedule_ok_frame.
    + apply onopen_nextStartTimeRef.
    + apply onopen_started.
  - apply onmessage_schedule_ok, H.
  - pose proof (stopSession_schedule_ok
                  (set_sourcesRef (delete k (sourcesRef s)) s)) as Hstop.
    unfold onended, schedule_ok in *. cbn zeta. repeat case_match.
    + exact Hstop.
    + fields. exact H.
    + fields. exact H.
  - unfold onerror, schedule_ok. fields.
    split; [exact zero_time|].
    split; [apply no_source_in_sequence|]. split; constructor.
  - apply stopSession_schedule_ok.
  - apply stopSession_schedule_ok.
  - unfold schedule_ok in *. fields. exact H.
  - unfold handleToggleAutoAccentDetection. cbn zeta. case_match.
    + unfold schedule_ok.
      rewrite startSession_nextStartTimeRef, startSession_started.
      apply stopSession_schedule_ok.
    + unfold saveAutoAccentDetectionState, schedule_ok in *.
      case_match; fields; exact H.
Qed.

Lemma run_schedule_ok (s : State) (evs : list (Env * Event)) :
  schedule_ok s -> schedule_ok (run s evs).
Proof.
  apply run_invariant, step_schedule_ok.
Qed.

Lemma mount_schedule_ok (readable : bool)
    (storage : gmap jsstring jsstring) :
  schedule_ok (mount readable storage).
Proof.
  unfold schedule_ok. cbn.
  split; [exact zero_time|].
  split; [apply no_source_in_sequence|]. split; constructor.
Qed.

Lemma reached_schedule_ok (readable : bool)
    (storage : gmap jsstring jsstring) (evs : list (Env * LiveEvent)) :
  schedule_ok (current (live_run (at_rest (mount readable storage)) evs)).
Proof.
  apply reached_keeps.
  - apply step_schedule_ok.
  - intros s H. exact H.
  - apply mount_schedule_ok.
Qed.

(** The handler on a message that carries audio only. *)
Lemma onmessage_audio (env : Env) (audio : jsstring) (s : State) :
  (audio = [] /\ onmessage env (audioMessage audio) s = s)
  \/ (audio <> []
      /\ (playAudio env audio s = inl (onmessage env (audioMessage audio) s)
          \/ playAudio env audio s
             = inr (onmessage env (audioMessage audio) s))).
Proof.
  unfold onmessage, onToolCall, onTranscription, onAudio, audioMessage.
  cbn. destruct audio as [|c audio]; [left; auto|].
  right. split; [discriminate|]. cbn.
  destruct (playAudio env (c :: audio) s); auto.
Qed.

Lemma audio_step_le (env : Env) (audio : jsstring) (s : State) :
  schedule_ok s ->
  Double.le (nextStartTimeRef s)
    (nextStartTimeRef (step s (env, MessageReceived (audioMessage audio)))).
Proof.
  intros Hs. cbn [step fst snd].
  destruct (onmessage_audio env audio s) as [[_ E]|[_ Hr]].
  - rewrite E. apply le_refl, is_time_not_NaN, Hs.
  - apply (playAudio_schedule_ok env audio s _ Hr Hs).
Qed.

Lemma audio_step_started (env : Env) (audio : jsstring) (s : State) :
  exists new : list Source,
    started (step s (env, MessageReceived (audioMessage audio)))
    = started s ++ new.
Proof.
  cbn [step fst snd].
  destruct (onmessage_audio env audio s) as [[_ E]|[_ Hr]].
  - rewrite E. exists []. rewrite app_nil_r. reflexivity.
  - pose proof (playAudio_schedule env audio s _ Hr) as H. cbn zeta in H.
    destruct (decode audio) as [e|data];
      [exists []; rewrite app_nil_r; apply H|].
    destruct (decodeAudioData data (outputCtx env) 24000 1) as [e|buffer];
      [exists []; rewrite app_nil_r; apply H|].
    destruct (Double.max (nextStartTimeRef s)
                         (Double.of_Q (currentTime env)));
      try (exists []; rewrite app_nil_r; apply H).
    eexists. apply H.
Qed.

(** Over a sequence of chunks [nextStartTime] does not go back and the
    started sources are added behind those already there. *)
Lemma audio_run (chunks : list (Env * jsstring)) (s : State) :
  schedule_ok s ->
  Double.le (nextStartTimeRef s)
            (nextStartTimeRef (run s (audioEvents chunks)))
  /\ exists new : list Source,
       started (run s (audioEvents chunks)) = started s ++ new.
Proof.
  revert s. induction chunks as [|[env audio] chunks IH]; intros s Hs.
  - cbn. split; [apply le_refl, is_time_not_NaN, Hs|]. exists [].
    rewrite app_nil_r. reflexivity.
  - cbn [audioEvents map run fold_left fst snd].
    pose proof (audio_step_le env audio s Hs) as Hle.
    destruct (audio_step_started env audio s) as [new1 Hst].
    destruct (IH (step s (env, MessageReceived (audioMessage audio))))
      as (Hle' & new & Hnew); [apply step_schedule_ok, Hs|].
    unfold run, audioEvents in Hle', Hnew. split.
    + eapply le_trans; [exact Hle | exact Hle'].
    + rewrite Hnew, Hst. eexists. rewrite <- app_assoc. reflexivity.
Qed.

(** How far the end of a source, computed exactly, can lie behind the
    start of a later one: by the rounding of one addition. *)
Lemma overlap_bound (l : list Source) (i j : nat) (a b : Source)
    (wa da wb : Q) :
  in_sequence l -> Forall source_ok l ->
  (i < j)%nat -> l !! i = Some a -> l !! j = Some b ->
  when a = Num wa -> bufferDuration a = Num da -> when b = Num wb ->
  wa + da - wb <= (wa + da) * (1 # 9007199254740992).
Proof.
  intros Hseq Hsrc Hij Ha Hb Ewa Eda Ewb.
  pose proof (Hseq i j a b Hij Ha Hb) as Hle.
  rewrite Forall_lookup in Hsrc.
  destruct (Hsrc i a Ha) as [(w & Ew & Hwa & Hwa0) Htd].
  rewrite Ewa in Ew. injection Ew as <-.
  unfold ends in Hle. rewrite Ewa, Eda, Ewb in *. cbn in Htd.
  destruct Htd as [Hda Hda0].
  change (Double.add (Num wa) (Num da)) with (Double.of_Q (wa + da)) in Hle.
  destruct (of_Q_cases (wa + da)) as [[E _] | [[_ Hn] | E]];
    rewrite ?E in Hle.
  - discriminate Hle.
  - lra.
  - apply le_inv in Hle.
    pose proof (round_sum_error wa da Hwa Hda) as Herr.
    rewrite (Qabs_pos (wa + da)) in Herr by lra.
    revert Herr. apply Qabs_case; intros; lra.
Qed.

(** C3.  In any state the component has reached, handlers waiting for a
    translation or not, for every sequence of arriving audio chunks and
    every chunk of it, with [start] the
    maximum of [nextStartTime] and [currentTime] when the chunk arrives:
    an empty chunk changes nothing; for a chunk that decodes to a buffer
    a source is started at [start], behind the sources already started,
    and [nextStartTime] becomes the double nearest to [start] plus the
    duration of the buffer; for a chunk that does not decode, and when
    [start] is not finite, no source is started and [nextStartTime]
    becomes [start].  [nextStartTime] does not decrease, over one chunk
    and over the whole sequence; the sources started earlier stay in
    front, in the order of arrival; every start is a finite double and
    every duration a double, and none is negative;
    each source starts at or after the computed end of each earlier
    one, and every computed end is at most [nextStartTime].  The
    computed end is the double nearest to the start plus the duration:
    the exact end of a source lies behind the start of a later one by at
    most a part in [2^53] of itself. *)
Theorem playback_in_arrival_order (readable : bool)
    (storage : gmap (list N) (list N))
    (evs : list (VoiceInterface.Env * VoiceInterface.LiveEvent))
    (chunks : list (VoiceInterface.Env * list N)) (k : nat)
    (env : VoiceInterface.Env) (audio : list N) :
  chunks !! k = Some (env, audio) ->
  let s0 := VoiceInterface.current
              (VoiceInterface.live_run
                 (VoiceInterface.at_rest
                    (VoiceInterface.mount readable storage)) evs) in
  let before :=
    VoiceInterface.run s0 (VoiceInterface.audioEvents (take k chunks)) in
  let after :=
    VoiceInterface.run s0 (VoiceInterface.audioEvents (take (S k) chunks)) in
  let s := VoiceInterface.run s0 (VoiceInterface.audioEvents chunks) in
  let start := Double.max (VoiceInterface.nextStartTimeRef before)
                 (Double.of_Q (VoiceInterface.currentTime env)) in
  (audio = [] -> after = before)
  /\ (audio <> [] ->
      match AudioUtils.decode audio with
      | inr data =>
          match AudioUtils.decodeAudioData data
                  (VoiceInterface.outputCtx env) 24000 1, start with
          | inr buffer, Js.Num _ =>
              VoiceInterface.started after
              = VoiceInterface.started before
                ++ [ {| VoiceInterface.when := start;
                        VoiceInterface.bufferDuration :=
                          Double.of_Q (Js.duration buffer) |} ]
              /\ VoiceInterface.nextStartTimeRef after
                 = Double.add start (Double.of_Q (Js.duration buffer))
          | _, _ =>
              VoiceInterface.started after = VoiceInterface.started before
              /\ VoiceInterface.nextStartTimeRef after = start
          end
      | inl _ =>
          VoiceInterface.started after = VoiceInterface.started before
          /\ VoiceInterface.nextStartTimeRef after = start
      end)
  /\ Double.le (VoiceInterface.nextStartTimeRef before)
               (VoiceInterface.nextStartTimeRef after)
  /\ Double.le (VoiceInterface.nextStartTimeRef s0)
               (VoiceInterface.nextStartTimeRef s)
  /\ (exists later : list VoiceInterface.Source,
        VoiceInterface.started s = VoiceInterface.started after ++ later)
  /\ Forall (fun src =>
               (exists w : Q,
                  VoiceInterface.when src = Js.Num w
                  /\ Double.is_double w /\ 0 <= w)
               /\ Double.is_time (VoiceInterface.bufferDuration src))
            (VoiceInterface.started s)
  /\ (forall (i j : nat) (a b : VoiceInterface.Source),
        (i < j)%nat ->
        VoiceInterface.started s !! i = Some a ->
        VoiceInterface.started s !! j = Some b ->
        Double.le (Double.add (VoiceInterface.when a)
                              (VoiceInterface.bufferDuration a))
                  (VoiceInterface.when b))
  /\ Forall (fun src =>
               Double.le (Double.add (VoiceInterface.when src)
                                     (VoiceInterface.bufferDuration src))
                         (VoiceInterface.nextStartTimeRef s))
            (VoiceInterface.started s)
  /\ (forall (i j : nat) (a b : VoiceInterface.Source) (wa da wb : Q),
        (i < j)%nat ->
        VoiceInterface.started s !! i = Some a ->
        VoiceInterface.started s !! j = Some b ->
        VoiceInterface.when a = Js.Num wa ->
        VoiceInterface.bufferDuration a = Js.Num da ->
        VoiceInterface.when b = Js.Num wb ->
        wa + da - wb <= (wa + da) * (1 # 9007199254740992)).
Proof.
  intros Hk. cbn zeta.
  set (s0 := current (live_run (at_rest (mount readable storage)) evs)).
  assert (H0 : schedule_ok s0) by apply reached_schedule_ok.
  assert (Hafter : run s0 (audioEvents (take (S k) chunks))
                   = step (run s0 (audioEvents (take k chunks)))
                          (env, MessageReceived (audioMessage audio))).
  { rewrite (take_S_r chunks k (env, audio) Hk).
    unfold audioEvents. rewrite map_app. apply run_app. }
  assert (Hs : run s0 (audioEvents chunks)
               = run (run s0 (audioEvents (take (S k) chunks)))
                     (audioEvents (drop (S k) chunks))).
  { rewrite <- run_app. unfold audioEvents. rewrite <- map_app.
    rewrite take_drop. reflexivity. }
  assert (Hbefore : schedule_ok (run s0 (audioEvents (take k chunks))))
    by (apply run_schedule_ok, H0).
  assert (Hok : schedule_ok (run s0 (audioEvents chunks)))
    by (apply run_schedule_ok, H0).
  set (before := run s0 (audioEvents (take k chunks))) in *.
  split.
  { intros ->. rewrite Hafter. cbn [step fst snd].
    destruct (onmessage_audio env [] before) as [[_ E]|[Hne _]];
      [exact E | contradiction]. }
  split.
  { intros Hne. rewrite Hafter. cbn [step fst snd].
    destruct (onmessage_audio env audio before) as [[E _]|[_ Hr]];
      [contradiction|].
    exact (playAudio_schedule env audio before _ Hr). }
  split; [rewrite Hafter; apply audio_step_le, Hbefore|].
  split; [apply audio_run, H0|].
  split.
  { rewrite Hs. apply audio_run. rewrite Hafter.
    apply step_schedule_ok, Hbefore. }
  destruct Hok as (_ & Hseq & Hends & Hsrc).
  split; [exact Hsrc|]. split; [exact Hseq|]. split; [exact Hends|].
  intros i j a b wa da wb.
  apply (overlap_bound _ i j a b wa da wb Hseq Hsrc).
Qed.

Lemma playback_in_arrival_order_witness :
  let env := VoiceInterface.sample_env (1 # 2) None in
  let chunks := [(env, Js.js "AAAAAA=="); (env, Js.js "AAAAAA==")] in
  let before :=
    VoiceInterface.run (VoiceInterface.mount true ∅)
      (VoiceInterface.audioEvents (take 1 chunks)) in
  let after :=
    VoiceInterface.run (VoiceInterface.mount true ∅)
      (VoiceInterface.audioEvents (take 2 chunks)) in
  let start := Double.max (VoiceInterface.nextStartTimeRef before)
                          (Double.of_Q (1 # 2)) in
  chunks !! 1%nat = Some (env, Js.js "AAAAAA==")
  /\ VoiceInterface.started after
     = VoiceInterface.started before
       ++ [ {| VoiceInterface.when := start;
               VoiceInterface.bufferDuration := Double.of_Q (2 # 24000) |} ]
  /\ VoiceInterface.nextStartTimeRef after
     = Double.add start (Double.of_Q (2 # 24000)).
Proof.
  cbn zeta. split; [reflexivity|].
  assert (Hne : js "AAAAAA==" <> []) by discriminate.
  pose proof (proj1 (proj2
    (playback_in_arrival_order true ∅ []
       [(sample_env (1 # 2) None, js "AAAAAA==");
        (sample_env (1 # 2) None, js "AAAAAA==")]
       1 _ _ eq_refl)) Hne) as H.
  vm_compute in H. vm_compute. exact H.
Defined.

(** Two chunks of two frames that arrive at time 0.5: the second source
    starts before the exact end of the first, whether the duration is
    taken as the double of the buffer or as two frames at 24000 Hz, and
    [nextStartTime] has moved by less than the duration. *)
Lemma playback_intervals_overlap :
  let env := VoiceInterface.sample_env (1 # 2) None in
  let s := VoiceInterface.run (VoiceInterface.mount true ∅)
             (VoiceInterface.audioEvents
                [(env, Js.js "AAAAAA=="); (env, Js.js "AAAAAA==")]) in
  exists (a b : VoiceInterface.Source) (wa da wb : Q),
    VoiceInterface.started s = [a; b]
    /\ VoiceInterface.when a = Js.Num wa
    /\ VoiceInterface.bufferDuration a = Js.Num da
    /\ VoiceInterface.when b = Js.Num wb
    /\ wb < wa + da
    /\ wb < wa + (2 # 24000)
    /\ wb - wa < da.
Proof.
  cbn zeta. eexists _, _, _, _, _.
  split; [vm_compute; reflexivity|].
  split; [reflexivity|]. split; [reflexivity|]. split; [reflexivity|].
  split; [reflexivity|]. split; reflexivity.
Qed.

(** *** Failure to start a session *)

Lemma failure_message_cases (err : Failure) :
  device_error err = true ->
  failure_message err
  = not_found_text
  \/ failure_message err
     = denied_text
  \/ failure_message err
     = in_use_text.
Proof.
  unfold device_error, failure_message.
  destruct (name_is err "NotFoundError" "DevicesNotFoundError"); [auto|].
  destruct (name_is err "NotAllowedError" "PermissionDeniedError"); [auto|].
  destruct (name_is err "NotReadableError" "TrackStartError"); [auto|].
  discriminate.
Qed.

Lemma failure_message_shown (err : Failure) :
  device_error err = true -> truthy (trim (failure_message err)) = true.
Proof.
  intros H. destruct (failure_message_cases err H) as [-> | [-> | ->]];
    vm_compute; reflexivity.
Qed.

(** An item with text to show is added at the end of the transcript. *)
Lemma addTranscription_shown (env : Env) (t : jsstring) (r : Role)
    (s : State) :
  truthy (trim t) = true ->
  transcriptions (addTranscription env t r None None s)
  = transcriptions s
    ++ [ {| text := t; role := r;
            id := newId env (List.length (transcriptions s));
            isVerified := None; translation := None |} ].
Proof.
  intros Ht. unfold addTranscription. rewrite Ht. cbn [negb andb].
  fields. reflexivity.
Qed.

Lemma onStartFailure_shown (env : Env) (err : Failure) (s : State) :
  device_error err = true ->
  let s' := onStartFailure env err s in
  status s' = Error
  /\ transcriptions s'
     = transcriptions s
       ++ [ {| text := failure_message err; role := ai;
               id := newId env (List.length (transcriptions s));
               isVerified := None; translation := None |} ]
  /\ isActive s' = isActive s
  /\ isConnecting s' = false.
Proof.
  intros Hd. cbn zeta. unfold onStartFailure. cbn zeta. fields.
  rewrite addTranscription_status, addTranscription_isActive.
  pose proof (addTranscription_shown env (failure_message err) ai
                (set_status Error s) (failure_message_shown err Hd)) as Ht.
  fields_in Ht. fields. auto.
Qed.



(** *** Function calls of the model *)

Lemma handleFunctionCall_toggle (env : Env) (s : State) (fc : FunctionCall) :
  name fc = js "toggle_microphone" ->
  is_Some (mediaStreamRef s) ->
  let s' := handleFunctionCall env s fc in
  isMicMuted s' = should_mute fc
  /\ is_Some (mediaStreamRef s')
  /\ selectedAccent s' = selectedAccent s
  /\ detectedAccentConfidence s' = detectedAccentConfidence s.
Proof.
  intros Hn [stream Hs]. cbn zeta. unfold handleFunctionCall. rewrite Hn.
  literal_names. cbn match. rewrite Hs. cbn zeta. fields.
  repeat split. eexists. reflexivity.
Qed.

Lemma handleFunctionCall_detect (env : Env) (s : State) (fc : FunctionCall) :
  name fc = js "detect_accent" ->
  let s' := handleFunctionCall env s fc in
  selectedAccent s' = accent fc
  /\ detectedAccentConfidence s' = confidence_of fc
  /\ isMicMuted s' = isMicMuted s
  /\ mediaStreamRef s' = mediaStreamRef s.
Proof.
  intros Hn. cbn zeta. unfold handleFunctionCall. rewrite Hn.
  literal_names. cbn match. cbn zeta. fields. auto.
Qed.

Lemma handleFunctionCall_other (env : Env) (s : State) (fc : FunctionCall) :
  jsstring_eqb (name fc) (js "toggle_microphone") = false ->
  jsstring_eqb (name fc) (js "detect_accent") = false ->
  let s' := handleFunctionCall env s fc in
  isMicMuted s' = isMicMuted s
  /\ mediaStreamRef s' = mediaStreamRef s
  /\ selectedAccent s' = selectedAccent s
  /\ detectedAccentConfidence s' = detectedAccentConfidence s.
Proof.
  intros Ht Hd. cbn zeta. unfold handleFunctionCall. rewrite Ht, Hd.
  repeat split; frame.
Qed.

Lemma last_call_snoc (n : jsstring) (calls : list FunctionCall)
    (fc : FunctionCall) :
  last_call n (calls ++ [fc])
  = if jsstring_eqb (name fc) n then Some fc else last_call n calls.
Proof.
  unfold last_call. rewrite fold_left_app. reflexivity.
Qed.

(** One call more: the state shows the last calls of the longer list. *)
Lemma reflects_call (env : Env) (calls : list FunctionCall) (s : State)
    (fc : FunctionCall) :
  is_Some (mediaStreamRef s) -> reflects calls s ->
  is_Some (mediaStreamRef (handleFunctionCall env s fc))
  /\ reflects (calls ++ [fc]) (handleFunctionCall env s fc).
Proof.
  intros Hs [Hmic Hacc]. unfold reflects. rewrite !last_call_snoc.
  destruct (jsstring_eqb (name fc) (js "toggle_microphone")) eqn:Et;
    destruct (jsstring_eqb (name fc) (js "detect_accent")) eqn:Ed.
  - apply jsstring_eqb_eq in Et, Ed. rewrite Et in Ed.
    vm_compute in Ed. discriminate Ed.
  - apply jsstring_eqb_eq in Et.
    destruct (handleFunctionCall_toggle env s fc Et Hs)
      as (H1 & H2 & H3 & H4).
    split; [exact H2|]. split.
    + intros fc' [= <-]. exact H1.
    + intros fc' Hl. rewrite H3, H4. apply Hacc, Hl.
  - apply jsstring_eqb_eq in Ed.
    destruct (handleFunctionCall_detect env s fc Ed) as (H1 & H2 & H3 & H4).
    split; [rewrite H4; exact Hs|]. split.
    + intros fc' Hl. rewrite H3. apply Hmic, Hl.
    + intros fc' [= <-]. auto.
  - destruct (handleFunctionCall_other env s fc Et Ed)
      as (H1 & H2 & H3 & H4).
    split; [rewrite H2; exact Hs|]. split.
    + intros fc' Hl. rewrite H1. apply Hmic, Hl.
    + intros fc' Hl. rewrite H3, H4. apply Hacc, Hl.
Qed.

(** *** What the waiting handlers leave as it is *)

(** Each call that has arrived is handled, once, or waits. *)
Lemma callsFrom_accounts (env : Env) (message : Message)
    (calls : list FunctionCall) (l : Live) :
  Permutation
    (handled (callsFrom env message calls l)
     ++ calls_waiting (callsFrom env message calls l))
    (handled l ++ calls_waiting l ++ calls).
Proof.
  revert l. induction calls as [|fc rest IH]; intros l.
  - cbn [callsFrom handled]. unfold calls_waiting. cbn [waiting].
    rewrite app_nil_r. reflexivity.
  - cbn [callsFrom].
    destruct (jsstring_eqb (name fc) (js "translate_conversation")).
    + unfold calls_waiting. cbn [handled waiting].
      rewrite map_app, concat_app. cbn [map List.concat asking behind].
      rewrite app_nil_r. reflexivity.
    + rewrite IH. cbn [handled]. unfold calls_waiting. cbn [waiting].
      rewrite <- !app_assoc. apply Permutation_app_head.
      cbn [app]. apply Permutation_middle.
Qed.

Lemma calls_waiting_delete (ws : list Waiting) (k : nat) (w : Waiting) :
  ws !! k = Some w ->
  Permutation (List.concat (map (fun w => asking w :: behind w) ws))
    (asking w :: behind w
     ++ List.concat (map (fun w => asking w :: behind w) (delete k ws))).
Proof.
  revert k. induction ws as [|w0 ws IH]; intros [|k] H;
    try discriminate H.
  - injection H as ->. reflexivity.
  - cbn [lookup list_lookup] in H. cbn [delete list_delete map List.concat].
    rewrite (IH k H).
    change (asking w :: behind w ++ ?x) with ((asking w :: behind w) ++ x).
    rewrite !app_assoc. apply Permutation_app_tail.
    apply Permutation_app_comm.
Qed.

Lemma live_step_accounts (l : Live) (ev : Env * LiveEvent) :
  Permutation
    (handled (live_step l ev) ++ calls_waiting (live_step l ev))
    (handled l ++ calls_waiting l ++ live_calls_in [ev]).
Proof.
  destruct ev as [env [e|k]];
    cbn [live_step live_calls_in fst snd map List.concat].
  - rewrite app_nil_r.
    destruct e as [startup | initialText | message | j | | |
                   | a | checked startup];
      cbn [calls_in fst snd map List.concat app handled];
      unfold calls_waiting at 1; cbn [waiting]; fold (calls_waiting l);
      rewrite ?app_nil_r; try reflexivity.
    unfold messageArrives.
    destruct (toolCall message) as [calls|]; rewrite callsFrom_accounts;
      rewrite ?app_nil_r; reflexivity.
  - rewrite app_nil_r. unfold translationArrives.
    destruct (waiting l !! k) as [w|] eqn:E; [|reflexivity].
    cbn zeta. rewrite callsFrom_accounts.
    unfold calls_waiting. cbn [handled waiting].
    rewrite (calls_waiting_delete (waiting l) k w E).
    rewrite <- !app_assoc. apply Permutation_app_head. cbn [app].
    apply Permutation_cons; [reflexivity|]. apply Permutation_app_comm.
Qed.

Lemma live_run_accounts (evs : list (Env * LiveEvent)) (l : Live) :
  Permutation
    (handled (live_run l evs) ++ calls_waiting (live_run l evs))
    (handled l ++ calls_waiting l ++ live_calls_in evs).
Proof.
  revert l. induction evs as [|ev evs IH]; intros l.
  - cbn. rewrite app_nil_r. reflexivity.
  - cbn [live_run fold_left]. fold (live_run (live_step l ev) evs).
    rewrite IH, (live_calls_in_cons ev evs), !app_assoc.
    apply Permutation_app_tail. rewrite <- app_assoc.
    apply live_step_accounts.
Qed.

(** The parts of the handler that do not touch what the two tools
    set. *)
Lemma onTranscription_shown (message : Message) (s : State) :
  let s' := onTranscription message s in
  isMicMuted s' = isMicMuted s
  /\ mediaStreamRef s' = mediaStreamRef s
  /\ selectedAccent s' = selectedAccent s
  /\ detectedAccentConfidence s' = detectedAccentConfidence s.
Proof.
  cbn zeta. unfold onTranscription. repeat split; frame.
Qed.

Lemma onAudio_shown (env : Env) (message : Message) (s r : State) :
  onAudio env message s = inl r \/ onAudio env message s = inr r ->
  isMicMuted r = isMicMuted s
  /\ mediaStreamRef r = mediaStreamRef s
  /\ selectedAccent r = selectedAccent s
  /\ detectedAccentConfidence r = detectedAccentConfidence s.
Proof.
  unfold onAudio, playAudio. cbn zeta.
  intros [H|H]; repeat case_match; simplify_eq; fields; auto.
Qed.

Lemma onTurnComplete_shown (env : Env) (s : State) :
  let s' := onTurnComplete env s in
  isMicMuted s' = isMicMuted s
  /\ mediaStreamRef s' = mediaStreamRef s
  /\ selectedAccent s' = selectedAccent s
  /\ detectedAccentConfidence s' = detectedAccentConfidence s.
Proof.
  cbn zeta. unfold onTurnComplete. repeat split; frame.
Qed.

Lemma afterToolCalls_shown (env : Env) (message : Message) (s : State) :
  let s' := afterToolCalls env message s in
  isMicMuted s' = isMicMuted s
  /\ mediaStreamRef s' = mediaStreamRef s
  /\ selectedAccent s' = selectedAccent s
  /\ detectedAccentConfidence s' = detectedAccentConfidence s.
Proof.
  cbn zeta. unfold afterToolCalls. cbn zeta.
  destruct (onTranscription_shown message s) as (A1 & A2 & A3 & A4).
  cbn zeta in A1, A2, A3, A4.
  destruct (onAudio env message (onTranscription message s))
    as [r|r] eqn:E.
  - destruct (onAudio_shown env message _ r (or_introl E))
      as (B1 & B2 & B3 & B4).
    rewrite B1, B2, B3, B4. auto.
  - destruct (onAudio_shown env message _ r (or_intror E))
      as (B1 & B2 & B3 & B4).
    destruct (onTurnComplete_shown env r) as (C1 & C2 & C3 & C4).
    cbn zeta in C1, C2, C3, C4.
    destruct (turnComplete message);
      rewrite ?C1, ?C2, ?C3, ?C4, B1, B2, B3, B4; auto.
Qed.

Lemma translation_shown (env : Env) (s : State) :
  let s' := translationAnswered env s in
  isMicMuted s' = isMicMuted s
  /\ mediaStreamRef s' = mediaStreamRef s
  /\ selectedAccent s' = selectedAccent s
  /\ detectedAccentConfidence s' = detectedAccentConfidence s.
Proof.
  cbn zeta. unfold translationAnswered. repeat split; frame.
Qed.

Lemma reflects_frame (calls : list FunctionCall) (s s' : State) :
  isMicMuted s' = isMicMuted s ->
  selectedAccent s' = selectedAccent s ->
  detectedAccentConfidence s' = detectedAccentConfidence s ->
  reflects calls s -> reflects calls s'.
Proof.
  unfold reflects. intros -> -> ->. auto.
Qed.

(** What holds of the component between two events: there is a media
    stream, the state shows the last calls handled, and each waiting
    handler waits at a [translate_conversation] call. *)
Lemma callsFrom_reflects (env : Env) (message : Message)
    (calls : list FunctionCall) (l : Live) :
  is_Some (mediaStreamRef (current l)) ->
  reflects (handled l) (current l) ->
  Forall (fun w => name (asking w) = js "translate_conversation")
         (waiting l) ->
  let l' := callsFrom env message calls l in
  is_Some (mediaStreamRef (current l'))
  /\ reflects (handled l') (current l')
  /\ Forall (fun w => name (asking w) = js "translate_conversation")
            (waiting l').
Proof.
  cbn zeta. revert l. induction calls as [|fc rest IH]; intros l Hs Hr Hw.
  - cbn [callsFrom current waiting handled].
    destruct (afterToolCalls_shown env message (current l))
      as (H1 & H2 & H3 & H4).
    split; [rewrite H2; exact Hs|]. split; [|exact Hw].
    revert Hr. apply reflects_frame; assumption.
  - cbn [callsFrom].
    destruct (jsstring_eqb (name fc) (js "translate_conversation")) eqn:E.
    + apply jsstring_eqb_eq in E. cbn [current waiting handled].
      unfold translationAsked. split; [fields; exact Hs|]. split.
      * revert Hr. apply reflects_frame; fields; reflexivity.
      * apply Forall_app. split; [exact Hw|].
        apply Forall_singleton. exact E.
    + destruct (reflects_call env (handled l) (current l) fc Hs Hr)
        as [Hs' Hr'].
      apply IH; assumption.
Qed.

Lemma last_call_translate (n : jsstring) (calls : list FunctionCall)
    (fc : FunctionCall) :
  name fc = js "translate_conversation" ->
  jsstring_eqb (js "translate_conversation") n = false ->
  last_call n (calls ++ [fc]) = last_call n calls.
Proof.
  intros Hn H. rewrite last_call_snoc, Hn, H. reflexivity.
Qed.

Lemma live_step_reflects (l : Live) (env : Env) (ev : Message + nat) :
  is_Some (mediaStreamRef (current l)) ->
  reflects (handled l) (current l) ->
  Forall (fun w => name (asking w) = js "translate_conversation")
         (waiting l) ->
  let l' := live_step l
              (env, match ev with
                    | inl message => Occurs (MessageReceived message)
                    | inr k => TranslationAnswered k
                    end) in
  is_Some (mediaStreamRef (current l'))
  /\ reflects (handled l') (current l')
  /\ Forall (fun w => name (asking w) = js "translate_conversation")
            (waiting l').
Proof.
  intros Hs Hr Hw. cbn zeta. destruct ev as [message|k];
    cbn [live_step fst snd].
  - unfold messageArrives.
    destruct (toolCall message); apply callsFrom_reflects; assumption.
  - unfold translationArrives.
    destruct (waiting l !! k) as [w|] eqn:E; [|auto].
    cbn zeta.
    assert (Hn : name (asking w) = js "translate_conversation").
    { rewrite Forall_lookup in Hw. exact (Hw k w E). }
    destruct (translation_shown env (current l)) as (H1 & H2 & H3 & H4).
    apply callsFrom_reflects; cbn [current waiting handled].
    + fields. rewrite H2. exact Hs.
    + destruct Hr as [Hmic Hacc]. unfold reflects.
      rewrite !(last_call_translate _ _ _ Hn) by reflexivity.
      fields. rewrite H1, H3, H4. auto.
    + rewrite delete_take_drop. apply Forall_app. split.
      * apply Forall_take, Hw.
      * apply Forall_drop, Hw.
Qed.

Lemma live_run_reflects (evs : list (Env * (Message + nat))) (l : Live) :
  is_Some (mediaStreamRef (current l)) ->
  reflects (handled l) (current l) ->
  Forall (fun w => name (asking w) = js "translate_conversation")
         (waiting l) ->
  reflects (handled (live_run l (messageEvents evs)))
           (current (live_run l (messageEvents evs))).
Proof.
  revert l. induction evs as [|[env ev] evs IH]; intros l Hs Hr Hw.
  - exact Hr.
  - cbn [messageEvents map live_run fold_left fst snd].
    destruct (live_step_reflects l env ev Hs Hr Hw) as (Hs' & Hr' & Hw').
    cbn zeta in Hs', Hr', Hw'.
    apply (IH _ Hs' Hr' Hw').
Qed.

(** C7.  With an active media stream, after any sequence of messages of
    the model and of answers of the translation service, [isMicMuted] is
    the [should_mute] argument of the [toggle_microphone] call handled
    last, and [selectedAccent] and [detectedAccentConfidence] are the
    accent and the confidence of the [detect_accent] call handled last.
    Each call that has arrived has been handled, once, or stands in a
    handler that waits for a translation; when no message asks for a
    translation, the calls are handled in the order in which they
    arrive, so that the state shows the most recent calls received, and
    the component goes as in [run]. *)
Theorem state_reflects_last_calls (s : VoiceInterface.State)
    (evs : list (VoiceInterface.Env * (VoiceInterface.Message + nat))) :
  is_Some (VoiceInterface.mediaStreamRef s) ->
  let events := VoiceInterface.messageEvents evs in
  let l := VoiceInterface.live_run (VoiceInterface.at_rest s) events in
  let s' := VoiceInterface.current l in
  (forall fc : VoiceInterface.FunctionCall,
     VoiceInterface.last_call (Js.js "toggle_microphone")
       (VoiceInterface.handled l) = Some fc ->
     VoiceInterface.isMicMuted s' = VoiceInterface.should_mute fc)
  /\ (forall fc : VoiceInterface.FunctionCall,
        VoiceInterface.last_call (Js.js "detect_accent")
          (VoiceInterface.handled l) = Some fc ->
        VoiceInterface.selectedAccent s' = VoiceInterface.accent fc
        /\ VoiceInterface.detectedAccentConfidence s'
           = VoiceInterface.confidence_of fc)
  /\ Permutation
       (VoiceInterface.handled l ++ VoiceInterface.calls_waiting l)
       (VoiceInterface.live_calls_in events)
  /\ (VoiceInterface.no_translation events ->
      VoiceInterface.handled l = VoiceInterface.live_calls_in events
      /\ VoiceInterface.waiting l = []
      /\ s' = VoiceInterface.run s (VoiceInterface.occurred events)).
Proof.
  intros Hs. cbn zeta.
  assert (Hr : reflects (handled (at_rest s)) (current (at_rest s)))
    by (split; intros fc Hl; discriminate Hl).
  destruct (live_run_reflects evs (at_rest s) Hs Hr (Forall_nil_2 _))
    as [Hmic Hacc].
  split; [exact Hmic|]. split; [exact Hacc|]. split.
  - apply (live_run_accounts (messageEvents evs) (at_rest s)).
  - intros Hno.
    rewrite (live_run_no_translation _ (at_rest s) Hno eq_refl).
    cbn [current waiting handled at_rest app]. auto.
Qed.

Lemma state_reflects_last_calls_witness :
  let env := VoiceInterface.sample_env 0 None in
  let s := VoiceInterface.step (VoiceInterface.mount true ∅)
             (env, VoiceInterface.StartClicked
                     (VoiceInterface.Connecting
                        {| VoiceInterface.audioTracks := [true] |})) in
  let call := fun (n : string) (mute : bool) =>
    {| VoiceInterface.fc_id := Js.js n;
       VoiceInterface.name := Js.js n;
       VoiceInterface.should_mute := mute;
       VoiceInterface.accent := [];
       VoiceInterface.arg_confidence := None |} in
  let evs :=
    [ (env, inl (VoiceInterface.toolCallMessage
                   [ call "translate_conversation" false;
                     call "toggle_microphone" true ]));
      (env, inl (VoiceInterface.toolCallMessage
                   [ call "toggle_microphone" false ]));
      (env, inr 0%nat) ] in
  let l := VoiceInterface.live_run (VoiceInterface.at_rest s)
             (VoiceInterface.messageEvents evs) in
  is_Some (VoiceInterface.mediaStreamRef s)
  /\ VoiceInterface.handled l
     = [ call "toggle_microphone" false;
         call "translate_conversation" false;
         call "toggle_microphone" true ]
  /\ VoiceInterface.isMicMuted (VoiceInterface.current l) = true.
Proof.
  cbn zeta.
  assert (Hs : is_Some
                 (mediaStreamRef
                    (step (mount true ∅)
                       (sample_env 0 None,
                        StartClicked
                          (Connecting {| audioTracks := [true] |})))))
    by (eexists; reflexivity).
  split; [exact Hs|]. split; [vm_compute; reflexivity|].
  refine (proj1 (state_reflects_last_calls _
                   [ (sample_env 0 None,
                      inl (toolCallMessage
                             [ {| fc_id := js "translate_conversation";
                                  name := js "translate_conversation";
                                  should_mute := false; accent := [];
                                  arg_confidence := None |};
                               {| fc_id := js "toggle_microphone";
                                  name := js "toggle_microphone";
                                  should_mute := true; accent := [];
                                  arg_confidence := None |} ]));
                     (sample_env 0 None,
                      inl (toolCallMessage
                             [ {| fc_id := js "toggle_microphone";
                                  name := js "toggle_microphone";
                                  should_mute := false; accent := [];
                                  arg_confidence := None |} ]));
                     (sample_env 0 None, inr 0%nat) ]
                   Hs)
                {| fc_id := js "toggle_microphone";
                   name := js "toggle_microphone";
                   should_mute := true; accent := [];
                   arg_confidence := None |} _).
  vm_compute. reflexivity.
Defined.

(** A [toggle_microphone] call that stands behind a
    [translate_conversation] call is handled when the translation has
    been answered: after a later call to unmute, the microphone is shown
    as muted though the most recent call received unmutes it. *)
Lemma last_received_call_not_shown :
  let env := VoiceInterface.sample_env 0 None in
  let s := VoiceInterface.step (VoiceInterface.mount true ∅)
             (env, VoiceInterface.StartClicked
                     (VoiceInterface.Connecting
                        {| VoiceInterface.audioTracks := [true] |})) in
  let call := fun (n : string) (mute : bool) =>
    {| VoiceInterface.fc_id := Js.js n;
       VoiceInterface.name := Js.js n;
       VoiceInterface.should_mute := mute;
       VoiceInterface.accent := [];
       VoiceInterface.arg_confidence := None |} in
  let events :=
    VoiceInterface.messageEvents
      [ (env, inl (VoiceInterface.toolCallMessage
                     [ call "translate_conversation" false;
                       call "toggle_microphone" true ]));
        (env, inl (VoiceInterface.toolCallMessage
                     [ call "toggle_microphone" false ]));
        (env, inr 0%nat) ] in
  let l := VoiceInterface.live_run (VoiceInterface.at_rest s) events in
  is_Some (VoiceInterface.mediaStreamRef s)
  /\ VoiceInterface.last_call (Js.js "toggle_microphone")
       (VoiceInterface.live_calls_in events)
     = Some (call "toggle_microphone" false)
  /\ VoiceInterface.waiting l = []
  /\ VoiceInterface.isMicMuted (VoiceInterface.current l) = true.
Proof.
  cbn zeta. split; [eexists; reflexivity|].
  split; [vm_compute; reflexivity|].
  split; vm_compute; reflexivity.
Qed.

(** *** The handlers on concrete inputs *)

Example two_chunks_in_sequence :
  let env := sample_env 1 None in
  started (run (mount true ∅)
             (audioEvents [(env, js "AAAAAA=="); (env, js "AAAAAA==")]))
  = [ {| when := Num 1; bufferDuration := Double.of_Q (2 # 24000) |};
      {| when := Double.add (Num 1) (Double.of_Q (2 # 24000));
         bufferDuration := Double.of_Q (2 # 24000) |} ].
Proof.
  vm_compute. reflexivity.
Qed.

Example permission_denied_shown :
  let env := sample_env 0 None in
  let s := startSession (mount true ∅) env
             (UserMediaRejected {| err_name := js "PermissionDeniedError";
                                   err_message := [] |})
             (mount true ∅) in
  status s = Error /\ isConnecting s = false /\ isActive s = false
  /\ map text (transcriptions s)
     = [ denied_text ].
Proof.
  vm_compute. auto.
Qed.

Example typing_delay_capped :
  let env := sample_env 0 None in
  let slow := {| fc_id := js "1"; name := js "slow_typing_speed";
                 should_mute := false; accent := [];
                 arg_confidence := None |} in
  typingSpeedDelay
    (run (mount true ∅)
       (toolCallEvents [(env, [slow; slow; slow; slow; slow])]))
  = MAX_TYPING_SPEED_DELAY.
Proof.
  vm_compute. reflexivity.
Qed.

(** Reading a field through the updates and through the handlers
    already treated, without splitting. *)
Ltac through :=
  repeat first [ progress fields | progress autorewrite with frame ].

(** *** The texts of the transcript *)

Lemma shown_ok_same (s s' : State) :
  transcriptions s' = transcriptions s -> shown_ok s -> shown_ok s'.
Proof.
  unfold shown_ok. intros ->. auto.
Qed.

(** [addTranscription] without a translation adds no item with a blank
    text. *)
Lemma addTranscription_shown_ok (env : Env) (t : jsstring) (r : Role)
    (v : option bool) (s : State) :
  shown_ok s -> shown_ok (addTranscription env t r v None s).
Proof.
  unfold shown_ok, addTranscription. intros H.
  destruct (truthy (trim t)) eqn:E; cbn [negb andb]; [|exact H].
  cbn zeta. fields. apply Forall_app. split; [exact H|].
  apply Forall_cons_2; [exact E | apply Forall_nil_2].
Qed.

Lemma imap_texts (f : nat -> TranscriptItem -> TranscriptItem)
    (l : list TranscriptItem) :
  (forall i x, text (f i x) = text x) ->
  Forall (fun t => truthy (trim (text t)) = true) l ->
  Forall (fun t => truthy (trim (text t)) = true) (imap f l).
Proof.
  intros Hf H. apply Forall_lookup. intros i y Hy.
  rewrite list_lookup_imap in Hy.
  destruct (l !! i) as [x|] eqn:Hx; [|discriminate].
  injection Hy as <-. rewrite Hf.
  rewrite Forall_lookup in H. exact (H i x Hx).
Qed.

Lemma translateFullConversation_shown_ok (env : Env) (s : State) :
  shown_ok s -> shown_ok (translateFullConversation env s).
Proof.
  intros H. unfold translateFullConversation. cbn zeta.
  destruct (translationReply env) as [translatedText|].
  - unfold shown_ok. fields. apply imap_texts; [|exact H].
    intros i x. repeat case_match; reflexivity.
  - pose proof (addTranscription_shown_ok env
                  (js "Translation failed. Please try again.") ai None
                  (set_isTranslating true s)) as Hadd.
    unfold shown_ok in *. fields_in Hadd. fields. apply Hadd, H.
Qed.

Lemma handleFunctionCall_shown_ok (env : Env) (s : State)
    (fc : FunctionCall) :
  shown_ok s -> shown_ok (handleFunctionCall env s fc).
Proof.
  intros H.
  destruct (jsstring_eqb (name fc) (js "translate_conversation")) eqn:E.
  - apply jsstring_eqb_eq in E. unfold handleFunctionCall. rewrite E.
    literal_names. cbn match. cbn zeta.
    pose proof (translateFullConversation_shown_ok env s H) as Ht.
    unfold shown_ok in *. fields. exact Ht.
  - revert H. apply shown_ok_same.
    apply handleFunctionCall_transcriptions, E.
Qed.

Lemma onTurnComplete_shown_ok (env : Env) (s : State) :
  shown_ok s -> shown_ok (onTurnComplete env s).
Proof.
  intros H. unfold onTurnComplete. cbn zeta.
  set (s1 := if truthy (currentUserTranscription s)
             then set_status Processing
                    (set_currentUserTranscription []
                       (addTranscription env (currentUserTranscription s)
                          user None None s))
             else s).
  assert (H1 : shown_ok s1).
  { unfold s1. case_match; [|exact H].
    pose proof (addTranscription_shown_ok env (currentUserTranscription s)
                  user None s H) as Hadd.
    unfold shown_ok in *. fields. exact Hadd. }
  clearbody s1. case_match; [|exact H1].
  pose proof (addTranscription_shown_ok env (currentAiTranscription s1)
                ai None s1 H1) as Hadd.
  unfold shown_ok in *. fields. exact Hadd.
Qed.

Lemma onmessage_shown_ok (env : Env) (message : Message) (s : State) :
  shown_ok s -> shown_ok (onmessage env message s).
Proof.
  apply onmessage_keeps.
  - intros s0 fc. apply handleFunctionCall_shown_ok.
  - intros s0. apply shown_ok_same, onTranscription_transcriptions.
  - intros s0 r H0 Hr. apply (shown_ok_same s0); [|exact H0].
    apply (onAudio_frame env message s0 r Hr).
  - intros s0. apply onTurnComplete_shown_ok.
Qed.

Lemma onStartFailure_shown_ok (env : Env) (err : Failure) (s : State) :
  shown_ok s -> shown_ok (onStartFailure env err s).
Proof.
  intros H. unfold onStartFailure. cbn zeta.
  pose proof (addTranscription_shown_ok env (failure_message err) ai None
                (set_status Error s)) as Hadd.
  unfold shown_ok in *. fields_in Hadd. fields. apply Hadd, H.
Qed.

Lemma startSession_shown_ok (seen : State) (env : Env) (startup : Startup)
    (s : State) :
  shown_ok s -> shown_ok (startSession seen env startup s).
Proof.
  intros H. unfold startSession. case_match; [exact H|]. cbn zeta.
  destruct startup as [err | | err | stream err | stream].
  - apply onStartFailure_shown_ok. unfold shown_ok in *. fields. exact H.
  - pose proof (addTranscription_shown_ok env no_device_text ai None
                  (set_status Error
                     (set_status Initializing (set_isConnecting true s))))
      as Hadd.
    unfold shown_ok in *. fields_in Hadd. fields. apply Hadd, H.
  - apply onStartFailure_shown_ok. unfold shown_ok in *. fields. exact H.
  - apply onStartFailure_shown_ok. unfold shown_ok in *. fields. exact H.
  - unfold shown_ok in *. fields. exact H.
Qed.

Lemma stopSession_shown_ok (s : State) : shown_ok s -> shown_ok (stopSession s).
Proof.
  unfold shown_ok. fields. auto.
Qed.

Lemma step_shown_ok (s : State) (ev : Env * Event) :
  shown_ok s -> shown_ok (step s ev).
Proof.
  intros H. destruct ev as [env [startup | initialText | message | k | | |
                                 | a | checked startup]];
    cbn [step fst snd].
  - apply startSession_shown_ok, H.
  - unfold onopen. cbn zeta.
    assert (H1 : shown_ok
                   (set_status Listening
                      (set_isConnecting false (set_isActive true s))))
      by (unfold shown_ok in *; fields; exact H).
    repeat case_match; try exact H1.
    apply addTranscription_shown_ok, H1.
  - apply onmessage_shown_ok, H.
  - unfold onended. cbn zeta. repeat case_match;
      unfold shown_ok in *; fields; exact H.
  - unfold onerror, shown_ok in *. fields. exact H.
  - apply stopSession_shown_ok, H.
  - apply stopSession_shown_ok, H.
  - unfold shown_ok in *. fields. exact H.
  - unfold handleToggleAutoAccentDetection. cbn zeta.
    assert (H1 : shown_ok
                   (saveAutoAccentDetectionState env checked
                      (set_isAutoAccentDetectionEnabled checked s))).
    { unfold saveAutoAccentDetectionState, shown_ok in *.
      case_match; fields; exact H. }
    case_match; [|exact H1].
    apply startSession_shown_ok, stopSession_shown_ok, H1.
Qed.


(** *** The tool responses *)

Section SentFrame.
Variables (env : Env) (s : State).

Lemma addTranscription_sent (t : jsstring) (r : Role) (v : option bool)
    (tr : option jsstring) :
  sent (addTranscription env t r v tr s) = sent s.
Proof.
  unfold addTranscription. frame.
Qed.

Lemma addTranscription_currentAiTranscription (t : jsstring) (r : Role)
    (v : option bool) (tr : option jsstring) :
  currentAiTranscription (addTranscription env t r v tr s)
  = currentAiTranscription s.
Proof.
  unfold addTranscription. frame.
Qed.

Lemma addTranscription_currentUserTranscription (t : jsstring) (r : Role)
    (v : option bool) (tr : option jsstring) :
  currentUserTranscription (addTranscription env t r v tr s)
  = currentUserTranscription s.
Proof.
  unfold addTranscription. frame.
Qed.

End SentFrame.

Hint Rewrite addTranscription_sent addTranscription_currentAiTranscription
  addTranscription_currentUserTranscription : frame.

Lemma translateFullConversation_sent (env : Env) (s : State) :
  sent (translateFullConversation env s) = sent s.
Proof.
  unfold translateFullConversation. frame.
Qed.

Hint Rewrite translateFullConversation_sent : frame.

Lemma onTranscription_sent (message : Message) (s : State) :
  sent (onTranscription message s) = sent s.
Proof.
  unfold onTranscription. frame.
Qed.

Lemma onTurnComplete_sent (env : Env) (s : State) :
  sent (onTurnComplete env s) = sent s.
Proof.
  unfold onTurnComplete. frame.
Qed.

Lemma onAudio_sent (env : Env) (message : Message) (s r : State) :
  onAudio env message s = inl r \/ onAudio env message s = inr r ->
  sent r = sent s.
Proof.
  unfold onAudio, playAudio. cbn zeta.
  intros [H|H]; repeat case_match; simplify_eq; fields; auto.
Qed.

Lemma startSession_sent (seen : State) (env : Env) (startup : Startup)
    (s : State) :
  sent (startSession seen env startup s) = sent s.
Proof.
  unfold startSession, onStartFailure. frame.
Qed.

Lemma onopen_sent (env : Env) (initialText : option jsstring) (s : State) :
  sent (onopen env initialText s) = sent s.
Proof.
  unfold onopen. frame.
Qed.

(** A call is answered when its name is one of the seven, with its own
    identifier and name, and not otherwise. *)
Lemma handleFunctionCall_answered (env : Env) (s : State)
    (fc : FunctionCall) :
  answered (sent (handleFunctionCall env s fc))
  = answered (sent s)
    ++ (if recognised fc then [(fc_id fc, name fc)] else []).
Proof.
  unfold handleFunctionCall, recognised, tool_names. cbn [existsb].
  cbn zeta.
  repeat case_match; through; unfold answered; rewrite ?map_app;
    cbn [orb map response_id response_name app] in *;
    rewrite ?app_nil_r; first [reflexivity | discriminate].
Qed.

Lemma calls_answered (env : Env) (calls : list FunctionCall) (s : State) :
  answered (sent (fold_left (handleFunctionCall env) calls s))
  = answered (sent s)
    ++ map (fun fc => (fc_id fc, name fc)) (List.filter recognised calls).
Proof.
  revert s. induction calls as [|fc calls IH]; intros s.
  - cbn. rewrite app_nil_r. reflexivity.
  - cbn [fold_left List.filter]. rewrite IH, handleFunctionCall_answered.
    destruct (recognised fc); cbn [map]; rewrite <- app_assoc; reflexivity.
Qed.

Lemma onmessage_sent (env : Env) (message : Message) (s : State) :
  sent (onmessage env message s) = sent (onToolCall env message s).
Proof.
  unfold onmessage. cbn zeta.
  destruct (onAudio env message
              (onTranscription message (onToolCall env message s)))
    as [r|r] eqn:E.
  - rewrite (onAudio_sent env message _ r (or_introl E)).
    apply onTranscription_sent.
  - destruct (turnComplete message); rewrite ?onTurnComplete_sent;
      rewrite (onAudio_sent env message _ r (or_intror E));
      apply onTranscription_sent.
Qed.

Lemma step_answered (s : State) (ev : Env * Event) :
  answered (sent (step s ev))
  = answered (sent s)
    ++ map (fun fc => (fc_id fc, name fc))
           (List.filter recognised (calls_in [ev])).
Proof.
  destruct ev as [env [startup | initialText | message | k | | |
                       | a | checked startup]];
    cbn [step fst snd calls_in map List.concat app];
    rewrite ?app_nil_r.
  - rewrite startSession_sent. reflexivity.
  - rewrite onopen_sent. reflexivity.
  - rewrite onmessage_sent. unfold onToolCall.
    destruct (toolCall message) as [calls|].
    + apply calls_answered.
    + cbn [List.filter map]. rewrite app_nil_r. reflexivity.
  - unfold onended. cbn zeta. repeat case_match; fields; reflexivity.
  - unfold onerror. fields. reflexivity.
  - unfold onclose. fields. reflexivity.
  - fields. reflexivity.
  - fields. reflexivity.
  - unfold handleToggleAutoAccentDetection, saveAutoAccentDetectionState.
    cbn zeta. repeat case_match; rewrite ?startSession_sent; fields;
      reflexivity.
Qed.

Lemma calls_in_cons (ev : Env * Event) (evs : list (Env * Event)) :
  calls_in (ev :: evs) = calls_in [ev] ++ calls_in evs.
Proof.
  unfold calls_in. cbn [map List.concat]. rewrite app_nil_r. reflexivity.
Qed.

Lemma answers_app (a b : list FunctionCall) :
  answers (a ++ b) = answers a ++ answers b.
Proof.
  unfold answers. rewrite List.filter_app, map_app. reflexivity.
Qed.

Lemma translationAnswered_sent (env : Env) (s : State) :
  sent (translationAnswered env s) = sent s.
Proof.
  unfold translationAnswered. frame.
Qed.

Lemma afterToolCalls_sent (env : Env) (message : Message) (s : State) :
  sent (afterToolCalls env message s) = sent s.
Proof.
  unfold afterToolCalls. cbn zeta.
  destruct (onAudio env message (onTranscription message s))
    as [r|r] eqn:E.
  - rewrite (onAudio_sent env message _ r (or_introl E)).
    apply onTranscription_sent.
  - destruct (turnComplete message); rewrite ?onTurnComplete_sent;
      rewrite (onAudio_sent env message _ r (or_intror E));
      apply onTranscription_sent.
Qed.

(** The calls handled from [calls] on are put behind those handled
    before, and are answered. *)
Lemma callsFrom_answered (env : Env) (message : Message)
    (calls : list FunctionCall) (l : Live) :
  exists new : list FunctionCall,
    handled (callsFrom env message calls l) = handled l ++ new
    /\ answered (sent (current (callsFrom env message calls l)))
       = answered (sent (current l)) ++ answers new.
Proof.
  revert l. induction calls as [|fc rest IH]; intros l.
  - exists []. cbn [callsFrom handled current].
    rewrite afterToolCalls_sent, !app_nil_r. auto.
  - cbn [callsFrom].
    destruct (jsstring_eqb (name fc) (js "translate_conversation")).
    + exists []. cbn [handled current]. unfold translationAsked. fields.
      rewrite !app_nil_r. auto.
    + destruct (IH {| current := handleFunctionCall env (current l) fc;
                      waiting := waiting l;
                      handled := handled l ++ [fc] |})
        as (new & Hh & Hs).
      cbn [handled current] in Hh, Hs. exists (fc :: new).
      rewrite Hh, Hs, handleFunctionCall_answered, <- !app_assoc.
      split; [reflexivity|]. unfold answers. cbn [List.filter].
      destruct (recognised fc); reflexivity.
Qed.

Lemma live_step_answered (l : Live) (ev : Env * LiveEvent) :
  Forall (fun w => name (asking w) = js "translate_conversation")
         (waiting l) ->
  exists new : list FunctionCall,
    handled (live_step l ev) = handled l ++ new
    /\ answered (sent (current (live_step l ev)))
       = answered (sent (current l)) ++ answers new.
Proof.
  intros Hw. destruct ev as [env [e|k]]; cbn [live_step fst snd].
  - destruct e as [startup | initialText | message | j | | |
                   | a | checked startup];
      try (exists []; cbn [handled current]; rewrite step_answered;
           cbn [calls_in fst snd map List.concat List.filter app];
           rewrite !app_nil_r; split; reflexivity).
    unfold messageArrives.
    destruct (toolCall message); apply callsFrom_answered.
  - unfold translationArrives.
    destruct (waiting l !! k) as [w|] eqn:E.
    + cbn zeta.
      assert (Hn : name (asking w) = js "translate_conversation").
      { rewrite Forall_lookup in Hw. exact (Hw k w E). }
      destruct (callsFrom_answered env (waiting_message w) (behind w)
                  {| current :=
                       sendToolResponse (asking w)
                         (TextResult (js "translated"))
                         (translationAnswered env (current l));
                     waiting := delete k (waiting l);
                     handled := handled l ++ [asking w] |})
        as (new & Hh & Hs).
      cbn [handled current] in Hh, Hs. exists (asking w :: new).
      rewrite Hh, Hs, <- !app_assoc. split; [reflexivity|].
      fields. rewrite translationAnswered_sent.
      unfold answered at 1. rewrite map_app.
      cbn [map response_id response_name]. fold (answered (sent (current l))).
      rewrite <- app_assoc. unfold answers at 2. cbn [List.filter].
      assert (Hrec : recognised (asking w) = true)
        by (unfold recognised; rewrite Hn; reflexivity).
      rewrite Hrec. reflexivity.
    + exists []. rewrite !app_nil_r. auto.
Qed.

Lemma live_run_answered (evs : list (Env * LiveEvent)) (l : Live) :
  Forall (fun w => name (asking w) = js "translate_conversation")
         (waiting l) ->
  exists new : list FunctionCall,
    handled (live_run l evs) = handled l ++ new
    /\ answered (sent (current (live_run l evs)))
       = answered (sent (current l)) ++ answers new.
Proof.
  revert l. induction evs as [|ev evs IH]; intros l Hw.
  - exists []. cbn. rewrite !app_nil_r. auto.
  - cbn [live_run fold_left]. fold (live_run (live_step l ev) evs).
    destruct (live_step_answered l ev Hw) as (new1 & Hh1 & Hs1).
    destruct (IH (live_step l ev) (live_step_asks l ev Hw))
      as (new2 & Hh2 & Hs2).
    exists (new1 ++ new2).
    rewrite Hh2, Hs2, Hh1, Hs1, answers_app, <- !app_assoc. auto.
Qed.

(** X16.  Along every run, handlers waiting for translations or not, the
    component has answered each function call that it has handled and
    whose name is one of the seven it knows, once, with the identifier
    and the name of the call, in the order in which the calls were
    handled; a call of another name gets no answer, and nothing else
    sends one.  Each call that has arrived has been handled, once, or
    stands in a handler that waits; when no message asks for a
    translation, the calls are handled and answered in the order in
    which they arrive, and the component goes as in [run]. *)
Theorem tool_calls_answered (s : VoiceInterface.State)
    (evs : list (VoiceInterface.Env * VoiceInterface.LiveEvent)) :
  let l := VoiceInterface.live_run (VoiceInterface.at_rest s) evs in
  VoiceInterface.answered
    (VoiceInterface.sent (VoiceInterface.current l))
  = VoiceInterface.answered (VoiceInterface.sent s)
    ++ map (fun fc => (VoiceInterface.fc_id fc, VoiceInterface.name fc))
           (List.filter VoiceInterface.recognised
              (VoiceInterface.handled l))
  /\ Permutation
       (VoiceInterface.handled l ++ VoiceInterface.calls_waiting l)
       (VoiceInterface.live_calls_in evs)
  /\ (VoiceInterface.no_translation evs ->
      VoiceInterface.handled l = VoiceInterface.live_calls_in evs
      /\ VoiceInterface.waiting l = []
      /\ VoiceInterface.current l
         = VoiceInterface.run s (VoiceInterface.occurred evs)).
Proof.
  cbn zeta.
  destruct (live_run_answered evs (at_rest s) (Forall_nil_2 _))
    as (new & Hh & Hs).
  cbn [at_rest handled current app] in Hh, Hs.
  split; [rewrite Hs, Hh; reflexivity|]. split.
  - apply (live_run_accounts evs (at_rest s)).
  - intros Hno.
    rewrite (live_run_no_translation _ (at_rest s) Hno eq_refl).
    cbn [current waiting handled at_rest app]. auto.
Qed.

Lemma tool_calls_answered_witness :
  let env := VoiceInterface.sample_env 0 None in
  let call := fun (i n : string) =>
    {| VoiceInterface.fc_id := Js.js i;
       VoiceInterface.name := Js.js n;
       VoiceInterface.should_mute := true;
       VoiceInterface.accent := [];
       VoiceInterface.arg_confidence := None |} in
  let evs :=
    [ (env, VoiceInterface.Occurs
              (VoiceInterface.MessageReceived
                 (VoiceInterface.toolCallMessage
                    [ call "1" "end_call"; call "2" "call_an_agent" ])));
      (env, VoiceInterface.Occurs VoiceInterface.StopClicked);
      (env, VoiceInterface.Occurs
              (VoiceInterface.MessageReceived
                 (VoiceInterface.toolCallMessage
                    [ call "3" "toggle_microphone" ]))) ] in
  let l := VoiceInterface.live_run
             (VoiceInterface.at_rest (VoiceInterface.mount true ∅)) evs in
  VoiceInterface.no_translation evs
  /\ VoiceInterface.handled l
     = [ call "1" "end_call"; call "2" "call_an_agent";
         call "3" "toggle_microphone" ]
  /\ VoiceInterface.answered
       (VoiceInterface.sent (VoiceInterface.current l))
     = [ (Js.js "1", Js.js "end_call");
         (Js.js "3", Js.js "toggle_microphone") ].
Proof.
  cbn zeta.
  assert (Hno : no_translation
                  [ (sample_env 0 None,
                     Occurs
                       (MessageReceived
                          (toolCallMessage
                             [ {| fc_id := js "1"; name := js "end_call";
                                  should_mute := true; accent := [];
                                  arg_confidence := None |};
                               {| fc_id := js "2";
                                  name := js "call_an_agent";
                                  should_mute := true; accent := [];
                                  arg_confidence := None |} ])));
                    (sample_env 0 None, Occurs StopClicked);
                    (sample_env 0 None,
                     Occurs
                       (MessageReceived
                          (toolCallMessage
                             [ {| fc_id := js "3";
                                  name := js "toggle_microphone";
                                  should_mute := true; accent := [];
                                  arg_confidence := None |} ]))) ]).
  { unfold no_translation.
    repeat (apply Forall_cons_2; [vm_compute; reflexivity|]).
    apply Forall_nil_2. }
  split; [exact Hno|].
  match type of Hno with
  | no_translation ?evs =>
      pose proof (tool_calls_answered (mount true ∅) evs) as (Hs & _ & Hh)
  end.
  destruct (Hh Hno) as (Hh' & _ & _).
  split; [rewrite Hh'; reflexivity|].
  cbn zeta in Hs. rewrite Hs, Hh'. vm_compute. reflexivity.
Defined.

(** *** The fragments of transcription *)

Lemma onmessage_fragment (env : Env) (r : Role) (t : jsstring) (s : State) :
  onmessage env (fragmentMessage r t) s
  = match r with
    | user =>
        set_currentUserTranscription (currentUserTranscription s ++ t) s
    | ai => set_currentAiTranscription (currentAiTranscription s ++ t) s
    end.
Proof.
  destruct r; reflexivity.
Qed.

Lemma fragments_run (fragments : list (Env * (Role * jsstring)))
    (s : State) :
  transcriptions (run s (fragmentEvents fragments)) = transcriptions s
  /\ currentUserTranscription (run s (fragmentEvents fragments))
     = currentUserTranscription s ++ spoken user fragments
  /\ currentAiTranscription (run s (fragmentEvents fragments))
     = currentAiTranscription s ++ spoken ai fragments.
Proof.
  revert s. induction fragments as [|[env [r t]] fragments IH]; intros s.
  - cbn. rewrite !app_nil_r. auto.
  - cbn [fragmentEvents map run fold_left fst snd].
    change (fold_left step (map _ fragments) ?x)
      with (run x (fragmentEvents fragments)).
    destruct (IH (step s (env, MessageReceived (fragmentMessage r t))))
      as (Ht & Hu & Ha).
    rewrite Ht, Hu, Ha. cbn [step fst snd]. rewrite onmessage_fragment.
    unfold spoken. cbn [List.filter fst snd].
    destruct r; cbn [Role_eqb map List.concat]; fields;
      rewrite <- ?app_assoc; auto.
Qed.

Lemma addTranscription_lines (env : Env) (t : jsstring) (r : Role)
    (v : option bool) (s : State) :
  lines_of (transcriptions (addTranscription env t r v None s))
  = lines_of (transcriptions s) ++ said r t.
Proof.
  unfold addTranscription, said.
  destruct (truthy (trim t)); cbn [negb andb].
  - cbn zeta. fields. unfold lines_of. rewrite map_app. reflexivity.
  - rewrite app_nil_r. reflexivity.
Qed.

Lemma said_empty (r : Role) : said r [] = [].
Proof.
  reflexivity.
Qed.

Lemma truthy_false (t : jsstring) : truthy t = false -> t = [].
Proof.
  destruct t; [reflexivity | discriminate].
Qed.

Lemma onTurnComplete_lines (env : Env) (s : State) :
  lines_of (transcriptions (onTurnComplete env s))
  = lines_of (transcriptions s)
    ++ said user (currentUserTranscription s)
    ++ said ai (currentAiTranscription s)
  /\ currentUserTranscription (onTurnComplete env s) = []
  /\ currentAiTranscription (onTurnComplete env s) = [].
Proof.
  unfold onTurnComplete. cbn zeta.
  destruct (truthy (currentUserTranscription s)) eqn:Eu;
    [|apply truthy_false in Eu; rewrite Eu, said_empty];
    through;
    (destruct (truthy (currentAiTranscription s)) eqn:Ea;
     [|apply truthy_false in Ea; rewrite ?Ea, ?said_empty]);
    through; rewrite ?addTranscription_lines; through;
    rewrite ?addTranscription_lines, ?app_nil_r, <- ?app_assoc;
    repeat split; try reflexivity; try assumption.
Qed.


(** *** The translation of the conversation *)

Lemma split_lines_join (lines : list jsstring) :
  lines <> [] ->
  Forall (fun line => ~ In 10%N line) lines ->
  split_lines (join [10%N] lines) = lines.
Proof.
  intros Hne H. induction H as [|line lines Hl _ IH]; [contradiction|].
  cbn [join]. destruct lines as [|line' lines].
  - apply split_lines_plain, Hl.
  - cbn [app]. rewrite split_lines_cons by exact Hl.
    rewrite IH by discriminate. reflexivity.
Qed.

Lemma startsWith_app (pre t : jsstring) : startsWith (pre ++ t) pre = true.
Proof.
  induction pre as [|c pre IH]; cbn [app startsWith].
  - destruct t; reflexivity.
  - rewrite N.eqb_refl, IH. reflexivity.
Qed.

(** The line of an item in the text sent to the translation service
    opens a block of the role of the item, with the text of the
    item. *)
Lemma prefixed_history_line (r : Role) (t : jsstring) :
  prefixed ((if Role_eqb r user then js "User" else js "AI")
            ++ js ": " ++ t)
  = Some (r, t).
Proof.
  destruct r; unfold prefixed; cbn [Role_eqb].
  - change (js "User" ++ js ": " ++ t) with (js "User: " ++ t).
    rewrite startsWith_app. reflexivity.
  - assert (startsWith (js "AI" ++ js ": " ++ t) (js "User: ") = false)
      as -> by reflexivity.
    change (js "AI" ++ js ": " ++ t) with (js "AI: " ++ t).
    rewrite startsWith_app. reflexivity.
Qed.

Lemma history_line_plain (r : Role) (t : jsstring) :
  ~ In 10%N t ->
  ~ In 10%N ((if Role_eqb r user then js "User" else js "AI")
           ++ js ": " ++ t).
Proof.
  intros H Hin. apply in_app_or in Hin as [Hin|Hin].
  - destruct r; vm_compute in Hin;
      repeat (destruct Hin as [Hin|Hin]; [discriminate Hin|]); exact Hin.
  - apply in_app_or in Hin as [Hin|Hin]; [|exact (H Hin)].
    vm_compute in Hin.
    repeat (destruct Hin as [Hin|Hin]; [discriminate Hin|]); exact Hin.
Qed.

(** The parser reads the text of the conversation back. *)
Lemma parse_history (l : list TranscriptItem) :
  Forall (fun t => text t <> [] /\ ~ In 10%N (text t)) l ->
  parseTranslatedConversation (conversationHistory l) = map own_entry l.
Proof.
  intros H. destruct l as [|t0 l0]; [reflexivity|].
  set (l := t0 :: l0) in *.
  rewrite (parse_all_prefixed _ (map (fun t => (role t, text t)) l));
    [rewrite map_map; reflexivity|].
  unfold conversationHistory. rewrite split_lines_join.
  - apply Forall2_fmap. apply Forall_Forall2_diag.
    eapply Forall_impl; [exact H|]. intros t [Ht _]. cbn [snd]. split.
    + apply prefixed_history_line.
    + destruct (text t); [contradiction | reflexivity].
  - discriminate.
  - apply Forall_fmap. eapply Forall_impl; [exact H|].
    intros t [_ Ht]. cbn. apply history_line_plain, Ht.
Qed.

Lemma lines_of_lookup (items seen : list TranscriptItem) (i : nat)
    (t : TranscriptItem) :
  lines_of items = lines_of seen ->
  items !! i = Some t ->
  exists t', seen !! i = Some t' /\ role t' = role t /\ text t' = text t.
Proof.
  intros H Ht.
  assert (Hl : lines_of items !! i = Some (role t, text t)).
  { unfold lines_of. rewrite list_lookup_fmap, Ht. reflexivity. }
  rewrite H in Hl. unfold lines_of in Hl. rewrite list_lookup_fmap in Hl.
  destruct (seen !! i) as [t'|]; [|discriminate].
  injection Hl as Hr Htx. eauto.
Qed.



(** X19.  When the answer of the translation service has no line that starts
    with one of the two prefixes (an empty answer is one), no item gets
    a translation: the transcript stays as it was, and the translations
    are shown all the same. *)
Theorem translation_without_prefix (env : VoiceInterface.Env)
    (s : VoiceInterface.State) (reply : list N) :
  VoiceInterface.translationReply env = Some reply ->
  Forall (fun line => Translation.prefixed line = None)
         (Js.split_lines reply) ->
  VoiceInterface.transcriptions
    (VoiceInterface.translateFullConversation env s)
  = VoiceInterface.transcriptions s
  /\ VoiceInterface.showTranslations
       (VoiceInterface.translateFullConversation env s) = true
  /\ VoiceInterface.isTranslating
       (VoiceInterface.translateFullConversation env s) = false.
Proof.
  intros Hr Hl. unfold translateFullConversation. cbn zeta.
  rewrite Hr, (parse_no_prefix reply Hl). fields.
  split; [|split; reflexivity].
  apply list_eq. intros i. rewrite list_lookup_imap.
  destruct (transcriptions s !! i) as [t|]; reflexivity.
Qed.

Lemma translation_without_prefix_witness :
  VoiceInterface.transcriptions
    (VoiceInterface.translateFullConversation
       (VoiceInterface.sample_env 0 (Some (Js.js "Sorry, I cannot.")))
       (VoiceInterface.mount true ∅))
  = VoiceInterface.transcriptions (VoiceInterface.mount true ∅).
Proof.
  refine (proj1 (translation_without_prefix
                   (VoiceInterface.sample_env 0 (Some (Js.js "Sorry, I cannot.")))
                   (VoiceInterface.mount true ∅) (Js.js "Sorry, I cannot.")
                   eq_refl _)).
  apply Forall_cons_2; [reflexivity | apply Forall_nil_2].
Defined.

(** *** A chunk of audio that cannot be decoded *)

(** X20.  When the audio of a message cannot be decoded (its text is not
    base64, or its bytes do not make one frame), the handler stops
    there: the status is Speaking although no source is started and
    none is added to the live ones, and the end of the turn that the
    same message announces is not handled, so that the fragments of
    transcription stay in their buffers and the transcript gets no
    item. *)
Theorem undecodable_audio_stops_handler (env : VoiceInterface.Env)
    (message : VoiceInterface.Message) (audio : list N)
    (s : VoiceInterface.State) :
  VoiceInterface.toolCall message = None ->
  VoiceInterface.base64Audio message = Some audio ->
  Js.truthy audio = true ->
  (forall decodedData : Js.Uint8Array,
     AudioUtils.decode audio = inr decodedData ->
     exists e : Js.Exception,
       AudioUtils.decodeAudioData decodedData (VoiceInterface.outputCtx env)
         24000 1 = inl e) ->
  let s' := VoiceInterface.onmessage env message s in
  VoiceInterface.status s' = VoiceInterface.Speaking
  /\ VoiceInterface.started s' = VoiceInterface.started s
  /\ VoiceInterface.sourcesRef s' = VoiceInterface.sourcesRef s
  /\ VoiceInterface.transcriptions s' = VoiceInterface.transcriptions s
  /\ VoiceInterface.currentAiTranscription s'
     = VoiceInterface.currentAiTranscription
         (VoiceInterface.onTranscription message s)
  /\ VoiceInterface.currentUserTranscription s'
     = VoiceInterface.currentUserTranscription
         (VoiceInterface.onTranscription message s).
Proof.
  intros Htool Haudio Htruthy Hbad. cbn zeta.
  unfold onmessage, onToolCall. cbn zeta. rewrite Htool.
  unfold onAudio. rewrite Haudio, Htruthy. unfold playAudio. cbn zeta.
  destruct (decode audio) as [e|decodedData] eqn:Ed.
  - fields. unfold onTranscription. repeat split; frame.
  - destruct (Hbad decodedData eq_refl) as [e He]. rewrite He.
    fields. unfold onTranscription. repeat split; frame.
Qed.

Lemma undecodable_audio_stops_handler_witness :
  let message :=
    {| VoiceInterface.toolCall := None;
       VoiceInterface.outputTranscription := Some (Js.js "hello");
       VoiceInterface.inputTranscription := None;
       VoiceInterface.base64Audio := Some (Js.js "TQ==");
       VoiceInterface.turnComplete := true |} in
  let s' := VoiceInterface.onmessage (VoiceInterface.sample_env 0 None)
              message (VoiceInterface.mount true ∅) in
  VoiceInterface.status s' = VoiceInterface.Speaking
  /\ VoiceInterface.transcriptions s' = []
  /\ VoiceInterface.currentAiTranscription s' = Js.js "hello".
Proof.
  cbn zeta.
  destruct (undecodable_audio_stops_handler
              (VoiceInterface.sample_env 0 None)
              {| VoiceInterface.toolCall := None;
                 VoiceInterface.outputTranscription := Some (Js.js "hello");
                 VoiceInterface.inputTranscription := None;
                 VoiceInterface.base64Audio := Some (Js.js "TQ==");
                 VoiceInterface.turnComplete := true |}
              (Js.js "TQ==") (VoiceInterface.mount true ∅)
              eq_refl eq_refl eq_refl)
    as (Hs & _ & _ & Ht & Ha & _).
  - intros decodedData Hd. vm_compute in Hd. injection Hd as <-.
    exists Js.NotSupportedError. reflexivity.
  - split; [exact Hs|]. split; [exact Ht | exact Ha].
Defined.

(** *** The end of a call *)

Lemma includes_empty (pat : jsstring) : pat <> [] -> includes [] pat = false.
Proof.
  destruct pat; [contradiction | reflexivity].
Qed.

(** X21.  The session ends when the last source ends while the buffer of the
    model's transcription holds the closing phrase.  The end of a turn
    empties that buffer: once a message that completes a turn (and
    carries no audio) has been handled, the end of a source does not
    stop the session, whatever the model has said; when it was the last
    live source the status goes to Listening. *)
Theorem end_of_turn_forgets_closing_phrase (s : VoiceInterface.State)
    (env env' : VoiceInterface.Env) (message : VoiceInterface.Message)
    (k : nat) :
  VoiceInterface.turnComplete message = true ->
  VoiceInterface.base64Audio message = None ->
  let s1 := VoiceInterface.step s (env, VoiceInterface.MessageReceived message) in
  let s2 := VoiceInterface.step s1 (env', VoiceInterface.SourceEnded k) in
  VoiceInterface.currentAiTranscription s1 = []
  /\ VoiceInterface.isActive s2 = VoiceInterface.isActive s1
  /\ VoiceInterface.mediaStreamRef s2 = VoiceInterface.mediaStreamRef s1
  /\ VoiceInterface.transcriptions s2 = VoiceInterface.transcriptions s1
  /\ (delete k (VoiceInterface.sourcesRef s1) = [] ->
      VoiceInterface.status s2 = VoiceInterface.Listening).
Proof.
  intros Hturn Haudio. cbn zeta. cbn [step fst snd].
  assert (Hai : currentAiTranscription (onmessage env message s) = []).
  { unfold onmessage, onAudio. cbn zeta. rewrite Haudio, Hturn.
    apply onTurnComplete_lines. }
  split; [exact Hai|].
  set (s1 := onmessage env message s) in *. clearbody s1.
  unfold onended. cbn zeta. fields. rewrite Hai.
  rewrite includes_empty by discriminate.
  destruct (delete k (sourcesRef s1)) eqn:E; fields; repeat split;
    discriminate.
Qed.

Lemma end_of_turn_forgets_closing_phrase_witness :
  let s := VoiceInterface.set_currentAiTranscription
             VoiceInterface.END_CALL_PHRASE
             (VoiceInterface.set_sourcesRef
                [ {| VoiceInterface.when := Js.Num 0;
                     VoiceInterface.bufferDuration := Js.Num 1 |} ]
                (VoiceInterface.onopen (VoiceInterface.sample_env 0 None)
                   None (VoiceInterface.mount true ∅))) in
  let s1 := VoiceInterface.step s
              (VoiceInterface.sample_env 0 None,
               VoiceInterface.MessageReceived
                 VoiceInterface.turnCompleteMessage) in
  let s2 := VoiceInterface.step s1
              (VoiceInterface.sample_env 1 None,
               VoiceInterface.SourceEnded 0) in
  VoiceInterface.isActive (VoiceInterface.step s
                             (VoiceInterface.sample_env 1 None,
                              VoiceInterface.SourceEnded 0)) = false
  /\ VoiceInterface.isActive s2 = true
  /\ VoiceInterface.status s2 = VoiceInterface.Listening.
Proof.
  cbn zeta. split; [reflexivity|].
  destruct (end_of_turn_forgets_closing_phrase
              (VoiceInterface.set_currentAiTranscription
                 VoiceInterface.END_CALL_PHRASE
                 (VoiceInterface.set_sourcesRef
                    [ {| VoiceInterface.when := Js.Num 0;
                         VoiceInterface.bufferDuration := Js.Num 1 |} ]
                    (VoiceInterface.onopen (VoiceInterface.sample_env 0 None)
                       None (VoiceInterface.mount true ∅))))
              (VoiceInterface.sample_env 0 None)
              (VoiceInterface.sample_env 1 None)
              VoiceInterface.turnCompleteMessage 0 eq_refl eq_refl)
    as (_ & Ha & _ & _ & Hs).
  split; [rewrite Ha; reflexivity | apply Hs; reflexivity].
Defined.

End VoiceInterfaceFacts.
